(** * pylearn-parsimony: proximal operators and solvers

    A shallow embedding of the optimisation core of the package
    (parsimony/algorithms.py, parsimony/functions/penalties.py and
    multiblock/prox_ops.py) together with the properties its specification
    states about it.

    Real numbers are embedded as rationals ([Q]); numpy column vectors as
    [list Q].  Python exceptions are embedded in the [result] type.  Timing
    information (the ["t"] entry of solver outputs) is not embedded. *)

From Stdlib Require Import String ZArith QArith Qabs Qminmax Qpower Qround.
From Stdlib Require Import Lqa Lia.
From Stdlib Require Import Bool List.
Import ListNotations.
Open Scope Q_scope.

(** * Part I: the embedding *)

(** ** Exceptions *)

Module Py.

Inductive exn : Type :=
| ZeroDivisionError
| TypeError
| IndexError
| ValueError
| AttributeError
| UnboundLocalError
| NonFinite   (* not an exception: numpy produced inf or nan, which [Q] lacks *)
| OutOfFuel.  (* not an exception: the fuel of a [while True] loop ran out *)

Inductive result (A : Type) : Type :=
| Ok (a : A)
| Raise (e : exn).

Arguments Ok {A} a.
Arguments Raise {A} e.

Definition bind {A B : Type} (m : result A) (k : A -> result B) : result B :=
  match m with
  | Ok a => k a
  | Raise e => Raise e
  end.

Definition is_ok {A : Type} (m : result A) : bool :=
  match m with
  | Ok _ => true
  | Raise _ => false
  end.

End Py.

Import Py.

Notation "x <- m ;; k" := (bind m (fun x => k))
  (at level 61, m at next level, right associativity).
Notation "' pat <- m ;; k" := (bind m (fun x => match x with pat => k end))
  (at level 61, pat pattern, m at next level, right associativity).

(** ** Numeric primitives *)

Module Numeric.

Definition vec : Type := list Q.

Definition Qltb (x y : Q) : bool := negb (Qle_bool y x).
Definition Qleb (x y : Q) : bool := Qle_bool x y.

(** Division of Python floats: a zero divisor raises. *)
Definition py_div (a b : Q) : result Q :=
  if Qeq_bool b 0 then Raise ZeroDivisionError else Ok (a / b).

(** [np.sign]: -1, 0 or 1. *)
Definition sign (x : Q) : Q :=
  if Qltb 0 x then 1 else if Qltb x 0 then -(1) else 0.

(** Modelled from the spec: parsimony/utils/maths.py is not part of the
    sources; [maths.sign] is the "sign" primitive of the numeric layer, as
    [sign] of strukturerad/datasets/simulated/l1_l2.py defines it. *)
Definition maths_sign (x : Q) : Q :=
  if Qltb 0 x then 1 else if Qltb x 0 then -(1) else 0.

Fixpoint map2 {A B C : Type} (f : A -> B -> C) (u : list A) (v : list B)
  : list C :=
  match u, v with
  | a :: u', b :: v' => f a b :: map2 f u' v'
  | _, _ => []
  end.

(** Arithmetic on arrays of one shape. *)
Definition vadd (u v : vec) : vec := map2 Qplus u v.
Definition vsub (u v : vec) : vec := map2 Qminus u v.
Definition vscale (a : Q) (v : vec) : vec := map (Qmult a) v.
Definition vmul (u v : vec) : vec := map2 Qmult u v.
Definition vabs (v : vec) : vec := map Qabs v.
Definition vsign (v : vec) : vec := map sign v.
Definition zeros (n : nat) : vec := repeat 0 n.

Definition vsum (v : vec) : Q := fold_right Qplus 0 v.

(** Modelled from the spec: parsimony/utils/maths.py is not part of the
    sources; [norm1] is the "norm" primitive of the numeric layer for the
    L1 norm, the sum of the magnitudes. *)
Definition norm1 (v : vec) : Q := vsum (vabs v).

Definition sumsq (v : vec) : Q := vsum (map (fun x => x * x) v).

(** Python's [min] and [max] of a sequence: the first extremal element;
    [ValueError] on an empty sequence. *)
Definition py_min (l : list Q) : result Q :=
  match l with
  | [] => Raise ValueError
  | a :: l' => Ok (fold_left Qmin l' a)
  end.

Definition py_max (l : list Q) : result Q :=
  match l with
  | [] => Raise ValueError
  | a :: l' => Ok (fold_left Qmax l' a)
  end.

Section Sqrt.

(** [np.sqrt] is a parameter of the development. *)
Variable sqrt : Q -> Q.

(** Modelled from the spec: parsimony/utils/maths.py is not part of the
    sources; [norm] is the Euclidean norm of the numeric layer. *)
Definition norm (v : vec) : Q := sqrt (sumsq v).

End Sqrt.

(** A square root that is exact on squares of rationals, for evaluation. *)
Definition sqrt_exact (q : Q) : Q :=
  Qmake (Z.sqrt (Qnum q)) (Pos.sqrt (Qden q)).

End Numeric.

Import Numeric.

(** ** parsimony/algorithms.py: [Bisection] *)

Module Bisection.

(** Values passed as keyword arguments. *)
Inductive pyval : Type :=
| VBool (b : bool)
| VFloat (q : Q)
| VInt (n : nat).

Definition kwargs : Type := list (string * pyval).

Fixpoint kw_lookup (name : string) (kw : kwargs) : option pyval :=
  match kw with
  | [] => None
  | (k, v) :: kw' => if String.eqb k name then Some v else kw_lookup name kw'
  end.

Definition as_float (v : pyval) : Q :=
  match v with
  | VBool b => if b then 1 else 0
  | VFloat q => q
  | VInt n => inject_Z (Z.of_nat n)
  end.

Definition as_int (v : pyval) : nat :=
  match v with
  | VBool b => if b then 1%nat else 0%nat
  | VFloat q => Z.to_nat (Qnum q / Zpos (Qden q))
  | VInt n => n
  end.

Record t : Type := mk {
  eps : Q;
  max_iter : nat;
  min_iter : nat
}.

Section Consts.

(** [consts.TOLERANCE] (parsimony/utils/consts.py is not part of the
    sources). *)
Variable TOLERANCE : Q.

(** The keywords of [Bisection.__init__(self, eps, max_iter, min_iter)]. *)
Definition keywords : list string :=
  ["eps"; "max_iter"; "min_iter"]%string.

(** [Bisection.__init__]: a keyword that is not a parameter of the
    constructor is a [TypeError]. *)
Definition init (kw : kwargs) : result t :=
  if forallb (fun kv => existsb (String.eqb (fst kv)) keywords) kw
  then
    Ok {| eps := match kw_lookup "eps" kw with
                   | Some v => as_float v
                   | None => TOLERANCE
                   end;
          max_iter := match kw_lookup "max_iter" kw with
                        | Some v => as_int v
                        | None => 50%nat
                        end;
          min_iter := match kw_lookup "min_iter" kw with
                        | Some v => as_int v
                        | None => 1%nat
                        end |}
  else Raise TypeError.

End Consts.

Section Call.

Variable sqrt : Q -> Q.

(** The state of the two loops of [Bisection.__call__]: the bracket and the
    function values at its ends, unbound until first assigned. *)
Record bracket : Type := mkBracket {
  low : Q;
  high : Q;
  f_low : option Q;
  f_high : option Q
}.

(** First loop: [for i in xrange(self.max_iter)], doubling the bracket
    until the signs at its ends differ. *)
Fixpoint expand (f : Q -> Q) (ix : list nat) (b : bracket) : bracket :=
  match ix with
  | [] => b
  | i :: ix' =>
      let fl := f (low b) in
      let fh := f (high b) in
      if Qeq_bool (maths_sign fl) (maths_sign fh)
      then expand f ix'
             {| low := low b - Qabs (low b) * Qpower 2 (Z.of_nat i);
                high := high b + Qabs (high b) * Qpower 2 (Z.of_nat i);
                f_low := Some fl;
                f_high := Some fh |}
      else {| low := low b; high := high b;
              f_low := Some fl; f_high := Some fh |}
  end.

(** Second loop: [for i in xrange(self.max_iter)], halving the bracket; the
    only [break] is on the width of the bracket. *)
Fixpoint bisect (tol : Q) (f : Q -> Q) (ix : list nat) (b : bracket)
  : result bracket :=
  match ix with
  | [] => Ok b
  | _ :: ix' =>
      let mid := (low b + high b) / 2 in
      let f_mid := f mid in
      match f_low b with
      | None => Raise UnboundLocalError
      | Some fl =>
          let b' :=
            if Qeq_bool (maths_sign f_mid) (maths_sign fl)
            then {| low := mid; high := high b;
                    f_low := Some f_mid; f_high := f_high b |}
            else {| low := low b; high := mid;
                    f_low := f_low b; f_high := Some f_mid |} in
          if Qleb (sqrt ((high b' - low b') * (high b' - low b'))) tol
          then Ok b'
          else bisect tol f ix' b'
      end
  end.

(** [Bisection.__call__(self, function, x=None)]. *)
Definition call (self : t) (f : Q -> Q)
  (x : option (list Q)) : result Q :=
  b0 <- match x with
        | Some xs =>
            lo <- py_min xs ;;
            hi <- py_max xs ;;
            Ok {| low := lo; high := hi; f_low := None; f_high := None |}
        | None =>
            Ok {| low := 0; high := 1; f_low := None; f_high := None |}
        end ;;
  let b1 := expand f (seq 0 (max_iter self)) b0 in
  b2 <- bisect (eps self) f (seq 0 (max_iter self)) b1 ;;
  Ok ((low b2 + high b2) / 2).

End Call.

End Bisection.

(** ** parsimony/functions/penalties.py: [L1] *)

Module Penalties.

Record L1 : Type := mkL1 {
  l : Q;
  c : Q;
  penalty_start : nat
}.

(** The penalised part [beta[self.penalty_start:, :]]. *)
Definition penalised (self : L1) (beta : vec) : vec :=
  if (0 <? penalty_start self)%nat then skipn (penalty_start self) beta
  else beta.

(** [(np.abs(b) > t) * (b - t * np.sign(b - t))], entry by entry. *)
Definition shrink (t : Q) (b : Q) : Q :=
  (if Qltb t (Qabs b) then 1 else 0) * (b - t * sign (b - t)).

(** [L1.prox(self, beta, factor=1.0)]. *)
Definition L1_prox (self : L1) (beta : vec) (factor : Q) : vec :=
  let t := l self * factor in
  let beta_ := penalised self beta in
  let prox := map (shrink t) beta_ in
  firstn (penalty_start self) beta ++ prox.

(** [L1.feasible(self, beta)]. *)
Definition L1_feasible (self : L1) (beta : vec) : bool :=
  Qleb (norm1 (penalised self beta)) (c self).

Section Proj.

Variable TOLERANCE : Q.
Variable sqrt : Q -> Q.

(** The local class [F] of [L1.proj]. *)
Definition F_f (beta : vec) (c : Q) (t : Q) : Q :=
  norm1 (map (shrink t) beta) - c.

(** [L1.proj(self, beta)]. *)
Definition L1_proj (self : L1) (beta : vec) : result vec :=
  if L1_feasible self beta then Ok beta
  else
    bisection <- Bisection.init TOLERANCE
                   [("force_negative", Bisection.VBool true);
                    ("eps", Bisection.VFloat (1 # 100000000))]%string ;;
    let beta_ := penalised self beta in
    m <- py_max (vabs beta_) ;;
    t <- Bisection.call sqrt bisection (F_f beta_ (c self)) (Some [0; m]) ;;
    Ok (map (shrink t) beta_).

End Proj.

(** [L1.f(self, beta)]. *)
Definition L1_f (self : L1) (beta : vec) : Q :=
  l self * (norm1 (penalised self beta) - c self).

End Penalties.

(** ** Objectives *)

Module Function.

(** The capabilities [Gradient], [LipschitzContinuousGradient] and
    [ProximalOperator] (and [Function]) that [FISTA.INTERFACES] asks for;
    [check_compatibility] is the typing of this record. *)
Record t : Type := mk {
  f : vec -> Q;
  grad : vec -> vec;
  L : Q;
  prox : vec -> Q -> vec
}.

End Function.

Module NesterovFunction.

(** An objective with a smoothing constant: the capabilities of
    [CONESTA.INTERFACES].  The constant is mutable state of the object
    ([get_mu], [set_mu]); every method receives its current value. *)
Record t : Type := mk {
  f : Q -> vec -> Q;
  grad : Q -> vec -> vec;
  L : Q -> Q;
  prox : Q -> vec -> Q -> vec;
  estimate_mu : Q -> vec -> Q;
  eps_max : Q -> Q -> Q;
  eps_opt : Q -> Q -> Q;
  mu_opt : Q -> Q -> Q;
  gap : Q -> vec -> Q
}.

(** The object as the inner solver sees it while its constant is [mu]. *)
Definition at_mu (fn : t) (mu : Q) : Function.t :=
  {| Function.f := f fn mu;
     Function.grad := grad fn mu;
     Function.L := L fn mu;
     Function.prox := prox fn mu |}.

End NesterovFunction.

(** ** parsimony/algorithms.py: [FISTA] *)

Module FISTA.

Record t : Type := mk {
  step : option Q;
  output : bool;
  eps : Q;
  max_iter : nat;
  min_iter : nat
}.

Section Consts.

Variable TOLERANCE : Q.
Variable MAX_ITER : nat.

(** [FISTA.__init__] with its defaults. *)
Definition init (step : option Q) (output : option bool) (eps : option Q)
  (max_iter min_iter : option nat) : t :=
  {| step := step;
     output := match output with Some b => b | None => false end;
     eps := match eps with Some e => e | None => TOLERANCE end;
     max_iter := match max_iter with Some n => n | None => MAX_ITER end;
     min_iter := match min_iter with Some n => n | None => 1%nat end |}.

End Consts.

(** [set_params(step=..., eps=...)], as [CONESTA] uses it. *)
Definition set_params (self : t) (step' : option Q) (eps' : Q) : t :=
  {| step := step'; output := output self; eps := eps';
     max_iter := max_iter self; min_iter := min_iter self |}.

Definition set_step (self : t) (step' : option Q) : t :=
  {| step := step'; output := output self; eps := eps self;
     max_iter := max_iter self; min_iter := min_iter self |}.

(** [(i - 2.0) / (i + 1.0)]. *)
Definition momentum (i : nat) : Q :=
  (inject_Z (Z.of_nat i) - 2) / (inject_Z (Z.of_nat i) + 1).

Section Call.

Variable sqrt : Q -> Q.

(** The body of [for i in xrange(1, self.max_iter + 1)], on the remaining
    values of [i]; [fs] is the list [f] of the output. *)
Fixpoint loop (self : t) (stp : Q) (function : Function.t) (ix : list nat)
  (betanew betaold : vec) (fs : list Q) : result (vec * list Q) :=
  match ix with
  | [] => Ok (betanew, fs)
  | i :: ix' =>
      let z := vadd betanew (vscale (momentum i) (vsub betanew betaold)) in
      let betaold := betanew in
      let betanew :=
        Function.prox function
          (vsub z (vscale stp (Function.grad function z))) stp in
      let fs := if output self then fs ++ [Function.f function betanew]
                else fs in
      inv <- py_div 1 stp ;;
      if Qltb (inv * norm sqrt (vsub betanew z)) (eps self)
         && (min_iter self <=? i)%nat
      then Ok (betanew, fs)
      else loop self stp function ix' betanew betaold fs
  end.

(** [FISTA.__call__(self, function, beta)]: the returned value, with the
    list [f] of the output when [self.output] is set, and the algorithm
    object as the call leaves it. *)
Definition call (self : t) (function : Function.t) (beta : vec)
  : result ((vec * option (list Q)) * t) :=
  stp <- match step self with
         | Some s => Ok s
         | None => py_div 1 (Function.L function)
         end ;;
  let self := set_step self (Some stp) in
  '(betanew, fs) <- loop self stp function (seq 1 (max_iter self))
                      beta beta [] ;;
  Ok (if output self then (betanew, Some fs) else (betanew, None), self).

End Call.

End FISTA.

(** ** parsimony/algorithms.py: [CONESTA] *)

Module CONESTA.

Record t : Type := mk {
  mu_start : option Q;
  mu_min : Q;
  tau : Q;
  dynamic : bool;
  continuations : nat;
  output : bool;
  eps : Q;
  max_iter : nat;
  min_iter : nat;
  inner : FISTA.t   (* [self.FISTA] *)
}.

Definition set_mu_min (self : t) (m : Q) : t :=
  {| mu_start := mu_start self; mu_min := m; tau := tau self;
     dynamic := dynamic self; continuations := continuations self;
     output := output self; eps := eps self; max_iter := max_iter self;
     min_iter := min_iter self; inner := inner self |}.

Definition set_inner (self : t) (a : FISTA.t) : t :=
  {| mu_start := mu_start self; mu_min := mu_min self; tau := tau self;
     dynamic := dynamic self; continuations := continuations self;
     output := output self; eps := eps self; max_iter := max_iter self;
     min_iter := min_iter self; inner := a |}.

(** What a run carries from one outer iteration to the next: the local
    variables of [__call__], the algorithm object and the smoothing constant
    held by the objective. *)
Record state : Type := mkState {
  beta : vec;
  mu : list Q;
  max_eps : Q;
  G : Q;
  tmin : Q;
  i : nat;
  fs : list Q;       (* [f] *)
  Gval : list Q;
  self : t;
  fmu : Q            (* [function.get_mu()] *)
}.

Section Consts.

Variable TOLERANCE : Q.
Variable MAX_ITER : nat.

(** [CONESTA.__init__] with its defaults. *)
Definition init (mu_start : option Q) (mu_min : option Q) (tau : option Q)
  (dynamic : option bool) (continuations : option nat)
  (output : option bool) (eps : option Q) (max_iter min_iter : option nat)
  : t :=
  let output := match output with Some b => b | None => false end in
  let eps := match eps with Some e => e | None => TOLERANCE end in
  let max_iter := match max_iter with Some n => n | None => MAX_ITER end in
  let min_iter := match min_iter with Some n => n | None => 1%nat end in
  {| mu_start := mu_start;
     mu_min := match mu_min with Some m => m | None => TOLERANCE end;
     tau := match tau with Some x => x | None => 1 # 2 end;
     dynamic := match dynamic with Some b => b | None => true end;
     continuations := match continuations with
                      | Some n => n
                      | None => 30%nat
                      end;
     output := output; eps := eps; max_iter := max_iter;
     min_iter := min_iter;
     inner := FISTA.init TOLERANCE MAX_ITER None (Some output) (Some eps)
                (Some max_iter) (Some min_iter) |}.

Variable sqrt : Q -> Q.

(** [mu[-1]]; the list is never empty. *)
Definition mu_last (mu : list Q) : Q := last mu 0.

(** The update of the gap estimate ([if self.dynamic: ... else: ...]). *)
Definition update_G (dynamic : bool) (tau G gap_beta : Q) : Q :=
  if dynamic then
    let G_new := Qabs gap_beta in
    if Qltb G_new G then G_new else tau * G
  else tau * G.

(** One pass through the body of [while True]: whether it ends with [break],
    and the state it leaves. *)
Definition iter (function : NesterovFunction.t) (st : state)
  : result (bool * state) :=
  let self := self st in
  let mu := mu st in
  tnew <- py_div 1 (NesterovFunction.L function (fmu st)) ;;
  let eps_plus :=
    Qmin (max_eps st)
         (NesterovFunction.eps_opt function (fmu st) (mu_last mu)) in
  let self := set_inner self
                (FISTA.set_params (inner self) (Some tnew) eps_plus) in
  '(ret, fista) <- FISTA.call sqrt (inner self)
                     (NesterovFunction.at_mu function (fmu st)) (beta st) ;;
  let self := set_inner self fista in
  '(beta, fval) <-
     match output self, ret with
     | true, (b, Some info) => Ok (b, info)
     | true, (_, None) => Raise ValueError   (* nothing to unpack *)
     | false, (b, None) => Ok (b, [])
     | false, (_, Some _) => Raise TypeError (* a tuple is not an array *)
     end ;;
  let self := set_mu_min self (Qmin (mu_min self) (mu_last mu)) in
  let tmin := Qmin (tmin st) tnew in
  (* function.set_mu(self.mu_min) *)
  let beta_tilde :=
    NesterovFunction.prox function (mu_min self)
      (vsub beta
         (vscale tmin (NesterovFunction.grad function (mu_min self) beta)))
      tmin in
  (* function.set_mu(mu[-1]) *)
  let fmu1 := mu_last mu in
  inv <- py_div 1 tmin ;;
  let stop := Qltb (inv * norm sqrt (vsub beta beta_tilde)) (eps self)
              || (continuations self <=? i st)%nat in
  let G := update_G (dynamic self) (tau self) (G st)
             (NesterovFunction.gap function fmu1 beta) in
  (* [tval[-1] += gap_time] needs one inner iteration at least *)
  _ <- (if output self
        then match fval with [] => Raise IndexError | _ => Ok tt end
        else Ok tt) ;;
  let Gval := if output self then Gval st ++ [G] else Gval st in
  let fs := if output self then fs st ++ fval else fs st in
  if (Qleb G TOLERANCE && Qleb (mu_last mu) TOLERANCE) || stop
  then Ok (true,
           {| beta := beta; mu := mu; max_eps := max_eps st; G := G;
              tmin := tmin; i := i st;
              fs := fs; Gval := Gval; self := self; fmu := fmu1 |})
  else
    let mu_new := Qmin (mu_last mu)
                    (NesterovFunction.mu_opt function fmu1 G) in
    let self := set_mu_min self (Qmin (mu_min self) mu_new) in
    let mu :=
      if output self
      then mu ++ repeat (Qmax (mu_min self) mu_new) (length fval)
      else mu ++ [Qmax (mu_min self) mu_new] in
    (* function.set_mu(mu_new) *)
    Ok (false,
        {| beta := beta; mu := mu; max_eps := max_eps st; G := G;
           tmin := tmin; i := S (i st);
           fs := fs; Gval := Gval; self := self; fmu := mu_new |}).

(** [while True]. *)
Fixpoint loop (fuel : nat) (function : NesterovFunction.t) (st : state)
  : result state :=
  match fuel with
  | O => Raise OutOfFuel
  | S fuel' =>
      '(brk, st') <- iter function st ;;
      if brk then Ok st' else loop fuel' function st'
  end.

(** The statements of [__call__] before the loop; [fmu0] is the smoothing
    constant the objective holds when the solver is called. *)
Definition start (self : t) (function : NesterovFunction.t) (fmu0 : Q)
  (beta : vec) : result state :=
  let mu0 := match mu_start self with
             | Some m => m
             | None =>
                 (9 # 10) * NesterovFunction.estimate_mu function fmu0 beta
             end in
  (* function.set_mu(self.mu_min) *)
  tmin <- py_div 1 (NesterovFunction.L function (mu_min self)) ;;
  (* function.set_mu(mu[0]) *)
  let max_eps := NesterovFunction.eps_max function mu0 mu0 in
  let G := Qmin max_eps (NesterovFunction.eps_opt function mu0 mu0) in
  Ok {| beta := beta; mu := [mu0]; max_eps := max_eps; G := G;
        tmin := tmin; i := 0%nat;
        fs := []; Gval := []; self := self; fmu := mu0 |}.

(** [CONESTA.__call__(self, function, beta)]: the final state of the run.
    The loop breaks at [i >= self.continuations] at the latest. *)
Definition call (self : t) (function : NesterovFunction.t) (fmu0 : Q)
  (beta : vec) : result state :=
  st0 <- start self function fmu0 beta ;;
  loop (S (continuations self)) function st0.

(** The value [__call__] returns: [beta], with the output when asked. *)
Definition returned (st : state)
  : vec * option (list Q * list Q * list Q) :=
  if output (self st) then (beta st, Some (fs st, mu st, Gval st))
  else (beta st, None).

End Consts.

End CONESTA.

(** ** parsimony/algorithms.py: [ExcessiveGapMethod] *)

Module ExcessiveGapMethod.

Record t : Type := mk {
  output : bool;
  eps : Q;
  max_iter : nat;
  min_iter : nat
}.

(** What [function.h.set_mu] was last given: the list [mu] before the loop,
    a number afterwards. *)
Inductive muval : Type :=
| MuList (l : list Q)
| MuFloat (q : Q).

(** The objective of the method: a strongly convex part and a smoothed part
    [h]; the methods receive what [h] holds as smoothing constant. *)
Record function : Type := mkFunction {
  A_rows : list nat;                         (* [A[i].shape[0]] *)
  L : muval -> Q;
  f : muval -> vec -> Q;
  h_alpha : muval -> vec -> list vec;
  h_M : muval -> Q;
  betahat : muval -> list vec -> vec;
  V : muval -> list vec -> vec -> Q -> list vec
}.

Record state : Type := mkState {
  u : list vec;
  mu : list Q;
  beta : vec;
  alpha : list vec;
  k : nat;
  fs : list Q;          (* [f] *)
  ubound : list Q;
  hmu : muval           (* [function.h.get_mu()] *)
}.

(** [for i in xrange(len(alpha_hat)): u[i] = (1.0 - tau) * alpha[i]
    + tau * alpha_hat[i]]. *)
Fixpoint blend (tau : Q) (alpha alpha_hat u : list vec) {struct alpha_hat}
  : result (list vec) :=
  match alpha_hat with
  | [] => Ok u
  | ah :: alpha_hat' =>
      match alpha, u with
      | a :: alpha', _ :: u' =>
          r <- blend tau alpha' alpha_hat' u' ;;
          Ok (vadd (vscale (1 - tau) a) (vscale tau ah) :: r)
      | _, _ => Raise IndexError
      end
  end.

(** [2.0 / (float(k) + 3.0)]. *)
Definition tau_of (k : nat) : Q := 2 / (inject_Z (Z.of_nat k) + 3).

(** The statements of [__call__] before the loop; [hmu0] is what the
    smoothed part holds when the solver is called. *)
Definition start (fn : function) (hmu0 : muval) : state :=
  let u := map zeros (A_rows fn) in
  let L := L fn hmu0 in
  let mu := [2 * L] in
  (* function.h.set_mu(mu) *)
  let hmu := MuList mu in
  let beta0 := betahat fn hmu u in
  let alpha := V fn hmu u beta0 L in
  {| u := u; mu := mu; beta := beta0; alpha := alpha; k := 0%nat;
     fs := []; ubound := []; hmu := hmu |}.

(** One pass through the body of [while True]; [Lc] is the local [L]. *)
Definition iter (self : t) (fn : function) (Lc : Q) (st : state)
  : result (bool * state) :=
  let tau := tau_of (k st) in
  mu_k <- match nth_error (mu st) (k st) with
          | Some m => Ok m
          | None => Raise IndexError
          end ;;
  (* function.h.set_mu(mu[k]) *)
  let hmu := MuFloat mu_k in
  let alpha_hat := h_alpha fn hmu (beta st) in
  u <- blend tau (alpha st) alpha_hat (u st) ;;
  let mu := mu st ++ [(1 - tau) * mu_k] in
  let betahat := betahat fn hmu u in
  let beta := vadd (vscale (1 - tau) (beta st)) (vscale tau betahat) in
  let alpha := V fn hmu u betahat Lc in
  mu_k1 <- match nth_error mu (k st + 1) with
           | Some m => Ok m
           | None => Raise IndexError
           end ;;
  let ulim := mu_k1 * h_M fn hmu in
  (* the value of [f] is taken with the constant set to 0.0, then restored *)
  let fs := if output self then fs st ++ [f fn (MuFloat 0) beta]
            else fs st in
  let ubound := if output self then ubound st ++ [ulim] else ubound st in
  let st' := {| u := u; mu := mu; beta := beta; alpha := alpha;
                k := k st; fs := fs; ubound := ubound; hmu := hmu |} in
  if Qltb ulim (eps self) || (max_iter self <=? k st)%nat
  then Ok (true, st')
  else Ok (false,
           {| u := u; mu := mu; beta := beta; alpha := alpha;
              k := S (k st); fs := fs; ubound := ubound; hmu := hmu |}).

(** [while True]. *)
Fixpoint loop (fuel : nat) (self : t) (fn : function) (Lc : Q) (st : state)
  : result state :=
  match fuel with
  | O => Raise OutOfFuel
  | S fuel' =>
      '(brk, st') <- iter self fn Lc st ;;
      if brk then Ok st' else loop fuel' self fn Lc st'
  end.

(** [ExcessiveGapMethod.__call__(self, function)]: the final state of the
    run.  The loop breaks at [k >= self.max_iter] at the latest. *)
Definition call (self : t) (fn : function) (hmu0 : muval) : result state :=
  loop (S (max_iter self)) self fn (L fn hmu0) (start fn hmu0).

End ExcessiveGapMethod.

(** ** multiblock/prox_ops.py *)

Module ProxOps.

(** [ProxOp]: [self.parameter]. *)
Record t (P : Type) : Type := mk {
  parameter : list P
}.

Arguments mk {P} parameter.
Arguments parameter {P} _.

(** The threshold [l] of [L1.prox]: the list [self.parameter] itself when
    no index is given, the number [self.parameter[index]] otherwise. *)
Inductive threshold : Type :=
| ThrList (l0 : Q)
| ThrFloat (l : Q).

Definition thr_value (t : threshold) : Q :=
  match t with
  | ThrList l0 => l0
  | ThrFloat l => l
  end.

Section L1.

(** [TOLERANCE] and [norm] of multiblock/utils.py, which is not part of the
    sources; [norm] is [Numeric.norm] over the parameter [sqrt]. *)
Variable TOLERANCE : Q.
Variable sqrt : Q -> Q.

(** One pass of the soft threshold.  [x = xorig] makes [x] an alias of
    [xorig], so that [np.absolute(x, x)], [x -= l] and [x[x < 0] = 0]
    rewrite [xorig] in place; [np.multiply(sign, x)] is a new array.  The
    pair is what [xorig] holds afterwards and the new [x]. *)
Definition pass (xorig : vec) (l : Q) : vec * vec :=
  let sign := vsign xorig in
  let x := vabs xorig in
  let x := map (fun v => v - l) x in
  let x := map (fun v => if Qltb v 0 then 0 else v) x in
  (x, vmul sign x).

(** [l *= 0.95]; a list cannot be multiplied by a float. *)
Definition shrink_threshold (t : threshold) : result threshold :=
  match t with
  | ThrList _ => Raise TypeError
  | ThrFloat l => Ok (ThrFloat (l * (95 # 100)))
  end.

(** [while True] of [L1.prox]: the result and the final threshold when a
    warning is to be raised. *)
Fixpoint L1_loop (fuel : nat) (allow_empty : bool) (xorig : vec)
  (l : threshold) (warn : bool) : result (vec * threshold * bool) :=
  match fuel with
  | O => Raise OutOfFuel
  | S fuel' =>
      let '(xorig', x) := pass xorig (thr_value l) in
      if Qltb TOLERANCE (norm sqrt x) || allow_empty
      then Ok (x, l, warn)
      else
        l' <- shrink_threshold l ;;
        L1_loop fuel' allow_empty xorig' l' true
  end.

(** [L1.prox(self, x, index=None, allow_empty=False)] for a column [x]:
    the returned array and, when [warnings.warn] is called, the two numbers
    of its message (the threshold reached and the original one). *)
Definition L1_prox (fuel : nat) (self : t Q) (x : vec) (index : option nat)
  (allow_empty : bool) : result (vec * option (Q * Q)) :=
  lorig <- match index with
           | None =>
               match parameter self with
               | [l0] => Ok (ThrList l0)
               | _ => Raise ValueError
               end
           | Some i =>
               match nth_error (parameter self) i with
               | Some l => Ok (ThrFloat l)
               | None => Raise IndexError
               end
           end ;;
  '(x', l, warn) <- L1_loop fuel allow_empty x lorig false ;;
  Ok (x', if warn then Some (thr_value l, thr_value lorig) else None).

End L1.

(** Entries of [cp]: a magnitude, or [float("-Inf")]. *)
Inductive ext : Type :=
| MInf
| Fin (q : Q).

Definition ext_ltb (a b : ext) : bool :=
  match a, b with
  | MInf, MInf => false
  | MInf, Fin _ => true
  | Fin _, MInf => false
  | Fin x, Fin y => Qltb x y
  end.

(** [np.argmax]: the first index of a largest entry, with that entry.  The
    head of the array is it unless a later entry is strictly larger. *)
Fixpoint argmax_val (cp : list ext) : nat * ext :=
  match cp with
  | [] => (0%nat, MInf)
  | a :: cp' =>
      let (j, m) := argmax_val cp' in
      if ext_ltb a m then (S j, m) else (0%nat, a)
  end.

Definition argmax (cp : list ext) : result nat :=
  match cp with
  | [] => Raise ValueError
  | _ :: _ => Ok (fst (argmax_val cp))
  end.

(** [cp[idx] = minf]. *)
Fixpoint mask (idx : nat) (cp : list ext) : list ext :=
  match cp, idx with
  | [], _ => []
  | _ :: cp', O => MInf :: cp'
  | a :: cp', S idx' => a :: mask idx' cp'
  end.

(** [for i in xrange(target_num): idx = np.argmax(cp); ind[i] = idx;
    cp[idx] = minf]. *)
Fixpoint select (n : nat) (cp : list ext) (ind : list nat)
  : result (list nat) :=
  match n with
  | O => Ok ind
  | S n' =>
      idx <- argmax cp ;;
      select n' (mask idx cp) (ind ++ [idx])
  end.

Definition scaled (x : vec) (d : Q) : vec := map (fun v => v / d) x.

(** [x / d] for an array [x]: numpy does not raise on a zero divisor. *)
Definition np_div (x : vec) (d : Q) : result vec :=
  if Qeq_bool d 0
  then match x with [] => Ok [] | _ => Raise NonFinite end
  else Ok (scaled x d).

(** [x[np.absolute(x) < l] = 0]. *)
Definition zero_below (l : Q) (x : vec) : vec :=
  map (fun v => if Qltb (Qabs v) l then 0 else v) x.

(** [min(self.parameter[index], x.shape[0])], at least 1. *)
Definition target (num : Z) (p : nat) : nat :=
  let target_num := Z.min num (Z.of_nat p) in
  Z.to_nat (if (target_num <? 1)%Z then 1%Z else target_num).

(** [L0_by_count.prox(self, x, index, normaliser=None)].  [ProxOp] of this
    module sets no [self.normaliser], so a call without [normaliser] is an
    [AttributeError]. *)
Definition L0_by_count_prox (self : t Z) (x : vec) (index : nat)
  (normaliser : option (list (vec -> Q))) : result vec :=
  num <- match nth_error (parameter self) index with
         | Some n => Ok n
         | None => Raise IndexError
         end ;;
  let target_num := target num (length x) in
  normalise <- match normaliser with
               | Some ns =>
                   match nth_error ns index with
                   | Some n => Ok n
                   | None => Raise IndexError
                   end
               | None => Raise AttributeError
               end ;;
  x <- np_div x (normalise x) ;;
  let cp := map (fun v => Fin (Qabs v)) x in
  ind <- select target_num cp [] ;;
  let l := Qabs (nth (last ind 0%nat) x 0) in
  Ok (zero_below l x).

End ProxOps.

(** ** parsimony/functions/penalties.py: [L2] *)

Module PenaltiesL2.

Record L2 : Type := mkL2 {
  l2_l : Q;               (* [self.l] *)
  l2_c : Q;               (* [self.c] *)
  l2_penalty_start : nat  (* [self.penalty_start] *)
}.

(** [beta[self.penalty_start:, :]]. *)
Definition l2_penalised (self : L2) (beta : vec) : vec :=
  if (0 <? l2_penalty_start self)%nat
  then skipn (l2_penalty_start self) beta
  else beta.

(** [L2.f(self, beta)]; [np.dot(beta_.T, beta_)[0, 0]] is the sum of the
    squares. *)
Definition L2_f (self : L2) (beta : vec) : Q :=
  l2_l self * (sumsq (l2_penalised self beta) - l2_c self).

(** [L2.grad(self, beta)]. *)
Definition L2_grad (self : L2) (beta : vec) : vec :=
  zeros (l2_penalty_start self)
  ++ vscale (2 * l2_l self) (l2_penalised self beta).

(** [L2.prox(self, beta, factor=1.0)]; [beta_ / (1.0 + 2.0 * l)] is the
    division of an array by a number, which gives no number when the
    divisor is zero. *)
Definition L2_prox (self : L2) (beta : vec) (factor : Q) : result vec :=
  let l := l2_l self * factor in
  scaled <- ProxOps.np_div (l2_penalised self beta) (1 + 2 * l) ;;
  Ok (firstn (l2_penalty_start self) beta ++ scaled).


Section Proj.

Variable sqrt : Q -> Q.


End Proj.

End PenaltiesL2.

(** ** multiblock/prox_ops.py: [L1_binsearch] *)

Module L1_binsearch.

(** The local variables of the search loop of [L1_binsearch.prox]. *)
Record bracket : Type := mkBracket {
  minl : Q;
  maxl : Q;
  midv : Q
}.

Section Prox.

(** [TOLERANCE], [MAX_ITER] and [norm] of multiblock/utils.py, which is not
    part of the sources. *)
Variable TOLERANCE : Q.
Variable MAX_ITER : nat.
Variable sqrt : Q -> Q.

(** [while abs(s - midv) >= TOLERANCE and it <= MAX_ITER], where [it]
    counts the passes from 0: [rem] is the number of values of [it] that
    are left, [MAX_ITER + 1] at the start.  [op] is [L1(1)] with
    [op.parameter[0] = midl]. *)
Fixpoint search (fuel : nat) (s : Q) (x : vec) (rem : nat) (b : bracket)
  : result bracket :=
  match rem with
  | O => Ok b
  | S rem' =>
      if Qleb TOLERANCE (Qabs (s - midv b))
      then
        let midl := (maxl b + minl b) / 2 in
        r <- ProxOps.L1_prox TOLERANCE sqrt fuel (ProxOps.mk [midl]) x
               (Some 0%nat) true ;;
        let midv := norm1 (fst r) in
        search fuel s x rem'
          (if Qltb midv s
           then {| minl := minl b; maxl := midl; midv := midv |}
           else if Qltb s midv
                then {| minl := midl; maxl := maxl b; midv := midv |}
                else {| minl := minl b; maxl := maxl b; midv := midv |})
      else Ok b
  end.

(** [L1_binsearch.prox(self, x, index, normaliser=None)]: the returned
    array and the numbers of the warning of the last [op.prox], if any.
    [ProxOp] of this module sets no [self.normaliser], so a call without
    [normaliser] is an [AttributeError]. *)
Definition prox (fuel : nat) (self : ProxOps.t Q) (x : vec) (index : nat)
  (normaliser : option (list (vec -> Q))) : result (vec * option (Q * Q)) :=
  s <- match nth_error (ProxOps.parameter self) index with
       | Some s => Ok s
       | None => Raise IndexError
       end ;;
  normalise <- match normaliser with
               | Some ns =>
                   match nth_error ns index with
                   | Some n => Ok n
                   | None => Raise IndexError
                   end
               | None => Raise AttributeError
               end ;;
  if Qltb s (norm1 x)
  then
    x <- ProxOps.np_div x (normalise x) ;;
    maxl0 <- py_max (vabs x) ;;
    b <- search fuel s x (S MAX_ITER)
           {| minl := 0; maxl := maxl0; midv := norm1 x |} ;;
    ProxOps.L1_prox TOLERANCE sqrt fuel
      (ProxOps.mk [(maxl b + minl b) / 2]) x (Some 0%nat) false
  else Ok (x, None).

End Prox.

End L1_binsearch.

(** ** parsimony/functions/penalties.py: [SufficientDescentCondition] *)

Module SufficientDescentCondition.

(** [self.function], of which [f] and [grad] are used, [self.p] and
    [self.c]. *)
Record t : Type := mk {
  function_f : vec -> Q;
  function_grad : vec -> vec;
  p : vec;
  c : Q
}.

(** [SufficientDescentCondition.f(self, x, a)]. *)
Definition f (self : t) (x : vec) (a : Q) : Q :=
  function_f self (vadd x (vscale a (p self))).

(** [SufficientDescentCondition.feasible(self, xa)];
    [np.dot(u.T, v)[0, 0]] is the sum of the products of the entries. *)
Definition feasible (self : t) (xa : vec * Q) : bool :=
  let x := fst xa in
  let a := snd xa in
  let f_x_ap := function_f self (vadd x (vscale a (p self))) in
  let f_x := function_f self x in
  let grad_p := vsum (vmul (function_grad self x) (p self)) in
  Qleb f_x_ap (f_x + c self * a * grad_p).

End SufficientDescentCondition.

(** ** parsimony/functions/nesterov: [NesterovFunction] and
    [GroupLassoOverlap] *)

Module GroupLassoOverlap.

(** [self.l], [self.c], [self._A] and [self.mu]; the linear operator is a
    list of matrices, one per group, each a list of rows. *)
Record t : Type := mk {
  l : Q;
  c : Q;
  A : list (list vec);
  mu : Q
}.

(** [Ag.dot(beta)]. *)
Definition dot (Ag : list vec) (beta : vec) : vec :=
  map (fun row => vsum (vmul row beta)) Ag.


(** [GroupLassoOverlap.M(self)]: [float(len(self.A())) / 2.0]. *)
Definition M (self : t) : Q := inject_Z (Z.of_nat (length (A self))) / 2.

Section Sqrt.

Variable sqrt : Q -> Q.

(** [GroupLassoOverlap.project(self, a)]: a block of norm above 1 is
    divided by its norm. *)
Definition project (a : list vec) : list vec :=
  map (fun astar =>
         let normas := sqrt (sumsq astar) in
         if Qltb 1 normas then ProxOps.scaled astar normas else astar) a.

(** [alpha[i] = A[i].dot(beta) / mu] for every [i]. *)
Fixpoint blocks (As : list (list vec)) (beta : vec) (mu0 : Q)
  : result (list vec) :=
  match As with
  | [] => Ok []
  | Ag :: As' =>
      a <- ProxOps.np_div (dot Ag beta) mu0 ;;
      r <- blocks As' beta mu0 ;;
      Ok (a :: r)
  end.

(** [NesterovFunction.alpha(self, beta)]. *)
Definition alpha (self : t) (beta : vec) : result (list vec) :=
  a <- blocks (A self) beta (mu self) ;;
  Ok (project a).

End Sqrt.

End GroupLassoOverlap.

(** ** parsimony/functions/objectives/functions.py: [RR_L1_TV] *)

Module RR_L1_TV.

(** The smoothed penalty [self.tv].  Modelled from the spec:
    parsimony/functions/nesterov/tv.py is not part of the sources;
    [TotalVariation] is a [NesterovFunction] of nesterov/interfaces.py, with
    its fields [l] and [mu], and "M" and the Lipschitz bound "L()" of the
    Nesterov smoothing layer are what its [M()] returns and what its [L()]
    returns for the [mu] it holds. *)
Record nesterov : Type := mkNesterov {
  l : Q;
  mu : Q;
  M : Q;
  L : Q -> Q
}.

(** [NesterovFunction.get_mu] and [NesterovFunction.set_mu], which returns
    the constant it overwrites. *)
Definition get_mu (self : nesterov) : Q := mu self.

Definition set_mu (self : nesterov) (m : Q) : Q * nesterov :=
  (get_mu self, {| l := l self; mu := m; M := M self; L := L self |}).

(** [self.tv], and what [self.rr.L()] returns (parsimony/functions/losses.py
    is not part of the sources). *)
Record t : Type := mk {
  tv : nesterov;
  rr_L : Q
}.

(** A quotient of floats; a zero divisor gives no number (an exception for
    Python's floats, a value that is not finite for numpy's). *)
Definition quotient (a b : Q) : result Q :=
  if Qeq_bool b 0 then Raise NonFinite else Ok (a / b).

Section Sqrt.

Variable sqrt : Q -> Q.

(** [np.sqrt]: not a number below zero. *)
Definition np_sqrt (a : Q) : result Q :=
  if Qltb a 0 then Raise NonFinite else Ok (sqrt a).

(** [RR_L1_TV.mu_opt(self, eps)]: the value and the object as the call
    leaves it. *)
Definition mu_opt (self : t) (eps : Q) : result (Q * t) :=
  let gM := l (tv self) * M (tv self) in
  let '(old_mu, tv1) := set_mu (tv self) 1 in
  let gA2 := L tv1 (mu tv1) in
  let '(_, tv2) := set_mu tv1 old_mu in
  let Lg := rr_L self in
  s <- np_sqrt ((gM * gA2) * (gM * gA2) + gM * Lg * gA2 * eps) ;;
  r <- quotient (- gM * gA2 + s) (gM * Lg) ;;
  Ok (r, {| tv := tv2; rr_L := rr_L self |}).

End Sqrt.

(** [RR_L1_TV.eps_opt(self, mu)]. *)
Definition eps_opt (self : t) (mu0 : Q) : result (Q * t) :=
  let gM := l (tv self) * M (tv self) in
  let '(old_mu, tv1) := set_mu (tv self) 1 in
  let gA2 := L tv1 (mu tv1) in
  let '(_, tv2) := set_mu tv1 old_mu in
  let Lg := rr_L self in
  r <- quotient (2 * gM * gA2 * mu0 + gM * Lg * (mu0 * mu0)) gA2 ;;
  Ok (r, {| tv := tv2; rr_L := rr_L self |}).

(** [RR_L1_TV.eps_max(self, mu)]. *)
Definition eps_max (self : t) (mu0 : Q) : Q :=
  let gM := l (tv self) * M (tv self) in
  mu0 * gM.

End RR_L1_TV.

(** ** Definitions that follow the specification's wording *)

Module Spec.

(** "x'_i = sign(x_i) * max(|x_i| - threshold, 0)". *)
Definition soft_threshold (t : Q) (x : Q) : Q :=
  sign x * Qmax (Qabs x - t) 0.

(** "z = beta_i + ((i-2)/(i+1)) * (beta_i - beta_{i-1})". *)
Definition fista_z (i : nat) (b bprev : vec) : vec :=
  vadd b (vscale ((inject_Z (Z.of_nat i) - 2) / (inject_Z (Z.of_nat i) + 1))
            (vsub b bprev)).

(** "beta_{i+1} = prox_step(z - step * grad(z), step)". *)
Definition fista_next (function : Function.t) (step : Q) (z : vec) : vec :=
  Function.prox function
    (vsub z (vscale step (Function.grad function z))) step.

(** The pair (beta_{n+1}, beta_n) after [n] iterations from the start
    vector [beta] (beta_1 = beta_0 = beta). *)
Fixpoint fista_iterates (function : Function.t) (step : Q) (beta : vec)
  (n : nat) : vec * vec :=
  match n with
  | O => (beta, beta)
  | S n' =>
      let '(b, bprev) := fista_iterates function step beta n' in
      (fista_next function step (fista_z (S n') b bprev), b)
  end.

(** "(1/step) * ||beta_{i+1} - z|| < eps and i >= min_iter", at
    iteration [i]. *)
Definition fista_stop (sqrt : Q -> Q) (function : Function.t)
  (step eps : Q) (min_iter : nat) (beta : vec) (i : nat) : Prop :=
  match i with
  | O => False
  | S n' =>
      let '(b, bprev) := fista_iterates function step beta n' in
      let z := fista_z i b bprev in
      (1 / step) * norm sqrt (vsub (fista_next function step z) z) < eps
      /\ (min_iter <= i)%nat
  end.

(** "Step size defaults to 1/L()". *)
Definition fista_step (step : option Q) (function : Function.t) : Q :=
  match step with
  | Some s => s
  | None => 1 / Function.L function
  end.

(** The values of [f] at the iterates of iterations [k+1 .. n], which the
    output of the solver lists when it is asked for. *)
Definition recorded (function : Function.t) (stp : Q) (beta : vec)
  (out : bool) (k n : nat) : list Q :=
  if out
  then map (fun j => Function.f function
                       (fst (fista_iterates function stp beta j)))
           (seq (S k) (n - k))
  else [].

(** "mu_0 = 2 * L", "tau = 2/(k+3)", "mu_{k+1} = (1 - tau) * mu_k". *)
Fixpoint egm_mu (L : Q) (k : nat) : Q :=
  match k with
  | O => 2 * L
  | S k' => (1 - 2 / (inject_Z (Z.of_nat k') + 3)) * egm_mu L k'
  end.

(** "ulim = mu_{k+1} * M(h) < eps, or k >= max_iter", at iteration [k];
    [M] is given the constant the smoothed part holds at that time. *)
Definition egm_stop (L : Q) (M : Q -> Q) (eps : Q) (max_iter : nat)
  (k : nat) : Prop :=
  egm_mu L (S k) * M (egm_mu L k) < eps \/ (max_iter <= k)%nat.

(** "the threshold is iteratively shrunk by 5%": after [n] retries. *)
Definition shrunk (l : Q) (n : nat) : Q :=
  Nat.iter n (fun t => t * (95 # 100)) l.

(** The number of entries of an array that satisfy a test. *)
Definition count (test : Q -> bool) (v : vec) : nat :=
  length (filter test v).

(** "nonzero entries". *)
Definition nonzero (v : Q) : bool := negb (Qeq_bool v 0).

End Spec.

(** ** Concrete inputs *)

Module Examples.

(** An increasing function with its only root at 1/2, steep below it. *)
Definition kink (x : Q) : Q :=
  if Qltb x (1 # 2) then 100 * (x - (1 # 2)) else x - (1 # 2).

(** Half the squared norm, with 2 as bound on the Lipschitz constant of
    its gradient and no non-smooth part. *)
Definition quadratic : Function.t :=
  {| Function.f := fun b => (1 # 2) * sumsq b;
     Function.grad := fun b => b;
     Function.L := 2;
     Function.prox := fun b _ => b |}.

Definition clip (x : Q) : Q := Qmax (-(1)) (Qmin 1 x).

(** A one-dimensional smoothed objective, b^2/2 + |b - 1| with the absolute
    value smoothed: the gradient of the smoothed part is (b - 1)/mu clipped
    to [-1, 1].  The duality gap is the constant [g]. *)
Definition smoothed (g : Q) : NesterovFunction.t :=
  {| NesterovFunction.f :=
       fun mu b => (1 # 2) * sumsq b + norm1 (map (fun x => x - 1) b);
     NesterovFunction.grad :=
       fun mu b => map (fun x => x + clip ((x - 1) / mu)) b;
     NesterovFunction.L := fun mu => 2 * (1 + 1 / mu);
     NesterovFunction.prox := fun mu b t => b;
     NesterovFunction.estimate_mu := fun mu b => 1;
     NesterovFunction.eps_max := fun _ mu => mu;
     NesterovFunction.eps_opt := fun _ mu => mu;
     NesterovFunction.mu_opt := fun _ eps => (4 # 5) * eps;
     NesterovFunction.gap := fun mu b => g |}.

(** [CONESTA(mu_start=1.0, mu_min=1.0, continuations=3, eps=0.5,
    max_iter=1)], with TOLERANCE = 1/100. *)
Definition conesta0 : CONESTA.t :=
  CONESTA.init (1 # 100) 10 (Some 1) (Some 1) None None (Some 3%nat)
    (Some false) (Some (1 # 2)) (Some 1%nat) None.

Definition x4 : vec := [3; -(4); 1; 4].

Definition x2 : vec := [3; -(4)].

(** [FISTA(step=None, output=True, eps=0.01, max_iter=5, min_iter=2)]. *)
Definition fista0 : FISTA.t := FISTA.mk None true (1 # 100) 5 2.

(** The same objective as [quadratic] with a larger Lipschitz bound. *)
Definition quadratic4 : Function.t :=
  {| Function.f := fun b => (1 # 2) * sumsq b;
     Function.grad := fun b => b;
     Function.L := 4;
     Function.prox := fun b _ => b |}.

(** An objective for the excessive gap method with two dual blocks, of
    two rows and of one row. *)
Definition egm_toy : ExcessiveGapMethod.function :=
  {| ExcessiveGapMethod.A_rows := [2; 1]%nat;
     ExcessiveGapMethod.L := fun _ => 3;
     ExcessiveGapMethod.f := fun _ b => sumsq b;
     ExcessiveGapMethod.h_alpha := fun _ b => [[1; 0]; [1 # 2]];
     ExcessiveGapMethod.h_M := fun _ => 1;
     ExcessiveGapMethod.betahat := fun _ u => map vsum u;
     ExcessiveGapMethod.V := fun _ u _ _ => u |}.

(** [StaticCONESTA(mu_start=1.0, mu_min=1.0, continuations=3, eps=0.5,
    max_iter=1)], with TOLERANCE = 1/100. *)
Definition conesta_static : CONESTA.t :=
  CONESTA.init (1 # 100) 10 (Some 1) (Some 1) None (Some false)
    (Some 3%nat) (Some false) (Some (1 # 2)) (Some 1%nat) None.

(** [L1(l=0.5, c=0.0, penalty_start=1)] and
    [L2(l=0.5, c=1.0, penalty_start=1)]. *)
Definition l1_pen : Penalties.L1 := Penalties.mkL1 (1 # 2) 0 1.
Definition l2_pen : PenaltiesL2.L2 := PenaltiesL2.mkL2 (1 # 2) 1 1.

(** An integer square root, which is monotone, for evaluation. *)
Definition sqrt_floor (q : Q) : Q := inject_Z (Z.sqrt (Qfloor q)).

Definition y4 : vec := [1; 1; -(2); 0].

(** A normaliser that is constant. *)
Definition one : vec -> Q := fun _ => 1.

(** [RR_L1_TV] with [tv.l = 1], [tv.mu = 0.5], [tv.M() = 1],
    [tv.L() = 2 / mu] and [rr.L() = 1]. *)
Definition tv_toy : RR_L1_TV.t :=
  RR_L1_TV.mk (RR_L1_TV.mkNesterov 1 (1 # 2) 1 (fun mu => 2 / mu)) 1.

Definition b3 : vec := [7; 3; -(4)].
Definition h3 : vec := [1; 1; 2].

End Examples.

(** ** Loop invariants *)

Module Inv.

(** The top-k selection of [L0_by_count.prox]: an entry of [cp] is the
    magnitude of the entry of [x] at its place, and then at most the bound,
    or it is masked, and then the entry of [x] is at least the bound.
    Before the first selection there is no bound and no masked entry. *)
Definition sel (b : option Q) (v : Q) (c : ProxOps.ext) : Prop :=
  (c = ProxOps.Fin (Qabs v)
   /\ match b with Some m => Qabs v <= m | None => True end)
  \/ (c = ProxOps.MInf
      /\ match b with Some m => m <= Qabs v | None => False end).

(** The number of masked entries. *)
Fixpoint masked (cp : list ProxOps.ext) : nat :=
  match cp with
  | [] => 0%nat
  | ProxOps.MInf :: cp' => S (masked cp')
  | ProxOps.Fin _ :: cp' => masked cp'
  end.

(** [a <= b] on entries of [cp]. *)
Definition ext_le (a b : ProxOps.ext) : Prop := ProxOps.ext_ltb b a = false.

(** The excessive gap method, at the head of every iteration: [mu] lists
    mu_0 .. mu_k, and there is one dual block per operator. *)
Definition egm (fn : ExcessiveGapMethod.function) (Lc : Q)
  (st : ExcessiveGapMethod.state) : Prop :=
  ExcessiveGapMethod.mu st
  = map (Spec.egm_mu Lc) (seq 0 (S (ExcessiveGapMethod.k st)))
  /\ length (ExcessiveGapMethod.u st)
     = length (ExcessiveGapMethod.A_rows fn)
  /\ length (ExcessiveGapMethod.alpha st)
     = length (ExcessiveGapMethod.A_rows fn).

(** A list of numbers that never increases. *)
Fixpoint descending (l : list Q) : Prop :=
  match l with
  | a :: (b :: _) as t => b <= a /\ descending t
  | _ => True
  end.

(** The inner product of two vectors of one shape. *)
Definition dot (u v : vec) : Q := vsum (vmul u v).

End Inv.

(** * Part II: verification *)

Section Scalars.

Lemma Qltb_lt (x y : Q) : Qltb x y = true <-> x < y.
Proof.
  unfold Qltb. rewrite negb_true_iff.
  split; intro H.
  - apply Qnot_le_lt. intro Hle. apply Qle_bool_iff in Hle. congruence.
  - destruct (Qle_bool y x) eqn:E; [|reflexivity].
    apply Qle_bool_iff in E. lra.
Qed.

Lemma Qltb_ge (x y : Q) : Qltb x y = false <-> y <= x.
Proof.
  unfold Qltb. rewrite negb_false_iff. apply Qle_bool_iff.
Qed.

Lemma Qleb_le (x y : Q) : Qleb x y = true <-> x <= y.
Proof. apply Qle_bool_iff. Qed.

Lemma Qleb_gt (x y : Q) : Qleb x y = false <-> y < x.
Proof.
  unfold Qleb. split; intro H.
  - apply Qnot_le_lt. intro Hle. apply Qle_bool_iff in Hle. congruence.
  - destruct (Qle_bool x y) eqn:E; [|reflexivity].
    apply Qle_bool_iff in E. lra.
Qed.

End Scalars.

Section Penalties_L1.

Import Penalties.

Lemma penalised_skipn (self : L1) (beta : vec) :
  penalised self beta = skipn (penalty_start self) beta.
Proof.
  unfold penalised. destruct (penalty_start self); reflexivity.
Qed.

Lemma sign_pos (x : Q) : 0 < x -> sign x = 1.
Proof.
  intro H. unfold sign. apply Qltb_lt in H. now rewrite H.
Qed.

Lemma sign_neg (x : Q) : x < 0 -> sign x = -(1).
Proof.
  intro H. unfold sign.
  assert (H0 : Qltb 0 x = false) by (apply Qltb_ge; lra).
  apply Qltb_lt in H. now rewrite H0, H.
Qed.

Lemma sign_zero (x : Q) : x == 0 -> sign x = 0.
Proof.
  intro H. unfold sign.
  assert (H0 : Qltb 0 x = false) by (apply Qltb_ge; lra).
  assert (H1 : Qltb x 0 = false) by (apply Qltb_ge; lra).
  now rewrite H0, H1.
Qed.

(** The masked expression of the source is the soft threshold. *)
Lemma shrink_soft_threshold (t b : Q) :
  0 <= t -> shrink t b == Spec.soft_threshold t b.
Proof.
  intro Ht. unfold shrink, Spec.soft_threshold.
  destruct (Q.max_spec (Qabs b - t) 0) as [[Hm Hmax] | [Hm Hmax]];
    rewrite Hmax; clear Hmax.
  - assert (Hle : Qltb t (Qabs b) = false) by (apply Qltb_ge; lra).
    rewrite Hle. ring.
  - destruct (Qlt_le_dec t (Qabs b)) as [Hlt | Hge].
    + assert (Hb : Qltb t (Qabs b) = true) by (now apply Qltb_lt).
      rewrite Hb. revert Hlt Hm. apply Qabs_case; intros Hs Hlt Hm.
      * rewrite (sign_pos (b - t)) by lra. rewrite (sign_pos b) by lra. ring.
      * rewrite (sign_neg (b - t)) by lra. rewrite (sign_neg b) by lra. ring.
    + assert (Hb : Qltb t (Qabs b) = false) by (now apply Qltb_ge).
      rewrite Hb. assert (He : Qabs b - t == 0) by lra.
      rewrite He. ring.
Qed.

(** C4.  For a non-negative effective threshold [l * factor], the L1
    proximal operator leaves the entries before [penalty_start] untouched
    and returns on every penalised entry exactly
    [sign(x_i) * max(|x_i| - l * factor, 0)]. *)
Theorem L1_prox_soft_threshold (self : L1) (beta : vec) (factor : Q) :
  0 <= l self * factor ->
  firstn (penalty_start self) (L1_prox self beta factor)
  = firstn (penalty_start self) beta
  /\ Forall2 Qeq
       (skipn (penalty_start self) (L1_prox self beta factor))
       (map (Spec.soft_threshold (l self * factor))
            (skipn (penalty_start self) beta)).
Proof.
  intro Ht. unfold L1_prox. rewrite penalised_skipn.
  set (ps := penalty_start self).
  set (t := l self * factor) in *.
  destruct (Nat.le_gt_cases ps (length beta)) as [Hle | Hgt].
  - assert (Hlen : length (firstn ps beta) = ps)
      by (apply firstn_length_le; exact Hle).
    split.
    + rewrite firstn_app, Hlen, Nat.sub_diag. simpl.
      rewrite app_nil_r. apply firstn_all2. lia.
    + rewrite skipn_app, Hlen, Nat.sub_diag. simpl.
      rewrite skipn_all2 by lia. simpl.
      induction (skipn ps beta) as [| b r IH]; simpl; constructor.
      * now apply shrink_soft_threshold.
      * exact IH.
  - rewrite (skipn_all2 beta) by lia. simpl. rewrite app_nil_r.
    rewrite (firstn_all2 beta) by lia. split.
    + apply firstn_all2. lia.
    + rewrite skipn_all2 by lia. constructor.
Qed.

Lemma L1_prox_soft_threshold_witness :
  firstn 1 (L1_prox (mkL1 2 0 1) [5; 3; -(7); 1] (1 # 2))
  = firstn 1 [5; 3; -(7); 1]
  /\ Forall2 Qeq
       (skipn 1 (L1_prox (mkL1 2 0 1) [5; 3; -(7); 1] (1 # 2)))
       (map (Spec.soft_threshold (2 * (1 # 2))) (skipn 1 [5; 3; -(7); 1])).
Proof.
  apply (L1_prox_soft_threshold (mkL1 2 0 1) [5; 3; -(7); 1] (1 # 2)).
  simpl. lra.
Defined.

Lemma Bisection_init_force_negative (TOLERANCE : Q) (v w : Bisection.pyval) :
  Bisection.init TOLERANCE [("force_negative", v); ("eps", w)]%string
  = Raise TypeError.
Proof. reflexivity. Qed.

(** C10.  When the penalised part of [beta] is infeasible for the L1
    constraint, [L1.proj] raises (the [TypeError] of constructing
    [Bisection] with the keyword [force_negative]) instead of returning a
    projection; a feasible [beta] is returned unchanged. *)
Theorem L1_proj_infeasible_raises
  (TOLERANCE : Q) (sqrt : Q -> Q) (self : L1) (beta : vec) :
  (c self < norm1 (skipn (penalty_start self) beta) ->
   L1_proj TOLERANCE sqrt self beta = Raise TypeError)
  /\ (norm1 (skipn (penalty_start self) beta) <= c self ->
      L1_proj TOLERANCE sqrt self beta = Ok beta).
Proof.
  unfold L1_proj, L1_feasible. rewrite penalised_skipn. split; intro H.
  - apply Qleb_gt in H. rewrite H.
    rewrite Bisection_init_force_negative. reflexivity.
  - apply Qleb_le in H. rewrite H. reflexivity.
Qed.

Lemma L1_proj_infeasible_raises_witness :
  L1_proj (1 # 20000000) sqrt_exact (mkL1 1 1 1) [9; 2; -(3)] = Raise TypeError
  /\ L1_proj (1 # 20000000) sqrt_exact (mkL1 1 1 1) [9; 1 # 2; -(1 # 4)]
     = Ok [9; 1 # 2; -(1 # 4)].
Proof.
  split.
  - apply (L1_proj_infeasible_raises (1 # 20000000) sqrt_exact
             (mkL1 1 1 1) [9; 2; -(3)]).
    vm_compute. reflexivity.
  - apply (L1_proj_infeasible_raises (1 # 20000000) sqrt_exact
             (mkL1 1 1 1) [9; 1 # 2; -(1 # 4)]).
    vm_compute. intro H. discriminate H.
Defined.

End Penalties_L1.

Section Bisection_facts.

(** C5.  On the increasing function [kink], with the bracket [0, 1] and
    eps = 1/10, the first midpoint 1/2 is an exact root, yet the bisection
    loop goes on until the bracket is narrower than eps and the solver
    returns 15/32, where the function has magnitude 25/8 > eps. *)
Theorem Bisection_ignores_function_value :
  Examples.kink ((0 + 1) / 2) == 0
  /\ exists r,
       Bisection.call sqrt_exact (Bisection.mk (1 # 10) 50 1)
         Examples.kink (Some [0; 1]) = Ok r
       /\ r == 15 # 32
       /\ 1 # 10 < Qabs (Examples.kink r).
Proof.
  split; [reflexivity|].
  eexists. split; [vm_compute; reflexivity|].
  split; reflexivity.
Qed.

End Bisection_facts.

Section FISTA_facts.

Variable sqrt : Q -> Q.

Lemma py_div_ok (a b : Q) : ~ b == 0 -> py_div a b = Ok (a / b).
Proof.
  intro H. unfold py_div.
  destruct (Qeq_bool b 0) eqn:E; [|reflexivity].
  apply Qeq_bool_iff in E. contradiction.
Qed.

Lemma py_div_zero (a b : Q) : b == 0 -> py_div a b = Raise ZeroDivisionError.
Proof.
  intro H. unfold py_div. apply Qeq_bool_iff in H. now rewrite H.
Qed.

Lemma FISTA_loop_spec (self : FISTA.t) (stp : Q) (function : Function.t)
  (beta : vec) :
  ~ stp == 0 ->
  forall (m k : nat) (fs : list Q),
  exists n : nat,
    FISTA.loop sqrt self stp function (seq (S k) m)
      (fst (Spec.fista_iterates function stp beta k))
      (snd (Spec.fista_iterates function stp beta k)) fs
    = Ok (fst (Spec.fista_iterates function stp beta n),
          fs ++ Spec.recorded function stp beta (FISTA.output self) k n)
    /\ (k <= n <= k + m)%nat
    /\ (forall i, (k < i < n)%nat ->
          ~ Spec.fista_stop sqrt function stp (FISTA.eps self)
              (FISTA.min_iter self) beta i)
    /\ ((n < k + m)%nat ->
          (k < n)%nat /\
          Spec.fista_stop sqrt function stp (FISTA.eps self)
            (FISTA.min_iter self) beta n).
Proof.
  intros Hstp m. induction m as [| m IH]; intros k fs.
  - exists k. simpl. unfold Spec.recorded. rewrite Nat.sub_diag. simpl.
    destruct (FISTA.output self); rewrite app_nil_r.
    all: repeat split; try lia.
  - cbn [seq FISTA.loop].
    rewrite (py_div_ok 1 stp Hstp). cbn [bind].
    pose proof (IH (S k)) as IHk.
    assert (Hstep : Spec.fista_iterates function stp beta (S k)
                    = (Spec.fista_next function stp
                         (Spec.fista_z (S k)
                            (fst (Spec.fista_iterates function stp beta k))
                            (snd (Spec.fista_iterates function stp beta k))),
                       fst (Spec.fista_iterates function stp beta k))).
    { cbn [Spec.fista_iterates].
      destruct (Spec.fista_iterates function stp beta k); reflexivity. }
    assert (Hstop : Spec.fista_stop sqrt function stp (FISTA.eps self)
                      (FISTA.min_iter self) beta (S k)
                    <-> (1 / stp) * norm sqrt
                          (vsub (Spec.fista_next function stp
                             (Spec.fista_z (S k)
                               (fst (Spec.fista_iterates function stp beta k))
                               (snd (Spec.fista_iterates function stp beta k))))
                             (Spec.fista_z (S k)
                               (fst (Spec.fista_iterates function stp beta k))
                               (snd (Spec.fista_iterates function stp beta k))))
                        < FISTA.eps self
                        /\ (FISTA.min_iter self <= S k)%nat).
    { cbn [Spec.fista_stop].
      destruct (Spec.fista_iterates function stp beta k); reflexivity. }
    change (vadd (fst (Spec.fista_iterates function stp beta k))
              (vscale (FISTA.momentum (S k))
                 (vsub (fst (Spec.fista_iterates function stp beta k))
                    (snd (Spec.fista_iterates function stp beta k)))))
      with (Spec.fista_z (S k)
              (fst (Spec.fista_iterates function stp beta k))
              (snd (Spec.fista_iterates function stp beta k))) in *.
    set (z := Spec.fista_z (S k)
              (fst (Spec.fista_iterates function stp beta k))
              (snd (Spec.fista_iterates function stp beta k))) in *.
    change (Function.prox function
              (vsub z (vscale stp (Function.grad function z))) stp)
      with (Spec.fista_next function stp z) in *.
    set (b' := Spec.fista_next function stp z) in *.
    set (fs1 := if FISTA.output self then fs ++ [Function.f function b']
                else fs).
    assert (Hfs1 : forall n, (S k <= n)%nat ->
              fs1 ++ Spec.recorded function stp beta (FISTA.output self) (S k) n
              = fs ++ Spec.recorded function stp beta (FISTA.output self) k n).
    { intros n Hn. unfold fs1, Spec.recorded.
      destruct (FISTA.output self); [|reflexivity].
      replace (n - k)%nat with (S (n - S k)) by lia.
      cbn [seq map]. rewrite Hstep. cbn [fst].
      rewrite <- app_assoc. reflexivity. }
    destruct (Qltb (1 / stp * norm sqrt (vsub b' z)) (FISTA.eps self)
              && (FISTA.min_iter self <=? S k)%nat) eqn:Etest.
    + exists (S k). rewrite Hstep. cbn [fst].
      apply andb_prop in Etest. destruct Etest as [E1 E2].
      apply Qltb_lt in E1. apply Nat.leb_le in E2.
      split.
      * f_equal. f_equal. rewrite <- (Hfs1 (S k)) by lia.
        unfold Spec.recorded. rewrite Nat.sub_diag.
        destruct (FISTA.output self); simpl; now rewrite app_nil_r.
      * split; [lia|]. split; [intros i Hi; lia|].
        intros _. split; [lia|]. apply Hstop. split; assumption.
    + destruct (IHk fs1) as [n [Hloop [Hrange [Hnot Hbrk]]]].
      rewrite Hstep in Hloop. cbn [fst snd] in Hloop.
      exists n. split.
      * rewrite Hloop. f_equal. f_equal. apply Hfs1. lia.
      * split; [lia|]. split.
        -- intros i Hi. destruct (Nat.eq_dec i (S k)) as [-> | Hne].
           ++ intro Hs. apply Hstop in Hs. destruct Hs as [Hs1 Hs2].
              apply Qltb_lt in Hs1. apply Nat.leb_le in Hs2.
              rewrite Hs1, Hs2 in Etest. discriminate.
           ++ apply Hnot. lia.
        -- intro Hlt. destruct Hbrk as [H1 H2]; [lia|]. split; [lia|exact H2].
Qed.

(** Without a step and with a zero Lipschitz bound the call raises, before
    any iteration. *)
Lemma FISTA_call_zero_L (self : FISTA.t) (function : Function.t)
  (beta : vec) :
  FISTA.step self = None -> Function.L function == 0 ->
  FISTA.call sqrt self function beta = Raise ZeroDivisionError.
Proof.
  intros Hs HL. unfold FISTA.call. rewrite Hs.
  rewrite (py_div_zero 1 (Function.L function) HL). reflexivity.
Qed.

(** C1.  With a non-zero step (the given one, or 1/L() by default), a call
    of FISTA runs some number [n <= max_iter] of iterations of
    z = beta_i + ((i-2)/(i+1)) (beta_i - beta_{i-1}),
    beta_{i+1} = prox(z - step * grad(z), step), and returns beta_{n+1}
    without raising: no earlier iteration met the stopping test
    "(1/step) ||beta_{i+1} - z|| < eps and i >= min_iter", and the loop ended
    before [max_iter] only because iteration [n] met it. *)
Theorem FISTA_call_spec (self : FISTA.t) (function : Function.t)
  (beta : vec) :
  ~ Spec.fista_step (FISTA.step self) function == 0 ->
  exists n : nat,
    FISTA.call sqrt self function beta
    = Ok ((fst (Spec.fista_iterates function
                  (Spec.fista_step (FISTA.step self) function) beta n),
           if FISTA.output self
           then Some (Spec.recorded function
                        (Spec.fista_step (FISTA.step self) function) beta
                        true 0 n)
           else None),
          FISTA.set_step self
            (Some (Spec.fista_step (FISTA.step self) function)))
    /\ (n <= FISTA.max_iter self)%nat
    /\ (forall i, (0 < i < n)%nat ->
          ~ Spec.fista_stop sqrt function
              (Spec.fista_step (FISTA.step self) function)
              (FISTA.eps self) (FISTA.min_iter self) beta i)
    /\ ((n < FISTA.max_iter self)%nat ->
          (0 < n)%nat /\
          Spec.fista_stop sqrt function
            (Spec.fista_step (FISTA.step self) function)
            (FISTA.eps self) (FISTA.min_iter self) beta n).
Proof.
  intro Hstp.
  set (stp := Spec.fista_step (FISTA.step self) function) in *.
  destruct (FISTA_loop_spec (FISTA.set_step self (Some stp)) stp
              function beta Hstp (FISTA.max_iter self) 0%nat [])
    as [n [Hloop [Hrange [Hnot Hbrk]]]].
  exists n. cbn [Spec.fista_iterates fst snd] in Hloop.
  split.
  - unfold FISTA.call.
    assert (Hres : match FISTA.step self with
                   | Some s => Ok s
                   | None => py_div 1 (Function.L function)
                   end = Ok stp).
    { unfold stp, Spec.fista_step in *.
      destruct (FISTA.step self); [reflexivity|].
      apply py_div_ok. intro HL. apply Hstp. rewrite HL. reflexivity. }
    rewrite Hres. cbn [bind].
    change (FISTA.max_iter (FISTA.set_step self (Some stp)))
      with (FISTA.max_iter self).
    rewrite Hloop. cbn [bind].
    change (FISTA.output (FISTA.set_step self (Some stp)))
      with (FISTA.output self).
    unfold Spec.recorded. destruct (FISTA.output self); reflexivity.
  - split; [lia|]. split; [exact Hnot|]. intro Hlt. apply Hbrk. lia.
Qed.
End FISTA_facts.

Lemma FISTA_call_spec_witness :
  exists n : nat,
    FISTA.call sqrt_exact Examples.fista0 Examples.quadratic Examples.x2
    = Ok ((fst (Spec.fista_iterates Examples.quadratic
                  (Spec.fista_step None Examples.quadratic) Examples.x2 n),
           Some (Spec.recorded Examples.quadratic
                   (Spec.fista_step None Examples.quadratic) Examples.x2
                   true 0 n)),
          FISTA.set_step Examples.fista0
            (Some (Spec.fista_step None Examples.quadratic)))
    /\ (n <= 5)%nat
    /\ (forall i, (0 < i < n)%nat ->
          ~ Spec.fista_stop sqrt_exact Examples.quadratic
              (Spec.fista_step None Examples.quadratic)
              (1 # 100) 2 Examples.x2 i)
    /\ ((n < 5)%nat ->
          (0 < n)%nat /\
          Spec.fista_stop sqrt_exact Examples.quadratic
            (Spec.fista_step None Examples.quadratic)
            (1 # 100) 2 Examples.x2 n).
Proof.
  apply (FISTA_call_spec sqrt_exact Examples.fista0 Examples.quadratic
           Examples.x2).
  vm_compute. intro H. discriminate H.
Defined.

Section EGM_facts.

Import ExcessiveGapMethod.

Variable self : ExcessiveGapMethod.t.
Variable fn : ExcessiveGapMethod.function.
Variable hmu0 : muval.

Hypothesis alpha_blocks :
  forall m b, length (h_alpha fn m b) = length (A_rows fn).
Hypothesis V_blocks :
  forall m u b L, length u = length (A_rows fn) ->
                  length (V fn m u b L) = length (A_rows fn).

Local Abbreviation Lc := (L fn hmu0).
Local Abbreviation egm_stop :=
  (Spec.egm_stop Lc (fun m => h_M fn (MuFloat m)) (eps self) (max_iter self)).
Local Abbreviation egm_inv := (Inv.egm fn Lc).

Lemma blend_ok (tau : Q) (n : nat) :
  forall alpha alpha_hat u : list vec,
    length alpha = n -> length alpha_hat = n -> length u = n ->
    exists u', blend tau alpha alpha_hat u = Ok u' /\ length u' = n.
Proof.
  induction n as [| n IH]; intros alpha alpha_hat u Ha Hh Hu.
  - destruct alpha_hat; [|discriminate]. exists u. now split.
  - destruct alpha as [| a alpha]; [discriminate|].
    destruct alpha_hat as [| ah alpha_hat]; [discriminate|].
    destruct u as [| u0 u]; [discriminate|].
    injection Ha as Ha. injection Hh as Hh. injection Hu as Hu.
    destruct (IH alpha alpha_hat u Ha Hh Hu) as [u' [Hb Hl]].
    cbn [blend]. rewrite Hb. cbn [bind]. eexists. split; [reflexivity|].
    simpl. now rewrite Hl.
Qed.

Lemma nth_error_map_seq {A : Type} (g : nat -> A) (n j : nat) :
  (j < n)%nat -> nth_error (map g (seq 0 n)) j = Some (g j).
Proof.
  intro H. rewrite nth_error_map.
  rewrite (nth_error_nth' (seq 0 n) 0%nat) by (rewrite length_seq; exact H).
  rewrite seq_nth by exact H. reflexivity.
Qed.

Lemma EGM_iter_spec (st : state) :
  egm_inv st ->
  exists st', 
    iter self fn Lc st
    = Ok (if Qltb (Spec.egm_mu Lc (S (k st))
                   * h_M fn (MuFloat (Spec.egm_mu Lc (k st)))) (eps self)
             || (max_iter self <=? k st)%nat
          then (true, st') else (false, st'))
    /\ mu st' = map (Spec.egm_mu Lc) (seq 0 (S (S (k st))))
    /\ length (u st') = length (A_rows fn)
    /\ length (alpha st') = length (A_rows fn)
    /\ k st' = (if Qltb (Spec.egm_mu Lc (S (k st))
                   * h_M fn (MuFloat (Spec.egm_mu Lc (k st)))) (eps self)
             || (max_iter self <=? k st)%nat then k st else S (k st)).
Proof.
  intros [Hmu [Hu Ha]]. unfold iter.
  rewrite Hmu. rewrite nth_error_map_seq by lia. cbn [bind].
  destruct (blend_ok (tau_of (k st)) (length (A_rows fn)) (alpha st)
              (h_alpha fn (MuFloat (Spec.egm_mu Lc (k st))) (beta st)) (u st)
              Ha (alpha_blocks _ _) Hu) as [u' [Hb Hl]].
  rewrite Hb. cbn [bind].
  assert (Hmu' : map (Spec.egm_mu Lc) (seq 0 (S (k st)))
                 ++ [(1 - tau_of (k st)) * Spec.egm_mu Lc (k st)]
                 = map (Spec.egm_mu Lc) (seq 0 (S (S (k st))))).
  { rewrite (seq_S (S (k st))). rewrite map_app. reflexivity. }
  rewrite Hmu'. rewrite nth_error_map_seq by lia. cbn [bind].
  destruct (Qltb (Spec.egm_mu Lc (k st + 1)
                   * h_M fn (MuFloat (Spec.egm_mu Lc (k st)))) (eps self)
             || (max_iter self <=? k st)%nat) eqn:E;
    replace (k st + 1)%nat with (S (k st)) in E by lia; rewrite E.
  all: eexists; split; [reflexivity|]; cbn; repeat split; auto.
Qed.

Lemma EGM_loop_spec (fuel : nat) :
  forall st : state,
    egm_inv st -> (0 < fuel)%nat -> (max_iter self < k st + fuel)%nat ->
    exists st',
      loop fuel self fn Lc st = Ok st'
      /\ mu st' = map (Spec.egm_mu Lc) (seq 0 (S (S (k st'))))
      /\ (k st <= k st')%nat
      /\ egm_stop (k st')
      /\ (forall j, (k st <= j < k st')%nat -> ~ egm_stop j).
Proof.
  induction fuel as [| fuel IH]; intros st Hinv Hpos Hfuel; [lia|].
  destruct (EGM_iter_spec st Hinv) as [st1 [Hiter [Hmu [Hu [Ha Hk]]]]].
  cbn [loop]. rewrite Hiter.
  destruct (Qltb (Spec.egm_mu Lc (S (k st))
                   * h_M fn (MuFloat (Spec.egm_mu Lc (k st)))) (eps self)
             || (max_iter self <=? k st)%nat) eqn:E; cbn [bind].
  - exists st1. rewrite Hk. split; [reflexivity|].
    split; [rewrite <- Hk; rewrite Hmu, Hk; reflexivity|].
    split; [lia|]. split; [|intros j Hj; lia].
    unfold Spec.egm_stop. apply orb_prop in E. destruct E as [E | E].
    + left. now apply Qltb_lt.
    + right. now apply Nat.leb_le.
  - apply orb_false_iff in E. destruct E as [E1 E2].
    apply Qltb_ge in E1. apply Nat.leb_gt in E2.
    assert (Hinv1 : egm_inv st1).
    { unfold Inv.egm. rewrite Hk. auto. }
    destruct (IH st1 Hinv1) as [st' [Hloop [Hmu' [Hle [Hstop Hnot]]]]];
      [lia | lia |].
    exists st'. split; [exact Hloop|]. split; [exact Hmu'|].
    split; [lia|]. split; [exact Hstop|].
    intros j Hj. destruct (Nat.eq_dec j (k st)) as [-> | Hne].
    + unfold Spec.egm_stop. intros [H | H]; [lra | lia].
    + apply Hnot. lia.
Qed.

(** C6.  The excessive gap method starts from zero dual blocks and
    mu_0 = 2 L; a run ends without raising after some iteration [k], having
    built mu_0 .. mu_{k+1} with mu_{j+1} = (1 - 2/(j+3)) mu_j, and [k] is the
    first iteration at which mu_{k+1} M(h) < eps or k >= max_iter holds. *)
Theorem EGM_call_spec :
  u (start fn hmu0) = map zeros (A_rows fn)
  /\ mu (start fn hmu0) = [2 * Lc]
  /\ exists st : state,
       call self fn hmu0 = Ok st
       /\ mu st = map (Spec.egm_mu Lc) (seq 0 (k st + 2))
       /\ egm_stop (k st)
       /\ (forall j, (j < k st)%nat -> ~ egm_stop j).
Proof.
  split; [reflexivity|]. split; [reflexivity|].
  assert (Hinv : egm_inv (start fn hmu0)).
  { unfold Inv.egm, start. cbn. repeat split.
    - now rewrite length_map.
    - apply V_blocks. now rewrite length_map. }
  destruct (EGM_loop_spec (S (max_iter self)) (start fn hmu0) Hinv)
    as [st [Hloop [Hmu [_ [Hstop Hnot]]]]]; [lia | cbn; lia |].
  exists st. split; [exact Hloop|].
  split; [rewrite Hmu; f_equal; f_equal; lia|].
  split; [exact Hstop|]. intros j Hj. apply Hnot. cbn. lia.
Qed.

End EGM_facts.


Lemma EGM_call_spec_witness :
  ExcessiveGapMethod.u
    (ExcessiveGapMethod.start Examples.egm_toy (ExcessiveGapMethod.MuFloat 0))
  = map zeros (ExcessiveGapMethod.A_rows Examples.egm_toy)
  /\ ExcessiveGapMethod.mu
       (ExcessiveGapMethod.start Examples.egm_toy
          (ExcessiveGapMethod.MuFloat 0))
     = [2 * 3]
  /\ exists st : ExcessiveGapMethod.state,
       ExcessiveGapMethod.call (ExcessiveGapMethod.mk true (1 # 10) 100 1)
         Examples.egm_toy (ExcessiveGapMethod.MuFloat 0) = Ok st
       /\ ExcessiveGapMethod.mu st
          = map (Spec.egm_mu 3) (seq 0 (ExcessiveGapMethod.k st + 2))
       /\ Spec.egm_stop 3 (fun _ => 1) (1 # 10) 100
            (ExcessiveGapMethod.k st)
       /\ (forall j, (j < ExcessiveGapMethod.k st)%nat ->
            ~ Spec.egm_stop 3 (fun _ => 1) (1 # 10) 100 j).
Proof.
  apply (EGM_call_spec (ExcessiveGapMethod.mk true (1 # 10) 100 1)
           Examples.egm_toy (ExcessiveGapMethod.MuFloat 0)).
  - intros m b. reflexivity.
  - intros m u b L H. exact H.
Defined.

Lemma py_div_exn (a b : Q) (e : exn) :
  py_div a b = Raise e -> e = ZeroDivisionError.
Proof.
  unfold py_div. destruct (Qeq_bool b 0); [|discriminate].
  intro H. now injection H.
Qed.

Lemma FISTA_loop_exn (sqrt : Q -> Q) (self : FISTA.t) (stp : Q)
  (function : Function.t) (ix : list nat) :
  forall (betanew betaold : vec) (fs : list Q) (e : exn),
    FISTA.loop sqrt self stp function ix betanew betaold fs = Raise e ->
    e = ZeroDivisionError.
Proof.
  induction ix as [| i ix IH]; intros betanew betaold fs e H; [discriminate|].
  cbn [FISTA.loop] in H.
  destruct (py_div 1 stp) as [inv | e'] eqn:E; cbn [bind] in H.
  - match type of H with
    | (if ?c then _ else _) = _ => destruct c
    end; [discriminate|]. now apply IH in H.
  - injection H as <-. now apply py_div_exn in E.
Qed.

Lemma FISTA_call_exn (sqrt : Q -> Q) (self : FISTA.t)
  (function : Function.t) (beta : vec) (e : exn) :
  FISTA.call sqrt self function beta = Raise e -> e = ZeroDivisionError.
Proof.
  unfold FISTA.call. intro H.
  destruct (FISTA.step self) as [s |].
  - cbn [bind] in H.
    match type of H with
    | bind ?m _ = _ => destruct m as [[b fs] | e'] eqn:E
    end; cbn [bind] in H; [discriminate|].
    injection H as <-. now apply FISTA_loop_exn in E.
  - destruct (py_div 1 (Function.L function)) as [s | e'] eqn:Ed;
      cbn [bind] in H.
    + match type of H with
      | bind ?m _ = _ => destruct m as [[b fs] | e'] eqn:E
      end; cbn [bind] in H; [discriminate|].
      injection H as <-. now apply FISTA_loop_exn in E.
    + injection H as <-. now apply py_div_exn in Ed.
Qed.

Section CONESTA_facts.

Import CONESTA.

Variable TOLERANCE : Q.
Variable sqrt : Q -> Q.
Variable function : NesterovFunction.t.

Lemma bind_Ok {A B : Type} (m : result A) (k : A -> result B) (b : B) :
  bind m k = Ok b -> exists a, m = Ok a /\ k a = Ok b.
Proof.
  destruct m as [a | e]; cbn; intro H; [|discriminate].
  exists a. now split.
Qed.

(** What one pass of the outer loop does to the gap estimate, the smoothing
    constants and the algorithm object. *)
Lemma CONESTA_iter_inv (st st' : state) (brk : bool) :
  iter TOLERANCE sqrt function st = Ok (brk, st') ->
  G st' = update_G (dynamic (self st)) (tau (self st)) (G st)
            (NesterovFunction.gap function (mu_last (mu st)) (beta st'))
  /\ tau (self st') = tau (self st)
  /\ dynamic (self st') = dynamic (self st)
  /\ continuations (self st') = continuations (self st)
  /\ (brk = false -> i st' = S (i st) /\ (i st < continuations (self st))%nat)
  /\ (brk = false ->
      fmu st' = Qmin (mu_last (mu st))
                  (NesterovFunction.mu_opt function (mu_last (mu st)) (G st'))
      /\ mu_min (self st')
         = Qmin (Qmin (mu_min (self st)) (mu_last (mu st))) (fmu st')
      /\ exists n, (0 < n)%nat
           /\ mu st' = mu st ++ repeat (Qmax (mu_min (self st')) (fmu st')) n).
Proof.
  unfold iter. intro H. cbv beta iota zeta in H.
  apply bind_Ok in H. destruct H as [tnew [_ H]].
  apply bind_Ok in H. destruct H as [rf [_ H]]. destruct rf as [ret fista].
  cbv beta iota zeta in H.
  apply bind_Ok in H. destruct H as [bf [_ H]]. destruct bf as [b fval].
  cbv beta iota zeta in H.
  apply bind_Ok in H. destruct H as [inv [_ H]].
  apply bind_Ok in H. destruct H as [un [Hfval H]].
  match type of H with
  | (if ?c then _ else _) = _ => destruct c eqn:Ec
  end; injection H as <- <-; cbn.
  - repeat split; try reflexivity; discriminate.
  - apply orb_false_iff in Ec. destruct Ec as [_ Ec].
    apply orb_false_iff in Ec. destruct Ec as [_ Ec].
    cbn [continuations set_mu_min set_inner] in Ec.
    apply Nat.leb_gt in Ec.
    repeat split; try reflexivity; try exact Ec.
    cbn [output set_mu_min set_inner] in Hfval.
    destruct (output (self st)) eqn:Eo.
    + destruct fval as [| v fval]; [discriminate|].
      exists (S (length fval)). split; [lia|]. reflexivity.
    + exists 1%nat. split; [lia|]. reflexivity.
Qed.

Lemma update_G_nonneg (dyn : bool) (tau0 G0 g : Q) :
  0 <= tau0 -> 0 <= G0 -> 0 <= update_G dyn tau0 G0 g.
Proof.
  intros Ht HG. unfold update_G.
  assert (Hm : 0 <= tau0 * G0) by (apply Qmult_le_0_compat; assumption).
  destruct dyn; [|exact Hm].
  destruct (Qltb (Qabs g) G0); [apply Qabs_nonneg | exact Hm].
Qed.

(** An outer iteration raises only what Python does. *)
Lemma CONESTA_iter_exn (st : state) (e : exn) :
  iter TOLERANCE sqrt function st = Raise e -> e <> OutOfFuel.
Proof.
  unfold iter. cbv beta iota zeta. intro H.
  destruct (py_div 1 (NesterovFunction.L function (fmu st)))
    as [tnew | e1] eqn:E1; cbn [bind] in H;
    [|injection H as <-; apply py_div_exn in E1; now subst].
  match type of H with
  | bind ?m _ = _ => destruct m as [[ret fista] | e2] eqn:E2
  end; cbn [bind] in H;
    [|injection H as <-; apply FISTA_call_exn in E2; now subst].
  match type of H with
  | bind ?m _ = _ => destruct m as [[b fval] | e3] eqn:E3
  end; cbn [bind] in H.
  2:{ injection H as <-. destruct ret as [b [info |]];
      match type of E3 with
      | (if ?c then _ else _) = _ => destruct c
      end; try discriminate; injection E3 as <-; discriminate. }
  match type of H with
  | bind ?m _ = _ => destruct m as [inv | e4] eqn:E4
  end; cbn [bind] in H;
    [|injection H as <-; apply py_div_exn in E4; now subst].
  match type of H with
  | bind ?m _ = _ => destruct m as [un | e5] eqn:E5
  end; cbn [bind] in H.
  - match type of H with
    | (if ?c then _ else _) = _ => destruct c
    end; discriminate.
  - injection H as <-.
    match type of E5 with
    | (if ?c then _ else _) = _ => destruct c
    end; [|discriminate].
    destruct fval; [|discriminate]. injection E5 as <-. discriminate.
Qed.
(** The loop of a run ends within [continuations + 1] passes: the fuel
    [call] gives it is never used up. *)
Lemma CONESTA_loop_fuel (fuel : nat) :
  forall st : state,
    (continuations (self st) < i st + fuel)%nat -> (0 < fuel)%nat ->
    loop TOLERANCE sqrt fuel function st <> Raise OutOfFuel.
Proof.
  induction fuel as [| fuel IH]; intros st Hfuel Hpos; [lia|].
  cbn [loop].
  destruct (iter TOLERANCE sqrt function st) as [[brk st'] | e] eqn:E;
    cbn [bind].
  - destruct brk; [discriminate|].
    destruct (CONESTA_iter_inv st st' false E)
      as [_ [_ [_ [Hc [Hi _]]]]].
    destruct (Hi eq_refl) as [Hi1 Hi2].
    apply IH; rewrite ?Hc, ?Hi1; lia.
  - intro H. injection H as ->. now apply CONESTA_iter_exn in E.
Qed.

Lemma CONESTA_call_fuel (alg : t) (fmu0 : Q) (beta0 : vec) :
  call TOLERANCE sqrt alg function fmu0 beta0 <> Raise OutOfFuel.
Proof.
  unfold call.
  destruct (start alg function fmu0 beta0) as [st0 | e] eqn:E; cbn [bind].
  - apply CONESTA_loop_fuel; [|lia].
    unfold start in E.
    destruct (py_div 1 (NesterovFunction.L function (mu_min alg)));
      cbn [bind] in E; [|discriminate].
    injection E as <-. cbn. lia.
  - unfold start in E.
    destruct (py_div 1 (NesterovFunction.L function (mu_min alg))) eqn:Ed;
      cbn [bind] in E; [discriminate|].
    injection E as <-. apply py_div_exn in Ed. now subst.
Qed.

(** Along a run the gap estimate stays non-negative when tau and the
    estimate the run starts with are. *)
Lemma CONESTA_loop_G_nonneg (fuel : nat) :
  forall st st' : state,
    loop TOLERANCE sqrt fuel function st = Ok st' ->
    0 <= tau (self st) -> 0 <= G st -> 0 <= G st'.
Proof.
  induction fuel as [| fuel IH]; intros st st' H Ht HG; [discriminate|].
  cbn [loop] in H.
  destruct (iter TOLERANCE sqrt function st) as [[brk st1] | e] eqn:E;
    cbn [bind] in H; [|discriminate].
  destruct (CONESTA_iter_inv st st1 brk E) as [HG1 [Ht1 _]].
  assert (H1 : 0 <= G st1)
    by (rewrite HG1; apply update_G_nonneg; assumption).
  destruct brk.
  - injection H as <-. exact H1.
  - apply (IH st1 st' H); [rewrite Ht1; exact Ht | exact H1].
Qed.

(** C2.  In dynamic mode every outer iteration leaves as gap estimate the
    magnitude of the recomputed gap when that is below the previous
    estimate, and otherwise the previous estimate times tau; the estimate
    stays non-negative when tau and the previous estimate are. *)
Theorem CONESTA_gap_update (st st' : state) (brk : bool) :
  iter TOLERANCE sqrt function st = Ok (brk, st') ->
  dynamic (self st) = true ->
  G st' = (if Qltb (Qabs (NesterovFunction.gap function (mu_last (mu st))
                            (beta st'))) (G st)
           then Qabs (NesterovFunction.gap function (mu_last (mu st))
                        (beta st'))
           else tau (self st) * G st)
  /\ (0 <= tau (self st) -> 0 <= G st -> 0 <= G st').
Proof.
  intros Hiter Hdyn.
  destruct (CONESTA_iter_inv st st' brk Hiter) as [HG _].
  rewrite HG. split.
  - unfold update_G. rewrite Hdyn. reflexivity.
  - apply update_G_nonneg.
Qed.

Lemma mu_last_app_repeat (l : list Q) (v : Q) (n : nat) :
  (0 < n)%nat -> mu_last (l ++ repeat v n) = v.
Proof.
  intro Hn. destruct n as [| n]; [lia|].
  unfold mu_last. cbn [repeat]. rewrite repeat_cons. rewrite app_assoc.
  apply last_last.
Qed.

(** C3.  An outer iteration that does not stop installs on the objective
    the smaller of the previous mu and mu_opt(G); it is never above the
    previous mu, the field [mu_min] of the algorithm is lowered to it when
    it is smaller, and it is the last entry of the list [mu]. *)
Theorem CONESTA_next_mu (st st' : state) :
  iter TOLERANCE sqrt function st = Ok (false, st') ->
  fmu st' = Qmin (mu_last (mu st))
              (NesterovFunction.mu_opt function (mu_last (mu st)) (G st'))
  /\ fmu st' <= mu_last (mu st)
  /\ mu_min (self st')
     = Qmin (Qmin (mu_min (self st)) (mu_last (mu st))) (fmu st')
  /\ mu_min (self st') <= fmu st'
  /\ mu_last (mu st') == fmu st'.
Proof.
  intro Hiter.
  destruct (CONESTA_iter_inv st st' false Hiter) as [_ [_ [_ [_ [_ Hc]]]]].
  destruct (Hc eq_refl) as [Hf [Hm [n [Hn Hmu]]]].
  split; [exact Hf|]. split; [rewrite Hf; apply Q.le_min_l|].
  split; [exact Hm|].
  assert (Hle : mu_min (self st') <= fmu st')
    by (rewrite Hm; apply Q.le_min_r).
  split; [exact Hle|].
  rewrite Hmu, mu_last_app_repeat by exact Hn.
  apply Q.max_r. exact Hle.
Qed.

End CONESTA_facts.


Section Solver_runs.

Lemma CONESTA_gap_update_witness :
  exists (brk : bool) (st0 st' : CONESTA.state),
    CONESTA.start Examples.conesta0 (Examples.smoothed (4 # 5)) 0 [11 # 10]
    = Ok st0
    /\ CONESTA.iter (1 # 100) sqrt_exact (Examples.smoothed (4 # 5)) st0
       = Ok (brk, st')
    /\ CONESTA.G st'
       = (if Qltb (Qabs (4 # 5)) (CONESTA.G st0) then Qabs (4 # 5)
          else CONESTA.tau (CONESTA.self st0) * CONESTA.G st0)
    /\ (0 <= CONESTA.tau (CONESTA.self st0) -> 0 <= CONESTA.G st0 ->
        0 <= CONESTA.G st').
Proof.
  eexists. eexists. eexists.
  split; [vm_compute; reflexivity|].
  split; [vm_compute; reflexivity|].
  eapply (CONESTA_gap_update (1 # 100) sqrt_exact (Examples.smoothed (4 # 5))).
  - vm_compute. reflexivity.
  - reflexivity.
Defined.

(** Counterexample to C2 as the specification states it: with previous
    estimate 1, tau = 1/2 and a recomputed gap of 4/5 the new estimate is
    4/5, not the smaller of 4/5 and 1/2. *)
Lemma CONESTA_gap_not_min :
  exists (brk : bool) (st0 st' : CONESTA.state),
    CONESTA.start Examples.conesta0 (Examples.smoothed (4 # 5)) 0 [11 # 10]
    = Ok st0
    /\ CONESTA.iter (1 # 100) sqrt_exact (Examples.smoothed (4 # 5)) st0
       = Ok (brk, st')
    /\ CONESTA.dynamic (CONESTA.self st0) = true
    /\ ~ CONESTA.G st'
         == Qmin (Qabs (NesterovFunction.gap (Examples.smoothed (4 # 5))
                          (CONESTA.mu_last (CONESTA.mu st0))
                          (CONESTA.beta st')))
                 (CONESTA.tau (CONESTA.self st0) * CONESTA.G st0).
Proof.
  eexists. eexists. eexists.
  split; [vm_compute; reflexivity|].
  split; [vm_compute; reflexivity|].
  split; [reflexivity|].
  vm_compute. intro H. discriminate H.
Qed.

Lemma CONESTA_next_mu_witness :
  exists st0 st' : CONESTA.state,
    CONESTA.start Examples.conesta0 (Examples.smoothed 2) 0 [11 # 10] = Ok st0
    /\ CONESTA.iter (1 # 100) sqrt_exact (Examples.smoothed 2) st0
       = Ok (false, st')
    /\ CONESTA.fmu st'
       = Qmin (CONESTA.mu_last (CONESTA.mu st0))
           (NesterovFunction.mu_opt (Examples.smoothed 2)
              (CONESTA.mu_last (CONESTA.mu st0)) (CONESTA.G st'))
    /\ CONESTA.fmu st' <= CONESTA.mu_last (CONESTA.mu st0)
    /\ CONESTA.mu_min (CONESTA.self st')
       = Qmin (Qmin (CONESTA.mu_min (CONESTA.self st0))
                 (CONESTA.mu_last (CONESTA.mu st0))) (CONESTA.fmu st')
    /\ CONESTA.mu_min (CONESTA.self st') <= CONESTA.fmu st'
    /\ CONESTA.mu_last (CONESTA.mu st') == CONESTA.fmu st'.
Proof.
  eexists. eexists.
  split; [vm_compute; reflexivity|].
  split; [vm_compute; reflexivity|].
  apply (CONESTA_next_mu (1 # 100) sqrt_exact (Examples.smoothed 2)).
  vm_compute. reflexivity.
Defined.

(** Counterexample to C3 as the specification states it: with
    [mu_min] = 1 and previous mu = 1 the objective is given mu = 2/5, below
    the [mu_min] the algorithm was built with. *)
Lemma CONESTA_mu_below_mu_min :
  exists st0 st' : CONESTA.state,
    CONESTA.start Examples.conesta0 (Examples.smoothed 2) 0 [11 # 10] = Ok st0
    /\ CONESTA.iter (1 # 100) sqrt_exact (Examples.smoothed 2) st0
       = Ok (false, st')
    /\ CONESTA.fmu st' < CONESTA.mu_min Examples.conesta0
    /\ ~ CONESTA.fmu st'
         == Qmax (CONESTA.mu_min Examples.conesta0)
              (Qmin (CONESTA.mu_last (CONESTA.mu st0))
                 (NesterovFunction.mu_opt (Examples.smoothed 2)
                    (CONESTA.mu_last (CONESTA.mu st0)) (CONESTA.G st'))).
Proof.
  eexists. eexists.
  split; [vm_compute; reflexivity|].
  split; [vm_compute; reflexivity|].
  split; [vm_compute; reflexivity|].
  vm_compute. intro H. discriminate H.
Qed.

(** C7.  A call of FISTA built without a step leaves 1/L() in the field
    [step], which a later call on another objective then uses; a run of
    CONESTA lowers its field [mu_min], and a second run of the same object
    on the same objective and start vector returns another vector than a
    run of a newly built object does. *)
Theorem algorithm_objects_keep_run_state :
  (exists (ret : vec * option (list Q)) (self' : FISTA.t),
     FISTA.call sqrt_exact (FISTA.mk None false (1 # 100) 5 1)
       Examples.quadratic [3] = Ok (ret, self')
     /\ FISTA.step self' = Some (1 / 2)
     /\ (exists (r2 r3 : vec * option (list Q)) (s2 s3 : FISTA.t),
           FISTA.call sqrt_exact self' Examples.quadratic4 [3]
           = Ok (r2, s2)
           /\ FISTA.call sqrt_exact (FISTA.mk None false (1 # 100) 5 1)
                Examples.quadratic4 [3] = Ok (r3, s3)
           /\ r2 <> r3))
  /\ (exists (st1 st2 st3 : CONESTA.state) (b2 b3 : Q),
        CONESTA.call (1 # 100) sqrt_exact Examples.conesta0
          (Examples.smoothed 2) 0 [11 # 10] = Ok st1
        /\ CONESTA.mu_min (CONESTA.self st1)
           < CONESTA.mu_min Examples.conesta0
        /\ CONESTA.call (1 # 100) sqrt_exact (CONESTA.self st1)
             (Examples.smoothed 2) (CONESTA.fmu st1) [11 # 10] = Ok st2
        /\ CONESTA.call (1 # 100) sqrt_exact Examples.conesta0
             (Examples.smoothed 2) (CONESTA.fmu st1) [11 # 10] = Ok st3
        /\ CONESTA.beta st2 = [b2]
        /\ CONESTA.beta st3 = [b3]
        /\ ~ b2 == b3).
Proof.
  split.
  - eexists. eexists. split; [vm_compute; reflexivity|].
    split; [reflexivity|].
    eexists. eexists. eexists. eexists.
    split; [vm_compute; reflexivity|].
    split; [vm_compute; reflexivity|].
    intro H. discriminate H.
  - eexists. eexists. eexists. eexists. eexists.
    split; [vm_compute; reflexivity|].
    split; [vm_compute; reflexivity|].
    split; [vm_compute; reflexivity|].
    split; [vm_compute; reflexivity|].
    split; [reflexivity|]. split; [reflexivity|].
    vm_compute. intro H. discriminate H.
Qed.

End Solver_runs.

Section ProxOps_L1.

Import ProxOps.

Variable TOLERANCE : Q.
Variable sqrt : Q -> Q.

Lemma clamp_Qmax (a : Q) : (if Qltb a 0 then 0 else a) = Qmax a 0.
Proof.
  unfold Qmax, GenericMinMax.gmax.
  destruct (a ?= 0) eqn:E.
  - apply Qeq_alt in E. assert (H : Qltb a 0 = false) by (apply Qltb_ge; lra).
    now rewrite H.
  - apply Qlt_alt in E. apply Qltb_lt in E. now rewrite E.
  - apply Qgt_alt in E. assert (H : Qltb a 0 = false) by (apply Qltb_ge; lra).
    now rewrite H.
Qed.

(** A pass returns the soft threshold of the array it is given. *)
Lemma pass_soft_threshold (xorig : vec) (l : Q) :
  snd (pass xorig l) = map (Spec.soft_threshold l) xorig.
Proof.
  unfold pass. cbn [snd]. unfold vmul, vsign, vabs.
  induction xorig as [| v r IH]; [reflexivity|].
  cbn [map map2]. rewrite IH. f_equal.
  unfold Spec.soft_threshold. now rewrite clamp_Qmax.
Qed.

Lemma L1_loop_retry (fuel : nat) (xorig : vec) (l : Q) (w : bool) :
  norm sqrt (map (Spec.soft_threshold l) xorig) <= TOLERANCE ->
  L1_loop TOLERANCE sqrt (S fuel) false xorig (ThrFloat l) w
  = L1_loop TOLERANCE sqrt fuel false (fst (pass xorig l))
      (ThrFloat (l * (95 # 100))) true.
Proof.
  intro H. cbn [L1_loop thr_value].
  rewrite (surjective_pairing (pass xorig l)).
  rewrite pass_soft_threshold.
  apply Qltb_ge in H. rewrite H. reflexivity.
Qed.

End ProxOps_L1.

Section ProxOps_L1_divergence.

Import ProxOps.

Lemma L1_loop_zero_diverges (TOLERANCE : Q) (fuel : nat) :
  0 <= TOLERANCE ->
  forall (l : Q) (w : bool), 0 < l ->
    L1_loop TOLERANCE sqrt_exact fuel false [0] (ThrFloat l) w
    = Raise OutOfFuel.
Proof.
  intro HT. induction fuel as [| fuel IH]; intros l w Hl; [reflexivity|].
  cbn [L1_loop thr_value pass vsign vabs map vmul map2].
  assert (E : Qltb (Qabs 0 - l) 0 = true) by (apply Qltb_lt; cbn; lra).
  rewrite E.
  assert (E2 : Qltb TOLERANCE (norm sqrt_exact [sign 0 * 0]) = false)
    by (apply Qltb_ge; exact HT).
  rewrite E2. cbn [orb shrink_threshold bind]. apply IH. lra.
Qed.

(** The loop has no iteration cap: on the zero vector with threshold 1
    it never ends; no amount of fuel lets the call return or raise. *)
Lemma L1_prox_zero_vector_diverges :
  ~ exists fuel : nat,
      L1_prox (1 # 20000000) sqrt_exact fuel (mk [1]) [0] (Some 0%nat) false
      <> Raise OutOfFuel.
Proof.
  intros [fuel H]. apply H.
  unfold L1_prox. cbn [parameter nth_error bind].
  rewrite L1_loop_zero_diverges; [reflexivity | lra | lra].
Qed.

(** C8.  The retries do not reapply the threshold to the input: the
    assignment [x = xorig] makes [x] an alias of the copy, which the first
    pass overwrites in place.  For the input [[1]] and threshold 2,
    fourteen shrinkages by 5%
    give a threshold whose soft threshold of [x] has norm above TOLERANCE,
    the "non-empty result" at which the retries are to stop; but after the
    first pass the copy holds [0], every later pass works on that, and the
    call never returns. *)
Theorem L1_prox_retries_on_overwritten_array :
  (1 # 20000000)
  < norm sqrt_exact (map (Spec.soft_threshold (Spec.shrunk 2 14)) [1])
  /\ fst (pass [1] 2) = [0]
  /\ forall fuel : nat,
       L1_prox (1 # 20000000) sqrt_exact fuel (mk [2]) [1] (Some 0%nat) false
       = Raise OutOfFuel.
Proof.
  split; [vm_compute; reflexivity|].
  split; [reflexivity|].
  intros [| fuel]; [reflexivity|].
  unfold L1_prox. cbn [parameter nth_error bind].
  rewrite L1_loop_retry by (vm_compute; discriminate).
  change (fst (pass [1] 2)) with [0].
  rewrite L1_loop_zero_diverges; [reflexivity | lra | lra].
Qed.

End ProxOps_L1_divergence.

Section ProxOps_L0.

Import ProxOps.
Import Inv.

Lemma ext_ltb_irrefl (a : ext) : ext_ltb a a = false.
Proof. destruct a as [| q]; [reflexivity|]. apply Qltb_ge. lra. Qed.

Lemma ext_le_trans_lt (a c m : ext) :
  ext_ltb a m = false -> ext_ltb m c = false -> ext_ltb a c = false.
Proof.
  destruct a as [| x], c as [| y], m as [| z]; cbn; try congruence.
  rewrite !Qltb_ge. lra.
Qed.

Lemma ext_ltb_asym (a m : ext) : ext_ltb a m = true -> ext_ltb m a = false.
Proof.
  destruct a as [| x], m as [| z]; cbn; try congruence.
  rewrite Qltb_lt, Qltb_ge. lra.
Qed.

(** The entry [np.argmax] finds is in the array, at the index found. *)
Lemma argmax_val_in (cp : list ext) :
  cp <> [] -> nth_error cp (fst (argmax_val cp)) = Some (snd (argmax_val cp)).
Proof.
  induction cp as [| a cp IH]; [congruence|]. intros _.
  cbn [argmax_val]. destruct (argmax_val cp) as [j m] eqn:E.
  destruct (ext_ltb a m) eqn:Elt; [|reflexivity].
  cbn [fst snd nth_error]. destruct cp as [| c cp].
  - cbn in E. injection E as <- <-. destruct a; discriminate.
  - apply IH. discriminate.
Qed.

(** No entry of the array is larger. *)
Lemma argmax_val_max (cp : list ext) :
  Forall (fun c => ext_le c (snd (argmax_val cp))) cp.
Proof.
  unfold ext_le.
  induction cp as [| a cp IH]; [constructor|].
  cbn [argmax_val]. destruct (argmax_val cp) as [j m].
  cbn [snd] in IH. destruct (ext_ltb a m) eqn:Elt; cbn [snd].
  - constructor; [now apply ext_ltb_asym | exact IH].
  - constructor; [apply ext_ltb_irrefl|].
    eapply Forall_impl; [|exact IH]. intros c Hc.
    now apply (ext_le_trans_lt a c m).
Qed.

Lemma masked_le_length (cp : list ext) : (masked cp <= length cp)%nat.
Proof.
  induction cp as [| [| q] cp IH]; cbn; lia.
Qed.

(** An array that is not masked all over has an entry that is not. *)
Lemma masked_lt_length (cp : list ext) :
  (masked cp < length cp)%nat -> exists q, In (Fin q) cp.
Proof.
  induction cp as [| [| q] cp IH]; cbn; intro H; [lia | |].
  - destruct IH as [q Hq]; [lia|]. exists q. now right.
  - exists q. now left.
Qed.

Lemma masked_mask (cp : list ext) :
  forall (j : nat) (q : Q),
    nth_error cp j = Some (Fin q) -> masked (mask j cp) = S (masked cp).
Proof.
  induction cp as [| c cp IH]; intros [| j] q H; try discriminate.
  - cbn in H. injection H as ->. reflexivity.
  - cbn in H. cbn [mask]. destruct c; cbn [masked]; erewrite IH; eauto.
Qed.

Lemma nth_error_mask (cp : list ext) :
  forall j : nat, (j < length cp)%nat -> nth_error (mask j cp) j = Some MInf.
Proof.
  induction cp as [| c cp IH]; intros [| j] H; cbn in *; try lia.
  - reflexivity.
  - apply IH. lia.
Qed.

(** Masking an entry that is at least the bound keeps the invariant. *)
Lemma sel_mask (q : Q) (xn : vec) (cp : list ext) :
  Forall2 (sel (Some q)) xn cp ->
  forall (j : nat) (v : Q),
    nth_error xn j = Some v -> q <= Qabs v ->
    Forall2 (sel (Some q)) xn (mask j cp).
Proof.
  induction 1 as [| v0 c xn cp Hvc Hrest IH]; intros [| j] v Hj Hq;
    try discriminate.
  - cbn in Hj. injection Hj as ->. cbn [mask]. constructor; [|exact Hrest].
    right. now split.
  - cbn in Hj. cbn [mask]. constructor; [exact Hvc|]. now apply (IH j v).
Qed.

(** Lowering the bound to the largest unmasked magnitude. *)
Lemma sel_lower (b : option Q) (q : Q) (xn : vec) (cp : list ext) :
  Forall2 (sel b) xn cp ->
  Forall (fun c => ext_le c (Fin q)) cp ->
  match b with Some m => q <= m | None => True end ->
  Forall2 (sel (Some q)) xn cp.
Proof.
  intros H. induction H as [| v c xn cp Hvc Hrest IH]; intros Hmax Hb;
    [constructor|].
  inversion Hmax as [| ? ? Hc Hcp]; subst.
  constructor; [|now apply IH].
  destruct Hvc as [[-> Hv] | [-> Hv]].
  - left. split; [reflexivity|]. unfold ext_le in Hc. cbn in Hc.
    now apply Qltb_ge in Hc.
  - right. split; [reflexivity|]. destruct b as [m |]; [lra | contradiction].
Qed.

Lemma sel_nth (b : option Q) (xn : vec) (cp : list ext) :
  Forall2 (sel b) xn cp ->
  forall (j : nat) (c : ext),
    nth_error cp j = Some c -> exists v, nth_error xn j = Some v /\ sel b v c.
Proof.
  induction 1 as [| v0 c0 xn cp Hvc Hrest IH]; intros [| j] c Hj;
    try discriminate.
  - cbn in Hj. injection Hj as <-. exists v0. now split.
  - cbn in Hj. now apply IH.
Qed.

(** One selection: the array is not masked all over, so [np.argmax] finds
    the largest unmasked magnitude, which becomes the bound. *)
Lemma select_step (b : option Q) (xn : vec) (cp : list ext) :
  Forall2 (sel b) xn cp -> (masked cp < length cp)%nat ->
  exists (j : nat) (v : Q),
    argmax cp = Ok j
    /\ nth_error xn j = Some v
    /\ Forall2 (sel (Some (Qabs v))) xn (mask j cp)
    /\ nth_error (mask j cp) j = Some MInf
    /\ masked (mask j cp) = S (masked cp).
Proof.
  intros Hsel Hlt.
  assert (Hne : cp <> []) by (destruct cp; [cbn in Hlt; lia | discriminate]).
  pose proof (argmax_val_in cp Hne) as Hin.
  pose proof (argmax_val_max cp) as Hmax.
  destruct (argmax_val cp) as [j m] eqn:E. cbn [fst snd] in *.
  destruct (masked_lt_length cp Hlt) as [q0 Hq0].
  assert (Hm : exists q, m = Fin q).
  { rewrite Forall_forall in Hmax. specialize (Hmax _ Hq0).
    unfold ext_le in Hmax. destruct m as [| q]; [discriminate|]. now exists q. }
  destruct Hm as [q ->].
  destruct (sel_nth b xn cp Hsel j (Fin q) Hin) as [v [Hv Hs]].
  destruct Hs as [[Hq Hb] | [Hq _]]; [|discriminate].
  injection Hq as ->.
  exists j, v. split.
  { unfold argmax. destruct cp; [congruence|]. now rewrite E. }
  split; [exact Hv|]. split.
  { apply (sel_mask (Qabs v) xn cp) with (v := v); [|exact Hv | lra].
    apply (sel_lower b); assumption. }
  split.
  { apply nth_error_mask. apply nth_error_Some. congruence. }
  now apply (masked_mask cp j (Qabs v)).
Qed.

(** The selection loop. *)
Lemma select_spec (n : nat) :
  forall (b : option Q) (xn : vec) (cp : list ext) (ind : list nat),
    Forall2 (sel b) xn cp -> (masked cp + S n <= length cp)%nat ->
    exists (ind' : list nat) (j : nat) (v : Q) (cp' : list ext),
      select (S n) cp ind = Ok ind'
      /\ last ind' 0%nat = j
      /\ nth_error xn j = Some v
      /\ Forall2 (sel (Some (Qabs v))) xn cp'
      /\ nth_error cp' j = Some MInf
      /\ masked cp' = (masked cp + S n)%nat.
Proof.
  induction n as [| n IH]; intros b xn cp ind Hsel Hlen.
  - destruct (select_step b xn cp Hsel) as [j [v [Ha [Hv [Hs [Hj Hm]]]]]];
      [lia|].
    exists (ind ++ [j]), j, v, (mask j cp). cbn [select]. rewrite Ha.
    cbn [bind]. repeat split; try assumption; [apply last_last | lia].
  - destruct (select_step b xn cp Hsel) as [j [v [Ha [Hv [Hs [Hj Hm]]]]]];
      [lia|].
    assert (Hl : length (mask j cp) = length cp).
    { rewrite <- (Forall2_length Hs). apply (Forall2_length Hsel). }
    destruct (IH (Some (Qabs v)) xn (mask j cp) (ind ++ [j]) Hs)
      as [ind' [j' [v' [cp' [Hsel' [Hlast [Hv' [Hs' [Hj' Hm']]]]]]]]];
      [lia|].
    exists ind', j', v', cp'.
    split; [|repeat split; try assumption; lia].
    change (select (S (S n)) cp ind)
      with (idx <- argmax cp ;; select (S n) (mask idx cp) (ind ++ [idx])).
    rewrite Ha. exact Hsel'.
Qed.

(** At least as many entries reach the bound as are masked. *)
Lemma masked_le_count (q : Q) (xn : vec) (cp : list ext) :
  Forall2 (sel (Some q)) xn cp ->
  (masked cp <= Spec.count (fun v => Qleb q (Qabs v)) xn)%nat.
Proof.
  unfold Spec.count.
  induction 1 as [| v c xn cp Hvc Hrest IH]; [cbn; lia|].
  cbn [filter]. destruct Hvc as [[-> Hv] | [-> Hv]]; cbn [masked].
  - destruct (Qleb q (Qabs v)); cbn [length]; lia.
  - apply Qleb_le in Hv. rewrite Hv. cbn [length]. lia.
Qed.

Lemma count_gt_le_masked (q : Q) (xn : vec) (cp : list ext) :
  Forall2 (sel (Some q)) xn cp ->
  (Spec.count (fun v => Qltb q (Qabs v)) xn <= masked cp)%nat.
Proof.
  unfold Spec.count.
  induction 1 as [| v c xn cp Hvc Hrest IH]; [cbn; lia|].
  cbn [filter]. destruct Hvc as [[-> Hv] | [-> Hv]]; cbn [masked].
  - apply Qltb_ge in Hv. rewrite Hv. exact IH.
  - destruct (Qltb q (Qabs v)); cbn [length]; lia.
Qed.

(** Fewer entries exceed the bound than are masked, when a masked entry
    does not exceed it. *)
Lemma count_gt_lt_masked (q : Q) (xn : vec) (cp : list ext) :
  Forall2 (sel (Some q)) xn cp ->
  forall (j : nat) (v : Q),
    nth_error cp j = Some MInf -> nth_error xn j = Some v -> Qabs v <= q ->
    (Spec.count (fun v => Qltb q (Qabs v)) xn < masked cp)%nat.
Proof.
  induction 1 as [| v0 c xn cp Hvc Hrest IH]; intros [| j] v Hc Hv Hq;
    try discriminate.
  - cbn in Hc, Hv. injection Hc as ->. injection Hv as ->.
    pose proof (count_gt_le_masked q xn cp Hrest) as Hle.
    unfold Spec.count in *. cbn [filter masked].
    apply Qltb_ge in Hq. rewrite Hq. lia.
  - cbn in Hc, Hv. specialize (IH j v Hc Hv Hq).
    unfold Spec.count in *. cbn [filter].
    destruct Hvc as [[-> Hv0] | [-> Hv0]]; cbn [masked].
    + apply Qltb_ge in Hv0. rewrite Hv0. exact IH.
    + destruct (Qltb q (Qabs v0)); cbn [length]; lia.
Qed.

Lemma target_bounds (num : Z) (p : nat) :
  (1 <= target num p)%nat /\ ((1 <= p)%nat -> (target num p <= p)%nat).
Proof.
  unfold target.
  destruct (Z.min num (Z.of_nat p) <? 1)%Z eqn:E.
  - split; [cbn; lia|]. intro Hp. cbn. lia.
  - apply Z.ltb_ge in E. split; [lia|]. intros _. lia.
Qed.

Lemma target_count (k p : nat) :
  (1 <= k)%nat -> (1 <= p)%nat -> target (Z.of_nat k) p = Nat.min k p.
Proof.
  intros Hk Hp. unfold target.
  destruct (Z.min (Z.of_nat k) (Z.of_nat p) <? 1)%Z eqn:E.
  - apply Z.ltb_lt in E. lia.
  - lia.
Qed.

(** With a positive threshold, the entries that are not zeroed are not
    zero. *)
Lemma count_nonzero_kept (l : Q) (xn : vec) :
  0 < l ->
  Spec.count Spec.nonzero (zero_below l xn)
  = Spec.count (fun v => Qleb l (Qabs v)) xn.
Proof.
  intro Hl. unfold Spec.count, zero_below.
  induction xn as [| v xn IH]; [reflexivity|].
  cbn [map filter]. destruct (Qltb (Qabs v) l) eqn:E.
  - apply Qltb_lt in E.
    assert (E2 : Qleb l (Qabs v) = false) by (apply Qleb_gt; exact E).
    rewrite E2. cbn. exact IH.
  - apply Qltb_ge in E.
    assert (E2 : Qleb l (Qabs v) = true) by (apply Qleb_le; exact E).
    rewrite E2.
    assert (E3 : Spec.nonzero v = true).
    { unfold Spec.nonzero. apply negb_true_iff.
      destruct (Qeq_bool v 0) eqn:E0; [|reflexivity].
      apply Qeq_bool_iff in E0. rewrite E0 in E. cbn in E. lra. }
    rewrite E3. cbn [length]. now rewrite IH.
Qed.

Lemma sel_initial (xn : vec) :
  Forall2 (sel None) xn (map (fun v => Fin (Qabs v)) xn).
Proof.
  induction xn as [| v r IH]; cbn; constructor; [|exact IH].
  left. now split.
Qed.

Lemma masked_initial (xn : vec) :
  masked (map (fun v => Fin (Qabs v)) xn) = 0%nat.
Proof.
  induction xn as [| v r IH]; [reflexivity | exact IH].
Qed.

(** C9.  For a non-empty [x] and a normaliser that is not zero at [x], the
    projection returns [x / normaliser(x)] with the entries of magnitude
    strictly below a threshold [l] zeroed and all others kept, where [l] is
    the t-th largest magnitude, t = max(1, min(k, p)): fewer than t entries
    exceed [l], at least t reach it, and when [l] is positive the entries
    that remain non-zero are exactly those that reach it. *)
Theorem L0_by_count_keeps_threshold (self : t Z) (x : vec) (index : nat)
  (num : Z) (normaliser : list (vec -> Q)) (nrm : vec -> Q) :
  nth_error (parameter self) index = Some num ->
  nth_error normaliser index = Some nrm ->
  ~ nrm x == 0 ->
  x <> [] ->
  exists l : Q,
    L0_by_count_prox self x index (Some normaliser)
    = Ok (zero_below l (scaled x (nrm x)))
    /\ (Spec.count (fun v => Qltb l (Qabs v)) (scaled x (nrm x))
        < target num (length x))%nat
    /\ (target num (length x)
        <= Spec.count (fun v => Qleb l (Qabs v))
             (scaled x (nrm x)))%nat
    /\ (0 < l ->
        Spec.count Spec.nonzero
          (zero_below l (scaled x (nrm x)))
        = Spec.count (fun v => Qleb l (Qabs v))
            (scaled x (nrm x))).
Proof.
  intros Hnum Hnrm Hnz Hx.
  set (xn := scaled x (nrm x)).
  set (cp := map (fun v => Fin (Qabs v)) xn).
  assert (Hp : (1 <= length x)%nat) by (destruct x; [congruence | cbn; lia]).
  destruct (target_bounds num (length x)) as [Ht1 Ht2].
  specialize (Ht2 Hp).
  pose proof (sel_initial xn) as Hsel0. fold cp in Hsel0.
  pose proof (masked_initial xn) as Hm0. fold cp in Hm0.
  assert (Hlen : length cp = length x).
  { unfold cp, xn, scaled. now rewrite !length_map. }
  destruct (target num (length x)) as [| n] eqn:Et; [lia|].
  destruct (select_spec n None xn cp [] Hsel0)
    as [ind [j [v [cp' [Hselect [Hlast [Hv [Hs [Hj Hm]]]]]]]]]; [lia|].
  exists (Qabs v).
  assert (Hnth : nth j xn 0 = v) by (now apply nth_error_nth).
  split.
  { unfold L0_by_count_prox. rewrite Hnum. cbn [bind]. rewrite Hnrm.
    cbn [bind]. unfold np_div.
    destruct (Qeq_bool (nrm x) 0) eqn:E;
      [apply Qeq_bool_iff in E; contradiction|].
    cbn [bind]. rewrite Et. fold xn. fold cp. rewrite Hselect.
    cbn [bind]. rewrite Hlast, Hnth. reflexivity. }
  assert (Hm' : masked cp' = S n) by lia.
  split.
  { rewrite <- Hm'.
    apply (count_gt_lt_masked (Qabs v) xn cp' Hs j v Hj Hv). lra. }
  split.
  { rewrite <- Hm'. now apply masked_le_count. }
  apply count_nonzero_kept.
Qed.

End ProxOps_L0.

(** Counterexample to C9 as the specification states it: of two entries
    of equal magnitude both are kept when one is asked for. *)
Lemma L0_by_count_keeps_ties :
  exists r : vec,
    ProxOps.L0_by_count_prox (ProxOps.mk [1%Z]) [1; 1] 0
      (Some [fun _ => 1]) = Ok r
    /\ Spec.count Spec.nonzero r <> Nat.min 1 (length [1; 1]).
Proof.
  eexists. split; [vm_compute; reflexivity|].
  vm_compute. intro H. discriminate H.
Qed.

Lemma L0_by_count_keeps_threshold_witness :
  exists l : Q,
    ProxOps.L0_by_count_prox (ProxOps.mk [2%Z]) Examples.x4 0
      (Some [norm1])
    = Ok (ProxOps.zero_below l
            (ProxOps.scaled Examples.x4 (norm1 Examples.x4)))
    /\ (Spec.count (fun v => Qltb l (Qabs v))
          (ProxOps.scaled Examples.x4 (norm1 Examples.x4))
        < ProxOps.target 2 (length Examples.x4))%nat
    /\ (ProxOps.target 2 (length Examples.x4)
        <= Spec.count (fun v => Qleb l (Qabs v))
             (ProxOps.scaled Examples.x4 (norm1 Examples.x4)))%nat
    /\ (0 < l ->
        Spec.count Spec.nonzero
          (ProxOps.zero_below l
             (ProxOps.scaled Examples.x4 (norm1 Examples.x4)))
        = Spec.count (fun v => Qleb l (Qabs v))
            (ProxOps.scaled Examples.x4 (norm1 Examples.x4))).
Proof.
  apply (L0_by_count_keeps_threshold (ProxOps.mk [2%Z]) Examples.x4
           0%nat 2%Z [norm1] norm1).
  - reflexivity.
  - reflexivity.
  - vm_compute. intro H. discriminate H.
  - discriminate.
Defined.

(** ** More of [Bisection] *)

Lemma sqrt_exact_square (x : Q) : sqrt_exact (x * x) == Qabs x.
Proof.
  destruct x as [n d]. unfold sqrt_exact, Qeq. cbn [Qnum Qden Qmult Qabs].
  assert (Hn : Z.sqrt (n * n) = Z.abs n).
  { rewrite <- (Z.abs_square n). apply Z.sqrt_square. apply Z.abs_nonneg. }
  assert (Hd : Pos.sqrt (d * d) = d).
  { apply Pos2Z.inj. rewrite Pos2Z.inj_sqrt, Pos2Z.inj_mul.
    apply Z.sqrt_square. lia. }
  rewrite Hn, Hd. reflexivity.
Qed.

Lemma Qpower_2_succ (n : nat) : 2 ^ Z.of_nat (S n) == 2 * 2 ^ Z.of_nat n.
Proof.
  rewrite Nat2Z.inj_succ. unfold Z.succ.
  rewrite Qpower_plus by lra. rewrite Qpower_1_r. ring.
Qed.

Section Bisection_bracket.

Import Bisection.

Variable sqrt : Q -> Q.

(** The first loop binds [f_low] as soon as it runs once. *)
Lemma expand_binds_f_low (f : Q -> Q) (ix : list nat) (b : bracket) :
  ix <> [] -> f_low (expand f ix b) <> None.
Proof.
  revert b. induction ix as [| i ix IH]; intros b H; [congruence|].
  cbn [expand].
  destruct (Qeq_bool (maths_sign (f (low b))) (maths_sign (f (high b)))).
  - destruct ix as [| j ix]; [cbn; discriminate|]. apply IH. discriminate.
  - cbn. discriminate.
Qed.

(** The second loop keeps [f_low] bound, and so never fails. *)
Lemma bisect_ok (tol : Q) (f : Q -> Q) (ix : list nat) :
  forall b : bracket,
    f_low b <> None ->
    exists b', bisect sqrt tol f ix b = Ok b' /\ f_low b' <> None.
Proof.
  induction ix as [| i ix IH]; intros b H.
  - exists b. now split.
  - cbn [bisect]. destruct (f_low b) as [fl |] eqn:E; [|congruence].
    set (b' := if Qeq_bool (maths_sign (f ((low b + high b) / 2)))
                    (maths_sign fl)
               then _ else _).
    assert (Hb' : f_low b' <> None).
    { unfold b'. destruct (Qeq_bool _ _); cbn; discriminate. }
    destruct (Qleb _ tol).
    + exists b'. now split.
    + now apply IH.
Qed.

(** X1.  [Bisection.__call__] never raises [UnboundLocalError]: [f_low]
    is bound only inside the first loop and read in the second, but both
    loops run over [xrange(self.max_iter)], so whenever the second loop
    reads [f_low] the first one has bound it; this holds for every function,
    iteration cap and argument [x].  An empty [x] is a [ValueError], from
    [min]. *)
Theorem Bisection_call_binds_f_low (self : t) (f : Q -> Q)
  (x : option (list Q)) :
  call sqrt self f x <> Raise UnboundLocalError
  /\ call sqrt self f (Some []) = Raise ValueError.
Proof.
  split; [|reflexivity].
  unfold call.
  destruct x as [[| a xs] |]; [cbn; discriminate | |]; cbn [py_min py_max bind].
  - set (b0 := {| low := fold_left Qmin xs a; high := fold_left Qmax xs a;
                  f_low := None; f_high := None |}).
    destruct (max_iter self) as [| n] eqn:En; [cbn; discriminate|].
    destruct (bisect_ok (eps self) f (seq 0 (S n))
                (expand f (seq 0 (S n)) b0)) as [b' [-> _]].
    + apply expand_binds_f_low. discriminate.
    + cbn [bind]. discriminate.
  - set (b0 := {| low := 0; high := 1; f_low := None; f_high := None |}).
    destruct (max_iter self) as [| n] eqn:En; [cbn; discriminate|].
    destruct (bisect_ok (eps self) f (seq 0 (S n))
                (expand f (seq 0 (S n)) b0)) as [b' [-> _]].
    + apply expand_binds_f_low. discriminate.
    + cbn [bind]. discriminate.
Qed.

(** The second loop stays inside the bracket it is given. *)
Lemma bisect_within (tol : Q) (f : Q -> Q) (ix : list nat) :
  forall b b' : bracket,
    low b <= high b -> bisect sqrt tol f ix b = Ok b' ->
    low b <= low b' /\ low b' <= high b' /\ high b' <= high b.
Proof.
  induction ix as [| i ix IH]; intros b b' Hle H.
  - injection H as <-. repeat split; lra.
  - cbn [bisect] in H. destruct (f_low b) as [fl |]; [|discriminate].
    set (mid := (low b + high b) / 2) in *.
    assert (Hmid : low b <= mid /\ mid <= high b).
    { unfold mid. split.
      - apply Qle_shift_div_l; lra.
      - apply Qle_shift_div_r; lra. }
    destruct (Qeq_bool (maths_sign (f mid)) (maths_sign fl));
      match type of H with
      | (if ?c then _ else _) = _ => destruct c
      end;
      try (injection H as <-; cbn; repeat split; lra);
      apply IH in H; cbn in *; try lra.
Qed.

(** The first loop only widens the bracket. *)
Lemma expand_widens (f : Q -> Q) (ix : list nat) :
  forall b : bracket,
    low (expand f ix b) <= low b /\ high b <= high (expand f ix b).
Proof.
  induction ix as [| i ix IH]; intro b; [cbn; lra|].
  cbn [expand].
  destruct (Qeq_bool (maths_sign (f (low b))) (maths_sign (f (high b))));
    [|cbn; lra].
  match goal with |- context [expand f ix ?b1] => destruct (IH b1) as [H1 H2] end.
  cbn in H1, H2.
  assert (Hp : 0 < 2 ^ Z.of_nat i) by (apply Qpower_0_lt; lra).
  pose proof (Qabs_nonneg (low b)) as Hl.
  pose proof (Qabs_nonneg (high b)) as Hh.
  assert (0 <= Qabs (low b) * 2 ^ Z.of_nat i) by (apply Qmult_le_0_compat; lra).
  assert (0 <= Qabs (high b) * 2 ^ Z.of_nat i) by (apply Qmult_le_0_compat; lra).
  lra.
Qed.

(** A lower end at zero stays at zero. *)
Lemma expand_low_zero (f : Q -> Q) (ix : list nat) :
  forall b : bracket, low b == 0 -> low (expand f ix b) == 0.
Proof.
  induction ix as [| i ix IH]; intros b H; [exact H|].
  cbn [expand].
  destruct (Qeq_bool (maths_sign (f (low b))) (maths_sign (f (high b))));
    [|exact H].
  apply IH. cbn. rewrite H. cbn. ring.
Qed.

Lemma expand_high_zero (f : Q -> Q) (ix : list nat) :
  forall b : bracket, high b == 0 -> high (expand f ix b) == 0.
Proof.
  induction ix as [| i ix IH]; intros b H; [exact H|].
  cbn [expand].
  destruct (Qeq_bool (maths_sign (f (low b))) (maths_sign (f (high b))));
    [|exact H].
  apply IH. cbn. rewrite H. cbn. ring.
Qed.

(** The first expansion ([i = 0]) moves a non-negative lower end to zero,
    where it stays. *)
Lemma expand_low_nonneg (f : Q -> Q) (n : nat) (b : bracket) :
  0 <= low b -> 0 <= low (expand f (seq 0 n) b).
Proof.
  intro H. destruct n as [| n]; [exact H|].
  cbn [seq expand].
  destruct (Qeq_bool (maths_sign (f (low b))) (maths_sign (f (high b))));
    [|exact H].
  rewrite expand_low_zero; [lra|].
  cbn [low]. rewrite (Qabs_pos (low b) H). cbn. ring.
Qed.

Lemma expand_high_nonpos (f : Q -> Q) (n : nat) (b : bracket) :
  high b <= 0 -> high (expand f (seq 0 n) b) <= 0.
Proof.
  intro H. destruct n as [| n]; [exact H|].
  cbn [seq expand].
  destruct (Qeq_bool (maths_sign (f (low b))) (maths_sign (f (high b))));
    [|exact H].
  rewrite expand_high_zero; [lra|].
  cbn [high]. rewrite (Qabs_neg (high b) H). cbn. ring.
Qed.

(** X2.  A bracket on one side of zero never reaches the other side: the
    expansion [low -= abs(low) * 2.0 ** i] stops at zero, so the value
    returned for a non-negative bracket is non-negative (and non-positive
    for a non-positive one). *)
Theorem Bisection_never_crosses_zero (self : t) (f : Q -> Q) (a b r : Q) :
  call sqrt self f (Some [a; b]) = Ok r ->
  (0 <= a -> 0 <= b -> 0 <= r) /\ (a <= 0 -> b <= 0 -> r <= 0).
Proof.
  unfold call. cbn [py_min py_max fold_left bind]. intro H.
  set (b0 := {| low := Qmin a b; high := Qmax a b;
                f_low := None; f_high := None |}) in *.
  destruct (bisect sqrt (eps self) f (seq 0 (max_iter self))
              (expand f (seq 0 (max_iter self)) b0)) as [b2 | e] eqn:E;
    cbn [bind] in H; [|discriminate].
  injection H as <-.
  destruct (expand_widens f (seq 0 (max_iter self)) b0) as [Hw1 Hw2].
  cbn [low high b0] in Hw1, Hw2.
  assert (Hmm : Qmin a b <= Qmax a b).
  { apply Qle_trans with a; [apply Q.le_min_l | apply Q.le_max_l]. }
  apply bisect_within in E; [|lra]. destruct E as [E1 [E2 E3]].
  split; intros Ha Hb.
  - assert (H0 : 0 <= low (expand f (seq 0 (max_iter self)) b0)).
    { apply expand_low_nonneg. cbn. apply Q.min_glb; assumption. }
    apply Qle_shift_div_l; lra.
  - assert (H0 : high (expand f (seq 0 (max_iter self)) b0) <= 0).
    { apply expand_high_nonpos. cbn. apply Q.max_lub; assumption. }
    apply Qle_shift_div_r; lra.
Qed.

End Bisection_bracket.

Section Bisection_sign_change.

Import Bisection.

Variable sqrt : Q -> Q.
Hypothesis sqrt_square : forall x : Q, sqrt (x * x) == Qabs x.

Variable f : Q -> Q.

Lemma bisect_keeps_sign_change (tol : Q) (ix : list nat) :
  forall b b' : bracket,
    low b <= high b ->
    f_low b = Some (f (low b)) ->
    Qeq_bool (maths_sign (f (low b))) (maths_sign (f (high b))) = false ->
    bisect sqrt tol f ix b = Ok b' ->
    f_low b' = Some (f (low b'))
    /\ Qeq_bool (maths_sign (f (low b'))) (maths_sign (f (high b'))) = false
    /\ (high b' - low b' <= tol
        \/ high b' - low b'
           == (high b - low b) / 2 ^ Z.of_nat (length ix)).
Proof.
  induction ix as [| i ix IH]; intros b b' Hle Hfl Hs H.
  - injection H as <-. split; [exact Hfl|]. split; [exact Hs|].
    right. cbn. field.
  - cbn [bisect] in H. rewrite Hfl in H.
    set (mid := (low b + high b) / 2) in *.
    assert (Hmid : low b <= mid /\ mid <= high b).
    { unfold mid. split.
      - apply Qle_shift_div_l; lra.
      - apply Qle_shift_div_r; lra. }
    assert (Hp : 0 < 2 ^ Z.of_nat (length ix)) by (apply Qpower_0_lt; lra).
    assert (Hhalf : forall w, w == (high b - low b) / 2 ->
              w / 2 ^ Z.of_nat (length ix)
              == (high b - low b) / 2 ^ Z.of_nat (length (i :: ix))).
    { intros w Hw. cbn [length]. rewrite Qpower_2_succ, Hw.
      field. lra. }
    destruct (Qeq_bool (maths_sign (f mid)) (maths_sign (f (low b)))) eqn:Em.
    + (* low = mid *)
      assert (Hs' : Qeq_bool (maths_sign (f mid)) (maths_sign (f (high b)))
                    = false).
      { destruct (Qeq_bool (maths_sign (f mid)) (maths_sign (f (high b))))
          eqn:E2; [|reflexivity].
        apply Qeq_bool_iff in Em, E2.
        assert (E3 : maths_sign (f (low b)) == maths_sign (f (high b)))
          by (rewrite <- Em; exact E2).
        apply Qeq_bool_iff in E3. congruence. }
      cbn [low high] in H.
      assert (Hw : high b - mid == (high b - low b) / 2)
        by (unfold mid; field).
      destruct (Qleb (sqrt ((high b - mid) * (high b - mid))) tol) eqn:Et.
      * injection H as <-. cbn. split; [reflexivity|]. split; [exact Hs'|].
        left. apply Qleb_le in Et. rewrite sqrt_square in Et.
        rewrite Qabs_pos in Et by lra. exact Et.
      * apply IH in H; cbn; try reflexivity; try exact Hs'; try lra.
        destruct H as [H1 [H2 H3]]. split; [exact H1|]. split; [exact H2|].
        destruct H3 as [H3 | H3]; [now left | right].
        cbn [low high] in H3. rewrite H3. now apply Hhalf.
    + (* high = mid *)
      assert (Hs' : Qeq_bool (maths_sign (f (low b))) (maths_sign (f mid))
                    = false).
      { destruct (Qeq_bool (maths_sign (f (low b))) (maths_sign (f mid)))
          eqn:E2; [|reflexivity].
        apply Qeq_bool_iff in E2. symmetry in E2.
        apply Qeq_bool_iff in E2. congruence. }
      cbn [low high] in H.
      assert (Hw : mid - low b == (high b - low b) / 2)
        by (unfold mid; field).
      destruct (Qleb (sqrt ((mid - low b) * (mid - low b))) tol) eqn:Et.
      * injection H as <-. cbn. split; [reflexivity|]. split; [exact Hs'|].
        left. apply Qleb_le in Et. rewrite sqrt_square in Et.
        rewrite Qabs_pos in Et by lra. exact Et.
      * apply IH in H; cbn; try reflexivity; try exact Hs'; try lra.
        destruct H as [H1 [H2 H3]]. split; [exact H1|]. split; [exact H2|].
        destruct H3 as [H3 | H3]; [now left | right].
        cbn [low high] in H3. rewrite H3. now apply Hhalf.
Qed.

(** X3.  When the function has different signs at the two ends of the
    bracket (and one iteration at least is allowed), the value returned is
    the midpoint of a part [l, h] of the bracket at whose ends the signs
    still differ, and [h - l] is at most eps or the width of the bracket
    divided by 2 ^ max_iter. *)
Theorem Bisection_call_keeps_sign_change (self : t) (a b : Q) :
  (0 < max_iter self)%nat ->
  Qeq_bool (maths_sign (f (Qmin a b))) (maths_sign (f (Qmax a b))) = false ->
  exists l h : Q,
    call sqrt self f (Some [a; b]) = Ok ((l + h) / 2)
    /\ Qmin a b <= l /\ l <= h /\ h <= Qmax a b
    /\ Qeq_bool (maths_sign (f l)) (maths_sign (f h)) = false
    /\ (h - l <= eps self
        \/ h - l == (Qmax a b - Qmin a b) / 2 ^ Z.of_nat (max_iter self)).
Proof.
  intros Hn Hs. unfold call. cbn [py_min py_max fold_left bind].
  destruct (max_iter self) as [| n] eqn:En; [lia|].
  set (b0 := {| low := Qmin a b; high := Qmax a b;
                f_low := None; f_high := None |}).
  set (b1 := {| low := Qmin a b; high := Qmax a b;
                f_low := Some (f (Qmin a b));
                f_high := Some (f (Qmax a b)) |}).
  assert (He : expand f (seq 0 (S n)) b0 = b1).
  { cbn [seq expand low high b0]. now rewrite Hs. }
  rewrite He.
  assert (Hmm : Qmin a b <= Qmax a b).
  { apply Qle_trans with a; [apply Q.le_min_l | apply Q.le_max_l]. }
  destruct (bisect_ok sqrt (eps self) f (seq 0 (S n)) b1) as [b2 [Hb _]];
    [cbn; discriminate|].
  rewrite Hb. cbn [bind].
  destruct (bisect_within sqrt (eps self) f (seq 0 (S n)) b1 b2 Hmm Hb)
    as [W1 [W2 W3]].
  destruct (bisect_keeps_sign_change (eps self) (seq 0 (S n)) b1 b2 Hmm
              eq_refl Hs Hb) as [_ [K2 K3]].
  exists (low b2), (high b2). split; [reflexivity|].
  repeat split; try assumption.
  rewrite length_seq in K3. exact K3.
Qed.

End Bisection_sign_change.

Section Bisection_orientation.
Import Bisection.
(** X4.  The order in which the two ends of the bracket are given does
    not matter. *)
Theorem Bisection_call_orientation (sqrt : Q -> Q) (self : t) (f : Q -> Q)
  (a b : Q) :
  ~ a == b ->
  call sqrt self f (Some [a; b]) = call sqrt self f (Some [b; a]).
Proof.
  intro Hne. unfold call. cbn [py_min py_max fold_left bind].
  assert (Hmin : Qmin a b = Qmin b a).
  { unfold Qmin, GenericMinMax.gmin.
    destruct (a ?= b) eqn:E1; destruct (b ?= a) eqn:E2; try reflexivity;
      try (apply Qeq_alt in E1; contradiction);
      try (apply Qeq_alt in E2; symmetry in E2; contradiction);
      try (apply Qlt_alt in E1; apply Qlt_alt in E2; lra);
      try (apply Qgt_alt in E1; apply Qgt_alt in E2; lra). }
  assert (Hmax : Qmax a b = Qmax b a).
  { unfold Qmax, GenericMinMax.gmax.
    destruct (a ?= b) eqn:E1; destruct (b ?= a) eqn:E2; try reflexivity;
      try (apply Qeq_alt in E1; contradiction);
      try (apply Qeq_alt in E2; symmetry in E2; contradiction);
      try (apply Qlt_alt in E1; apply Qlt_alt in E2; lra);
      try (apply Qgt_alt in E1; apply Qgt_alt in E2; lra). }
  now rewrite Hmin, Hmax.
Qed.
End Bisection_orientation.

Lemma Bisection_never_crosses_zero_witness :
  exists r : Q,
    Bisection.call sqrt_exact (Bisection.mk (1 # 10) 5 1)
      (fun x => x + 5) (Some [1; 2]) = Ok r
    /\ (0 <= 1 -> 0 <= 2 -> 0 <= r) /\ (1 <= 0 -> 2 <= 0 -> r <= 0).
Proof.
  eexists. split; [vm_compute; reflexivity|].
  apply (Bisection_never_crosses_zero sqrt_exact
           (Bisection.mk (1 # 10) 5 1) (fun x => x + 5) 1 2).
  vm_compute. reflexivity.
Defined.

Lemma Bisection_call_keeps_sign_change_witness :
  exists l h : Q,
    Bisection.call sqrt_exact (Bisection.mk (1 # 10) 50 1) Examples.kink
      (Some [1; 0]) = Ok ((l + h) / 2)
    /\ Qmin 1 0 <= l /\ l <= h /\ h <= Qmax 1 0
    /\ Qeq_bool (maths_sign (Examples.kink l))
         (maths_sign (Examples.kink h)) = false
    /\ (h - l <= 1 # 10
        \/ h - l == (Qmax 1 0 - Qmin 1 0) / 2 ^ Z.of_nat 50).
Proof.
  apply (Bisection_call_keeps_sign_change sqrt_exact sqrt_exact_square
           Examples.kink (Bisection.mk (1 # 10) 50 1) 1 0).
  - cbn. lia.
  - reflexivity.
Defined.

Lemma Bisection_call_orientation_witness :
  Bisection.call sqrt_exact (Bisection.mk (1 # 10) 50 1) Examples.kink
    (Some [0; 1])
  = Bisection.call sqrt_exact (Bisection.mk (1 # 10) 50 1) Examples.kink
      (Some [1; 0]).
Proof.
  apply (Bisection_call_orientation sqrt_exact (Bisection.mk (1 # 10) 50 1)
           Examples.kink 0 1).
  intro H. discriminate H.
Defined.

(** ** More of [FISTA] *)

Section FISTA_more.

Variable sqrt : Q -> Q.

(** X5.  A call of [FISTA] that returns leaves the algorithm object with a
    step set, and unchanged when the step was given; a second call on the
    object it leaves, with the same function and start vector, returns the
    same value and changes nothing more. *)
Theorem FISTA_call_again (self self' : FISTA.t)
  (function : Function.t) (beta : vec) (ret : vec * option (list Q)) :
  FISTA.call sqrt self function beta = Ok (ret, self') ->
  (FISTA.step self <> None -> self' = self)
  /\ FISTA.step self' <> None
  /\ FISTA.call sqrt self' function beta = Ok (ret, self').
Proof.
  intro H. unfold FISTA.call in H.
  apply bind_Ok in H. destruct H as [stp [Hstp H]].
  cbv beta iota zeta in H.
  apply bind_Ok in H. destruct H as [[b fs] [Hloop H]].
  injection H as <- <-.
  split; [|split].
  - intro Hs. destruct self as [[s |] o e ma mi];
      [|cbn in Hs; congruence].
    cbn in Hstp. injection Hstp as <-. reflexivity.
  - cbn. discriminate.
  - unfold FISTA.call. cbn [FISTA.step FISTA.set_step bind].
    change (FISTA.set_step (FISTA.set_step self (Some stp)) (Some stp))
      with (FISTA.set_step self (Some stp)).
    cbn [FISTA.max_iter FISTA.output FISTA.set_step] in *.
    unfold FISTA.set_step in *.
    cbn [FISTA.max_iter FISTA.output FISTA.eps FISTA.min_iter] in *.
    rewrite Hloop. reflexivity.
Qed.

(** X6.  With a non-zero step (given, or [1 / L] of a non-zero [L]) and
    [output] set, [FISTA] returns, and the list [f] of the output has one
    entry per iteration made: at most [max_iter] and at least the smaller
    of [min_iter] and [max_iter]. *)
Theorem FISTA_call_iterations (self : FISTA.t) (function : Function.t)
  (beta : vec) :
  match FISTA.step self with
  | Some s => ~ s == 0
  | None => ~ Function.L function == 0
  end ->
  FISTA.output self = true ->
  exists (b : vec) (fs : list Q) (self' : FISTA.t),
    FISTA.call sqrt self function beta = Ok ((b, Some fs), self')
    /\ (Nat.min (FISTA.min_iter self) (FISTA.max_iter self) <= length fs)%nat
    /\ (length fs <= FISTA.max_iter self)%nat.
Proof.
  intros Hstep Hout.
  assert (Hstp : ~ Spec.fista_step (FISTA.step self) function == 0).
  { unfold Spec.fista_step. destruct (FISTA.step self); [exact Hstep|].
    intro H0. apply Hstep.
    destruct (Qeq_dec (Function.L function) 0) as [E | E]; [exact E|].
    exfalso. assert (H1 : 1 == 1 / Function.L function * Function.L function)
      by (field; exact E).
    rewrite H0 in H1. lra. }
  clear Hstep.
  set (stp := Spec.fista_step (FISTA.step self) function) in *.
  destruct (FISTA_loop_spec sqrt (FISTA.set_step self (Some stp)) stp
              function beta Hstp (FISTA.max_iter self) 0%nat [])
    as [n [Hloop [Hrange [_ Hbrk]]]].
  cbn [Spec.fista_iterates fst snd] in Hloop.
  change (FISTA.output (FISTA.set_step self (Some stp)))
    with (FISTA.output self) in Hloop.
  change (FISTA.min_iter (FISTA.set_step self (Some stp)))
    with (FISTA.min_iter self) in Hbrk.
  rewrite Hout in Hloop.
  eexists. eexists. eexists. split.
  - unfold FISTA.call.
    assert (Hres : match FISTA.step self with
                   | Some s => Ok s
                   | None => py_div 1 (Function.L function)
                   end = Ok stp).
    { unfold stp, Spec.fista_step in *.
      destruct (FISTA.step self); [reflexivity|].
      apply py_div_ok. intro HL. apply Hstp. rewrite HL. reflexivity. }
    rewrite Hres. cbn [bind].
    change (FISTA.max_iter (FISTA.set_step self (Some stp)))
      with (FISTA.max_iter self).
    rewrite Hloop. cbn [bind].
    change (FISTA.output (FISTA.set_step self (Some stp)))
      with (FISTA.output self).
    rewrite Hout. reflexivity.
  - unfold Spec.recorded. cbn [app]. rewrite length_map, length_seq.
    split; [|lia].
    destruct (Nat.lt_ge_cases n (0 + FISTA.max_iter self)) as [Hlt | Hge];
      [|lia].
    destruct (Hbrk Hlt) as [Hpos Hstop].
    destruct n as [| n']; [lia|]. cbn [Spec.fista_stop] in Hstop.
    destruct (Spec.fista_iterates function stp beta n').
    destruct Hstop as [_ Hmin]. lia.
Qed.

End FISTA_more.

(** ** Runs of [CONESTA] *)

Section CONESTA_runs.

Import CONESTA.

Variable TOLERANCE : Q.
Variable sqrt : Q -> Q.
Variable function : NesterovFunction.t.

(** What a pass that ends with [break] leaves untouched, and the list [mu]
    after a pass without output. *)
Lemma CONESTA_iter_frame (st st' : state) (brk : bool) :
  iter TOLERANCE sqrt function st = Ok (brk, st') ->
  output (self st') = output (self st)
  /\ (brk = true ->
      i st' = i st /\ mu st' = mu st
      /\ mu_min (self st') = Qmin (mu_min (self st)) (mu_last (mu st)))
  /\ (brk = false -> output (self st) = false ->
      mu st' = mu st ++ [Qmax (mu_min (self st')) (fmu st')]).
Proof.
  unfold iter. intro H. cbv beta iota zeta in H.
  apply bind_Ok in H. destruct H as [tnew [_ H]].
  apply bind_Ok in H. destruct H as [rf [_ H]]. destruct rf as [ret fista].
  cbv beta iota zeta in H.
  apply bind_Ok in H. destruct H as [bf [_ H]]. destruct bf as [b fval].
  cbv beta iota zeta in H.
  apply bind_Ok in H. destruct H as [inv [_ H]].
  apply bind_Ok in H. destruct H as [un [_ H]].
  match type of H with
  | (if ?c then _ else _) = _ => destruct c
  end; injection H as <- <-; cbn.
  - repeat split; try reflexivity; discriminate.
  - repeat split; try reflexivity; try discriminate.
    intros _ Ho. now rewrite Ho.
Qed.

(** X7.  A run of [CONESTA] that returns has raised its counter [i] at
    most [continuations] times, so it has called [FISTA] at most
    [continuations + 1] times; without output the list [mu] has one entry
    per such call. *)
Theorem CONESTA_call_continuations (alg : t) (fmu0 : Q) (beta0 : vec)
  (st : state) :
  call TOLERANCE sqrt alg function fmu0 beta0 = Ok st ->
  (i st <= continuations alg)%nat
  /\ (output alg = false -> length (mu st) = S (i st)).
Proof.
  unfold call. intro H.
  apply bind_Ok in H. destruct H as [st0 [Hs H]].
  assert (H0 : i st0 = 0%nat /\ length (mu st0) = 1%nat /\ self st0 = alg).
  { unfold start in Hs. apply bind_Ok in Hs. destruct Hs as [tm [_ Hs]].
    injection Hs as <-. cbn. auto. }
  destruct H0 as [Hi0 [Hm0 Hself]].
  assert (Hgen : forall fuel s s',
            loop TOLERANCE sqrt fuel function s = Ok s' ->
            (i s <= continuations (self s))%nat ->
            (i s' <= continuations (self s))%nat
            /\ (output (self s) = false -> length (mu s) = S (i s) ->
                length (mu s') = S (i s'))).
  { induction fuel as [| fuel IH]; intros s s' Hl Hle; [discriminate|].
    cbn [loop] in Hl.
    destruct (iter TOLERANCE sqrt function s) as [[brk s1] | e] eqn:E;
      cbn [bind] in Hl; [|discriminate].
    destruct (CONESTA_iter_inv TOLERANCE sqrt function s s1 brk E)
      as [_ [_ [_ [Hc [Hi _]]]]].
    destruct (CONESTA_iter_frame s s1 brk E) as [Ho [Hb Hn]].
    destruct brk.
    - injection Hl as <-. destruct (Hb eq_refl) as [Hi1 [Hm1 _]].
      rewrite Hi1, Hm1. split; [exact Hle | auto].
    - destruct (Hi eq_refl) as [Hi1 Hi2].
      destruct (IH s1 s' Hl) as [G1 G2]; [rewrite Hc, Hi1; lia|].
      rewrite Hc in G1. split; [exact G1|].
      intros Hout Hlen. apply G2; [now rewrite Ho|].
      rewrite (Hn eq_refl Hout), length_app, Hlen, Hi1. cbn. lia. }
  destruct (Hgen _ _ _ H) as [G1 G2]; [rewrite Hi0; lia|].
  rewrite Hself in G1, G2. split; [exact G1|].
  intro Ho. apply G2; [exact Ho | now rewrite Hm0, Hi0].
Qed.

(** X8.  The static variant multiplies the gap estimate by [tau] once per
    pass of the loop: a run that returns after raising [i] to its last value
    ends with [G = tau ** (i + 1)] times the first estimate
    [min(eps_max(mu[0]), eps_opt(mu[0]))]. *)
Theorem CONESTA_static_decay (alg : t) (fmu0 : Q) (beta0 : vec)
  (st0 st : state) :
  dynamic alg = false ->
  start alg function fmu0 beta0 = Ok st0 ->
  call TOLERANCE sqrt alg function fmu0 beta0 = Ok st ->
  G st = Nat.iter (S (i st)) (Qmult (tau alg)) (G st0).
Proof.
  intros Hd Hs H. unfold call in H. rewrite Hs in H. cbn [bind] in H.
  assert (H0 : i st0 = 0%nat /\ self st0 = alg).
  { unfold start in Hs. apply bind_Ok in Hs. destruct Hs as [tm [_ Hs]].
    injection Hs as <-. cbn. auto. }
  destruct H0 as [Hi0 Hself].
  assert (Hgen : forall fuel s s',
            loop TOLERANCE sqrt fuel function s = Ok s' ->
            dynamic (self s) = false ->
            forall g0, G s = Nat.iter (i s) (Qmult (tau (self s))) g0 ->
            G s' = Nat.iter (S (i s')) (Qmult (tau (self s))) g0).
  { induction fuel as [| fuel IH]; intros s s' Hl Hdyn g0 Hg; [discriminate|].
    cbn [loop] in Hl.
    destruct (iter TOLERANCE sqrt function s) as [[brk s1] | e] eqn:E;
      cbn [bind] in Hl; [|discriminate].
    destruct (CONESTA_iter_inv TOLERANCE sqrt function s s1 brk E)
      as [HG [Ht [Hdy [_ [Hi _]]]]].
    destruct (CONESTA_iter_frame s s1 brk E) as [_ [Hb _]].
    unfold update_G in HG. rewrite Hdyn in HG.
    destruct brk.
    - injection Hl as <-. destruct (Hb eq_refl) as [Hi1 _].
      rewrite HG, Hi1, Hg. reflexivity.
    - destruct (Hi eq_refl) as [Hi1 _].
      rewrite <- Ht.
      apply (IH s1 s' Hl); [now rewrite Hdy|].
      rewrite HG, Hi1, Hg, Ht. reflexivity. }
  subst alg.
  apply (Hgen _ _ _ H); [exact Hd | now rewrite Hi0].
Qed.

Lemma descending_app (l : list Q) (v : Q) :
  Inv.descending l -> v <= mu_last l -> l <> [] -> Inv.descending (l ++ [v]).
Proof.
  induction l as [| a l IH]; intros Hd Hv Hne; [congruence|].
  destruct l as [| b l].
  - cbn in *. split; [exact Hv | exact I].
  - cbn [app Inv.descending] in *. destruct Hd as [Hba Hd].
    split; [exact Hba|]. apply IH; [exact Hd | exact Hv | discriminate].
Qed.

Lemma mu_last_app1 (l : list Q) (v : Q) : mu_last (l ++ [v]) = v.
Proof. unfold mu_last. apply last_last. Qed.

Lemma descending_app_repeat (l : list Q) (v : Q) (n : nat) :
  Inv.descending l -> v <= mu_last l -> l <> [] ->
  Inv.descending (l ++ repeat v n).
Proof.
  induction n as [| n IH]; intros Hd Hv Hne.
  - cbn. now rewrite app_nil_r.
  - cbn [repeat]. rewrite repeat_cons, app_assoc.
    destruct n as [| n'].
    + cbn [repeat]. rewrite app_nil_r. now apply descending_app.
    + apply descending_app.
      * now apply IH.
      * rewrite mu_last_app_repeat by lia. lra.
      * destruct l; [congruence | discriminate].
Qed.

(** Every entry of a list that never increases is at least the last one
    and at most the first one. *)
Lemma descending_bounds (l : list Q) :
  Inv.descending l ->
  forall m, In m l -> mu_last l <= m /\ m <= hd 0 l.
Proof.
  induction l as [| a l IH]; intros Hd m Hin; [contradiction|].
  destruct l as [| b l].
  - destruct Hin as [<- | []]. cbn. lra.
  - cbn [Inv.descending] in Hd. destruct Hd as [Hba Hd].
    specialize (IH Hd).
    change (mu_last (a :: b :: l)) with (mu_last (b :: l)).
    cbn [hd] in *. destruct Hin as [<- | Hin].
    + destruct (IH b (or_introl eq_refl)) as [H1 _]. lra.
    + destruct (IH m Hin) as [H1 H2]. lra.
Qed.

(** X9.  Along a run of [CONESTA] the smoothing constants never
    increase: the list [mu] is in descending order, the run never raises
    [self.mu_min], and every entry of [mu] lies between the [self.mu_min]
    the run leaves and the first entry [mu[0]]. *)
Theorem CONESTA_mu_never_increases (alg : t) (fmu0 : Q) (beta0 : vec)
  (st : state) :
  call TOLERANCE sqrt alg function fmu0 beta0 = Ok st ->
  Inv.descending (mu st)
  /\ mu_min (self st) <= mu_min alg
  /\ (forall m, In m (mu st) ->
        mu_min (self st) <= m /\ m <= hd 0 (mu st)).
Proof.
  unfold call. intro H.
  apply bind_Ok in H. destruct H as [st0 [Hs H]].
  assert (H0 : (exists m0, mu st0 = [m0]) /\ self st0 = alg).
  { unfold start in Hs. apply bind_Ok in Hs. destruct Hs as [tm [_ Hs]].
    injection Hs as <-. cbn. split; [eexists|]; reflexivity. }
  destruct H0 as [[m0 Hm0] Hself].
  assert (Hgen : forall fuel s s',
            loop TOLERANCE sqrt fuel function s = Ok s' ->
            Inv.descending (mu s) -> mu s <> [] ->
            Inv.descending (mu s') /\ mu s' <> []
            /\ mu_min (self s') <= mu_min (self s)
            /\ mu_min (self s') <= mu_last (mu s')).
  { induction fuel as [| fuel IH]; intros s s' Hl Hd Hne; [discriminate|].
    cbn [loop] in Hl.
    destruct (iter TOLERANCE sqrt function s) as [[brk s1] | e] eqn:E;
      cbn [bind] in Hl; [|discriminate].
    destruct (CONESTA_iter_inv TOLERANCE sqrt function s s1 brk E)
      as [_ [_ [_ [_ [_ Hc]]]]].
    destruct (CONESTA_iter_frame s s1 brk E) as [_ [Hb _]].
    destruct brk.
    - injection Hl as <-. destruct (Hb eq_refl) as [_ [Hm1 Hmin]].
      rewrite Hm1, Hmin. repeat split; try assumption;
        [apply Q.le_min_l | apply Q.le_min_r].
    - destruct (Hc eq_refl) as [Hf [Hmin [n [Hn Hmu]]]].
      assert (Hle : mu_min (self s1) <= fmu s1)
        by (rewrite Hmin; apply Q.le_min_r).
      assert (Hv : Qmax (mu_min (self s1)) (fmu s1) <= mu_last (mu s)).
      { rewrite Q.max_r by exact Hle. rewrite Hf. apply Q.le_min_l. }
      destruct (IH s1 s' Hl) as [G1 [G2 [G3 G4]]].
      + rewrite Hmu. now apply descending_app_repeat.
      + rewrite Hmu. destruct (mu s); [congruence | discriminate].
      + repeat split; try assumption.
        apply Qle_trans with (mu_min (self s1)); [exact G3|].
        rewrite Hmin.
        apply Qle_trans with (Qmin (mu_min (self s)) (mu_last (mu s)));
          apply Q.le_min_l. }
  destruct (Hgen _ _ _ H) as [G1 [G2 [G3 G4]]];
    [rewrite Hm0; exact I | rewrite Hm0; discriminate|].
  rewrite Hself in G3. split; [exact G1|]. split; [exact G3|].
  intros m Hin. destruct (descending_bounds (mu st) G1 m Hin) as [B1 B2].
  split; [lra | exact B2].
Qed.

End CONESTA_runs.

(** ** More of [ExcessiveGapMethod] *)

(** The smoothing constants of the excessive gap method in closed form. *)
Lemma egm_mu_closed_form (L : Q) (k : nat) :
  Spec.egm_mu L k
  == 4 * L / ((inject_Z (Z.of_nat k) + 1) * (inject_Z (Z.of_nat k) + 2)).
Proof.
  induction k as [| k IH].
  - cbn. field.
  - cbn [Spec.egm_mu]. rewrite IH.
    rewrite Nat2Z.inj_succ. unfold Z.succ. rewrite inject_Z_plus.
    assert (H : 0 <= inject_Z (Z.of_nat k)).
    { change 0 with (inject_Z 0). rewrite <- Zle_Qle. lia. }
    change (inject_Z 1) with 1.
    field. repeat split; lra.
Qed.

Section EGM_more.

Import ExcessiveGapMethod.

Variable self : ExcessiveGapMethod.t.
Variable fn : ExcessiveGapMethod.function.
Variable hmu0 : muval.

Hypothesis alpha_blocks :
  forall m b, length (h_alpha fn m b) = length (A_rows fn).
Hypothesis V_blocks :
  forall m u b L, length u = length (A_rows fn) ->
                  length (V fn m u b L) = length (A_rows fn).

(** X10.  The smoothing constants of a run of the excessive gap method do
    not depend on the data: the list [mu] has [k + 2] entries and its entry
    [j] is [4 L / ((j + 1) (j + 2))], for [L] the Lipschitz constant the
    objective reports at the start. *)
Theorem EGM_mu_closed_form :
  exists st : state,
    call self fn hmu0 = Ok st
    /\ length (mu st) = (k st + 2)%nat
    /\ (forall (j : nat) (m : Q),
          nth_error (mu st) j = Some m ->
          m == 4 * L fn hmu0
               / ((inject_Z (Z.of_nat j) + 1) * (inject_Z (Z.of_nat j) + 2))).
Proof.
  assert (Hinv : Inv.egm fn (L fn hmu0) (start fn hmu0)).
  { unfold Inv.egm, start. cbn. repeat split.
    - now rewrite length_map.
    - apply V_blocks. now rewrite length_map. }
  destruct (EGM_loop_spec self fn hmu0 alpha_blocks V_blocks
              (S (max_iter self)) (start fn hmu0) Hinv)
    as [st [Hloop [Hmu _]]]; [lia | cbn; lia |].
  exists st. split; [exact Hloop|]. split.
  - rewrite Hmu, length_map, length_seq. lia.
  - intros j m Hj. rewrite Hmu in Hj.
    assert (Hlt : (j < S (S (k st)))%nat).
    { assert (Hs : nth_error (map (Spec.egm_mu (L fn hmu0))
                                 (seq 0 (S (S (k st))))) j <> None)
        by congruence.
      apply nth_error_Some in Hs.
      now rewrite length_map, length_seq in Hs. }
    rewrite nth_error_map_seq in Hj by exact Hlt. injection Hj as <-.
    apply egm_mu_closed_form.
Qed.

(** X11.  For an objective whose [h.alpha] and [V] return one block per
    operator and whose [h.M()] is the constant [M], the run of the
    excessive gap method returns with its counter [k] at most [max_iter].
    The body of the loop has then run [k + 1] times, once for every entry
    of [mu] after the first: at most [max_iter + 1] times, and once even
    for [max_iter = 0].  The pass with counter [j] is followed by another
    one only while [eps <= 4 L M / ((j + 2) (j + 3))]. *)
Theorem EGM_iteration_bound (M : Q) :
  (forall m, h_M fn m == M) ->
  exists st : state,
    call self fn hmu0 = Ok st
    /\ (k st <= max_iter self)%nat
    /\ length (mu st) = (1 + (k st + 1))%nat
    /\ (forall j, (j < k st)%nat ->
          eps self
          <= 4 * L fn hmu0 * M
             / ((inject_Z (Z.of_nat j) + 2) * (inject_Z (Z.of_nat j) + 3))).
Proof.
  intro HM.
  assert (Hinv : Inv.egm fn (L fn hmu0) (start fn hmu0)).
  { unfold Inv.egm, start. cbn. repeat split.
    - now rewrite length_map.
    - apply V_blocks. now rewrite length_map. }
  destruct (EGM_loop_spec self fn hmu0 alpha_blocks V_blocks
              (S (max_iter self)) (start fn hmu0) Hinv)
    as [st [Hloop [Hmu [_ [Hstop Hnot]]]]]; [lia | cbn; lia |].
  exists st. split; [exact Hloop|].
  assert (Hk : (k st <= max_iter self)%nat).
  { destruct (Nat.le_gt_cases (k st) (max_iter self)) as [H | H];
      [exact H|].
    exfalso. apply (Hnot (max_iter self)); [cbn; lia|].
    right. lia. }
  split; [exact Hk|].
  split; [rewrite Hmu, length_map, length_seq; lia|].
  intros j Hj.
  assert (Hn : ~ Spec.egm_stop (L fn hmu0) (fun m => h_M fn (MuFloat m))
                 (eps self) (max_iter self) j)
    by (apply Hnot; cbn; lia).
  unfold Spec.egm_stop in Hn.
  assert (Hge : eps self
                <= Spec.egm_mu (L fn hmu0) (S j)
                   * h_M fn (MuFloat (Spec.egm_mu (L fn hmu0) j))).
  { apply Qnot_lt_le. intro Hlt. apply Hn. now left. }
  rewrite HM, egm_mu_closed_form in Hge.
  rewrite Nat2Z.inj_succ in Hge. unfold Z.succ in Hge.
  rewrite inject_Z_plus in Hge. change (inject_Z 1) with 1 in Hge.
  assert (H0 : 0 <= inject_Z (Z.of_nat j)).
  { change 0 with (inject_Z 0). rewrite <- Zle_Qle. lia. }
  eapply Qle_trans; [exact Hge|]. apply Qle_lteq. right.
  field. split; lra.
Qed.

End EGM_more.

(** ** parsimony/functions/penalties.py: [L1] and [L2] *)

Section Penalties_more.

Import Penalties.
Import PenaltiesL2.

(** The three cases of the soft threshold. *)
Lemma shrink_cases (t b : Q) :
  0 <= t ->
  (t < b /\ shrink t b == b - t)
  \/ (b < - t /\ shrink t b == b + t)
  \/ (- t <= b /\ b <= t /\ shrink t b == 0).
Proof.
  intro Ht. unfold shrink.
  destruct (Qlt_le_dec t b) as [H1 | H1].
  - left. split; [exact H1|].
    assert (E : Qltb t (Qabs b) = true).
    { apply Qltb_lt. rewrite Qabs_pos by lra. exact H1. }
    rewrite E, (sign_pos (b - t)) by lra. ring.
  - destruct (Qlt_le_dec b (- t)) as [H2 | H2].
    + right. left. split; [exact H2|].
      assert (E : Qltb t (Qabs b) = true).
      { apply Qltb_lt. rewrite Qabs_neg by lra. lra. }
      rewrite E, (sign_neg (b - t)) by lra. ring.
    + right. right. split; [exact H2|]. split; [exact H1|].
      assert (E : Qltb t (Qabs b) = false).
      { apply Qltb_ge. apply Qabs_case; intros; lra. }
      rewrite E. ring.
Qed.

Lemma shrink_nonexpansive (t a b : Q) :
  0 <= t -> Qabs (shrink t a - shrink t b) <= Qabs (a - b).
Proof.
  intro Ht.
  destruct (shrink_cases t a Ht) as [[A1 A2] | [[A1 A2] | [A1 [A3 A2]]]];
    destruct (shrink_cases t b Ht) as [[B1 B2] | [[B1 B2] | [B1 [B3 B2]]]];
    rewrite A2, B2;
    apply Qabs_case; intro; apply Qabs_case; intro; lra.
Qed.

Lemma shrink_le (t b : Q) : 0 <= t -> Qabs (shrink t b) <= Qabs b.
Proof.
  intro Ht.
  destruct (shrink_cases t b Ht) as [[A1 A2] | [[A1 A2] | [A1 [A3 A2]]]];
    rewrite A2; apply Qabs_case; intro; apply Qabs_case; intro; lra.
Qed.

Lemma Qmult_le_nonneg_l (z x y : Q) : 0 <= z -> x <= y -> z * x <= z * y.
Proof.
  intros Hz Hxy. rewrite (Qmult_comm z x), (Qmult_comm z y).
  now apply Qmult_le_compat_r.
Qed.

Lemma norm1_cons (a : Q) (v : vec) : norm1 (a :: v) = Qabs a + norm1 v.
Proof. reflexivity. Qed.

Lemma norm1_nonneg (v : vec) : 0 <= norm1 v.
Proof.
  induction v as [| a v IH]; [cbn; lra|].
  rewrite norm1_cons. pose proof (Qabs_nonneg a). lra.
Qed.

(** A map that is non-expansive entry by entry, applied from an index on,
    does not increase the L1 distance. *)
Lemma norm1_vsub_from (g : Q -> Q) :
  (forall a b, Qabs (g a - g b) <= Qabs (a - b)) ->
  forall (x y : vec) (ps : nat),
    length x = length y ->
    norm1 (vsub (firstn ps x ++ map g (skipn ps x))
                (firstn ps y ++ map g (skipn ps y)))
    <= norm1 (vsub x y).
Proof.
  intros Hg. induction x as [| a x IH]; intros y ps Hlen.
  - destruct y; [|discriminate]. destruct ps; cbn; lra.
  - destruct y as [| b y]; [discriminate|]. injection Hlen as Hlen.
    destruct ps as [| ps].
    + specialize (IH y 0%nat Hlen). cbn [firstn skipn app] in IH |- *.
      cbn [map]. unfold vsub in *. cbn [map2]. rewrite !norm1_cons.
      pose proof (Hg a b). lra.
    + specialize (IH y ps Hlen). cbn [firstn skipn app].
      unfold vsub in *. cbn [map2]. rewrite !norm1_cons. lra.
Qed.

(** X12.  [L1.prox] with a non-negative threshold is non-expansive in
    the L1 norm: two vectors of one shape are not moved apart. *)
Theorem L1_prox_nonexpansive (self : L1) (x y : vec) (factor : Q) :
  0 <= l self * factor ->
  length x = length y ->
  norm1 (vsub (L1_prox self x factor) (L1_prox self y factor))
  <= norm1 (vsub x y).
Proof.
  intros Ht Hlen. unfold L1_prox. rewrite !penalised_skipn.
  apply norm1_vsub_from; [|exact Hlen].
  intros a b. now apply shrink_nonexpansive.
Qed.

Lemma norm1_map_shrink_le (t : Q) (v : vec) :
  0 <= t -> norm1 (map (shrink t) v) <= norm1 v.
Proof.
  intro Ht. induction v as [| a v IH]; [cbn; lra|].
  cbn [map]. rewrite !norm1_cons. pose proof (shrink_le t a Ht). lra.
Qed.

Lemma penalised_L1_prox (self : L1) (beta : vec) (factor : Q) :
  penalised self (L1_prox self beta factor)
  = map (shrink (l self * factor)) (penalised self beta).
Proof.
  unfold L1_prox. rewrite !penalised_skipn.
  set (ps := penalty_start self).
  destruct (Nat.le_gt_cases ps (length beta)) as [Hle | Hgt].
  - rewrite skipn_app, firstn_length_le by exact Hle.
    rewrite Nat.sub_diag. cbn [skipn].
    rewrite skipn_all2; [reflexivity|]. rewrite firstn_length_le; lia.
  - rewrite (skipn_all2 beta) by lia. cbn [map]. rewrite app_nil_r.
    apply skipn_all2. rewrite length_firstn. lia.
Qed.

(** X13.  [L1.prox] with non-negative [l] and [factor] keeps the shape of
    the vector, does not increase the penalty [L1.f], and sets every
    penalised entry whose magnitude is at most [l * factor] to zero. *)
Theorem L1_prox_decreases_penalty (self : L1) (beta : vec) (factor : Q) :
  0 <= l self -> 0 <= factor ->
  L1_f self (L1_prox self beta factor) <= L1_f self beta
  /\ length (L1_prox self beta factor) = length beta
  /\ Forall2 (fun b r => Qabs b <= l self * factor -> r == 0)
       (penalised self beta) (penalised self (L1_prox self beta factor)).
Proof.
  intros Hl Hf.
  assert (Ht : 0 <= l self * factor) by (apply Qmult_le_0_compat; assumption).
  split; [|split].
  - unfold L1_f. rewrite penalised_L1_prox.
    pose proof (norm1_map_shrink_le (l self * factor)
                  (penalised self beta) Ht) as Hn.
    apply Qmult_le_nonneg_l; [exact Hl | lra].
  - unfold L1_prox. rewrite penalised_skipn, length_app, length_map.
    rewrite <- length_app, firstn_skipn. reflexivity.
  - rewrite penalised_L1_prox.
    induction (penalised self beta) as [| b v IH]; cbn [map]; constructor;
      [|exact IH].
    intro Hb.
    destruct (shrink_cases (l self * factor) b Ht)
      as [[A1 A2] | [[A1 A2] | [A1 [A3 A2]]]]; [| |exact A2];
      revert Hb; apply Qabs_case; intros; lra.
Qed.

Lemma shrink_zero (b : Q) : shrink 0 b == b.
Proof.
  destruct (shrink_cases 0 b) as [[A1 A2] | [[A1 A2] | [A1 [A3 A2]]]];
    try rewrite A2; lra.
Qed.

Lemma shrink_antitone (s t b : Q) :
  0 <= s -> s <= t -> Qabs (shrink t b) <= Qabs (shrink s b).
Proof.
  intros Hs Hst.
  destruct (shrink_cases s b Hs) as [[A1 A2] | [[A1 A2] | [A1 [A3 A2]]]];
    destruct (shrink_cases t b) as [[B1 B2] | [[B1 B2] | [B1 [B3 B2]]]];
    try lra; rewrite A2, B2;
    repeat (apply Qabs_case; intro); lra.
Qed.

Lemma norm1_map_Qeq (g h : Q -> Q) (v : vec) :
  (forall b, g b == h b) -> norm1 (map g v) == norm1 (map h v).
Proof.
  intro H. induction v as [| a v IH]; [reflexivity|].
  cbn [map]. rewrite !norm1_cons, IH, (H a). reflexivity.
Qed.

Lemma fold_left_Qmax_ge (v : list Q) :
  forall a : Q,
    a <= fold_left Qmax v a /\ Forall (fun b => b <= fold_left Qmax v a) v.
Proof.
  induction v as [| b v IH]; intro a; cbn [fold_left].
  - split; [lra | constructor].
  - destruct (IH (Qmax a b)) as [H1 H2].
    pose proof (Q.le_max_l a b). pose proof (Q.le_max_r a b).
    split; [lra|]. constructor; [lra | exact H2].
Qed.

(** X14.  The function [F.f] whose root [L1.proj] looks for: at the
    threshold 0 it is [norm1(beta) - c], it does not increase with the
    threshold, and at the upper end [max(abs(beta))] of the bracket it is
    [-c]. *)
Theorem L1_proj_function_decreases (beta : vec) (c0 s t m : Q) :
  0 <= s -> s <= t -> py_max (vabs beta) = Ok m ->
  F_f beta c0 0 == norm1 beta - c0
  /\ F_f beta c0 t <= F_f beta c0 s
  /\ F_f beta c0 m == - c0.
Proof.
  intros Hs Hst Hm. unfold F_f. split; [|split].
  - rewrite (norm1_map_Qeq (shrink 0) (fun b => b) beta shrink_zero).
    rewrite map_id. reflexivity.
  - assert (H : norm1 (map (shrink t) beta) <= norm1 (map (shrink s) beta)).
    { clear Hm. induction beta as [| b v IH]; [cbn; lra|].
      cbn [map]. rewrite !norm1_cons.
      pose proof (shrink_antitone s t b Hs Hst). lra. }
    lra.
  - assert (Hall : Forall (fun b => Qabs b <= m) beta /\ 0 <= m).
    { destruct beta as [| b v]; [discriminate|].
      cbn [vabs map py_max] in Hm. injection Hm as <-.
      destruct (fold_left_Qmax_ge (map Qabs v) (Qabs b)) as [H1 H2].
      pose proof (Qabs_nonneg b). split; [|lra].
      constructor; [exact H1|].
      rewrite Forall_map in H2. exact H2. }
    destruct Hall as [Hall Hm0]. clear Hm.
    assert (H : norm1 (map (shrink m) beta) == 0).
    { induction Hall as [| b v Hb Hv IH]; [reflexivity|].
      cbn [map]. rewrite norm1_cons, IH.
      destruct (shrink_cases m b Hm0) as [[A1 A2] | [[A1 A2] | [A1 [A3 A2]]]];
        [| |rewrite A2; reflexivity];
        revert Hb; apply Qabs_case; intros; lra. }
    rewrite H. ring.
Qed.

Lemma sumsq_cons (a : Q) (v : vec) : sumsq (a :: v) = a * a + sumsq v.
Proof. reflexivity. Qed.

Lemma sumsq_nonneg (v : vec) : 0 <= sumsq v.
Proof.
  induction v as [| a v IH]; [cbn; lra|].
  rewrite sumsq_cons. nra.
Qed.

Lemma sumsq_vscale (s : Q) (v : vec) :
  sumsq (vscale s v) == s * s * sumsq v.
Proof.
  induction v as [| a v IH]; [cbn; ring|].
  unfold vscale in *. cbn [map]. rewrite !sumsq_cons, IH. ring.
Qed.

Lemma l2_penalised_skipn (self : L2) (beta : vec) :
  l2_penalised self beta = skipn (l2_penalty_start self) beta.
Proof.
  unfold l2_penalised. destruct (l2_penalty_start self); reflexivity.
Qed.

(** The penalised part of a vector whose prefix is kept. *)
Lemma skipn_firstn_app (ps : nat) (beta tail : vec) :
  length tail = length (skipn ps beta) ->
  skipn ps (firstn ps beta ++ tail) = tail
  /\ firstn ps (firstn ps beta ++ tail) = firstn ps beta.
Proof.
  intro Hlen.
  destruct (Nat.le_gt_cases ps (length beta)) as [Hle | Hgt].
  - rewrite skipn_app, firstn_app, firstn_length_le by exact Hle.
    rewrite Nat.sub_diag. cbn [skipn firstn]. rewrite app_nil_r.
    rewrite skipn_all2 by (rewrite firstn_length_le; lia).
    split; [reflexivity|]. apply firstn_all2.
    rewrite firstn_length_le; lia.
  - rewrite (skipn_all2 beta) in Hlen by lia.
    destruct tail; [|discriminate]. rewrite app_nil_r.
    split; [apply skipn_all2 | apply firstn_all2];
      rewrite length_firstn; lia.
Qed.

Section L2_proj.

Variable sqrt : Q -> Q.


End L2_proj.

Lemma L2_prox_condition (factor k d : Q) :
  ~ d == 0 -> d == 1 + factor * k ->
  forall (beta : vec) (ps : nat),
    Forall2 Qeq
      (vadd (firstn ps beta ++ ProxOps.scaled (skipn ps beta) d)
         (vscale factor
            (zeros ps ++ vscale k (ProxOps.scaled (skipn ps beta) d))))
      beta.
Proof.
  intros Hd Hk. unfold vadd, vscale, ProxOps.scaled, zeros.
  induction beta as [| a beta IH]; intros ps.
  - destruct ps; cbn; constructor.
  - destruct ps as [| ps].
    + specialize (IH 0%nat). cbn [firstn skipn app repeat map map2] in *.
      constructor; [|exact IH]. rewrite Hk. field. rewrite <- Hk. exact Hd.
    + specialize (IH ps). cbn [firstn skipn app repeat map map2] in *.
      constructor; [ring | exact IH].
Qed.

Lemma sumsq_scaled_le (v : vec) (d : Q) :
  1 <= d -> sumsq (ProxOps.scaled v d) <= sumsq v.
Proof.
  intro Hd. unfold ProxOps.scaled.
  induction v as [| b v IH]; [cbn; lra|].
  cbn [map]. rewrite !sumsq_cons.
  assert (Hb : b / d * (b / d) <= b * b).
  { assert (Hq : b == (b / d) * d) by (field; lra).
    set (q := b / d) in *.
    assert (Hbb : b * b == q * q * (d * d))
      by (transitivity ((q * d) * (q * d));
          [rewrite <- Hq; reflexivity | ring]).
    assert (Hdd : 1 <= d * d) by nra.
    assert (Hqq : 0 <= q * q) by nra.
    rewrite Hbb. nra. }
  lra.
Qed.

(** X16.  [L2.prox] with non-negative [l] and [factor] returns the point
    [r] with [r + factor * grad(r) = beta], entry by entry, which is what
    defines the proximal operator of a differentiable function; it keeps the
    rows that are not penalised and does not increase [L2.f]. *)
Theorem L2_prox_resolvent (self : L2) (beta : vec) (factor : Q) :
  0 <= l2_l self -> 0 <= factor ->
  exists r : vec,
    L2_prox self beta factor = Ok r
    /\ firstn (l2_penalty_start self) r
       = firstn (l2_penalty_start self) beta
    /\ Forall2 Qeq (vadd r (vscale factor (L2_grad self r))) beta
    /\ L2_f self r <= L2_f self beta.
Proof.
  intros Hl Hf.
  assert (Ht : 0 <= l2_l self * factor)
    by (apply Qmult_le_0_compat; assumption).
  set (d := 1 + 2 * (l2_l self * factor)).
  assert (Hd : 1 <= d) by (unfold d; lra).
  unfold L2_prox, ProxOps.np_div. fold d.
  destruct (Qeq_bool d 0) eqn:E; [apply Qeq_bool_iff in E; lra|].
  cbn [bind].
  set (r := firstn (l2_penalty_start self) beta
            ++ ProxOps.scaled (l2_penalised self beta) d).
  assert (Hpen : l2_penalised self r
                 = ProxOps.scaled (l2_penalised self beta) d
                 /\ firstn (l2_penalty_start self) r
                    = firstn (l2_penalty_start self) beta).
  { unfold r. rewrite !l2_penalised_skipn. apply skipn_firstn_app.
    unfold ProxOps.scaled. now rewrite length_map. }
  destruct Hpen as [Hpen Hfst].
  exists r. split; [reflexivity|]. split; [exact Hfst|]. split.
  - unfold L2_grad. rewrite Hpen. unfold r.
    rewrite l2_penalised_skipn.
    apply L2_prox_condition; [lra | unfold d; ring].
  - unfold L2_f. rewrite Hpen.
    apply Qmult_le_nonneg_l; [exact Hl|].
    pose proof (sumsq_scaled_le (l2_penalised self beta) d Hd) as Hs.
    lra.
Qed.

Lemma skipn_map2 {A B C : Type} (g : A -> B -> C) (n : nat) :
  forall (u : list A) (v : list B),
    skipn n (map2 g u v) = map2 g (skipn n u) (skipn n v).
Proof.
  induction n as [| n IH]; intros u v; [reflexivity|].
  destruct u as [| a u]; [reflexivity|].
  destruct v as [| b v]; [cbn; now destruct (skipn n u)|].
  cbn [map2 skipn]. apply IH.
Qed.

Lemma sumsq_vadd (u : vec) :
  forall v : vec, length v = length u ->
    sumsq (vadd u v) == sumsq u + 2 * Inv.dot u v + sumsq v.
Proof.
  unfold Inv.dot, vadd, vmul.
  induction u as [| a u IH]; intros [| b v] Hlen; try discriminate.
  - cbn. ring.
  - cbn [map2]. rewrite !sumsq_cons. cbn [vsum fold_right].
    fold (vsum (map2 Qmult u v)). rewrite IH by (cbn in Hlen; lia). ring.
Qed.

Lemma dot_zeros_app (k : Q) (ps : nat) :
  forall beta h : vec,
    length h = length beta -> (ps <= length beta)%nat ->
    Inv.dot (zeros ps ++ vscale k (skipn ps beta)) h
    == k * Inv.dot (skipn ps beta) (skipn ps h).
Proof.
  unfold Inv.dot, vmul, zeros, vscale.
  induction ps as [| ps IH]; intros beta h Hlen Hps.
  - cbn [repeat app skipn]. clear Hps. revert h Hlen.
    induction beta as [| a u IHu]; intros [| b v] Hlen; try discriminate.
    + cbn. ring.
    + cbn [map map2 vsum fold_right].
      fold (vsum (map2 Qmult (map (Qmult k) u) v)).
      fold (vsum (map2 Qmult u v)).
      rewrite IHu by (cbn in Hlen; lia). ring.
  - destruct beta as [| a u]; [cbn in Hps; lia|].
    destruct h as [| b v]; [discriminate|].
    cbn [repeat app skipn map2 vsum fold_right].
    fold (vsum (map2 Qmult (repeat 0 ps ++ map (Qmult k) (skipn ps u)) v)).
    rewrite IH by (cbn in Hlen, Hps; lia). unfold vsum. ring.
Qed.

(** X17.  [L2.grad] is the gradient of [L2.f]: for a step [h] of the
    shape of [beta], [f(beta + h)] is [f(beta)] plus the inner product of
    [grad(beta)] and [h] plus [l] times the squared norm of the penalised
    part of [h]. *)
Theorem L2_grad_expansion (self : L2) (beta h : vec) :
  length h = length beta ->
  (l2_penalty_start self <= length beta)%nat ->
  L2_f self (vadd beta h)
  == L2_f self beta + Inv.dot (L2_grad self beta) h
     + l2_l self * sumsq (l2_penalised self h).
Proof.
  intros Hlen Hps. unfold L2_f, L2_grad.
  rewrite !l2_penalised_skipn.
  rewrite dot_zeros_app by assumption.
  unfold vadd. rewrite skipn_map2. fold (vadd (skipn (l2_penalty_start self) beta)
                                          (skipn (l2_penalty_start self) h)).
  rewrite sumsq_vadd by (rewrite !length_skipn; lia).
  ring.
Qed.

End Penalties_more.

(** ** multiblock/prox_ops.py: the retry loop of [L1.prox] and
    [L1_binsearch] *)

Section ProxOps_L1_retry.

Import ProxOps.

Variable TOLERANCE : Q.
Variable sqrt : Q -> Q.

Hypothesis sqrt_monotone :
  forall x y : Q, 0 <= x -> x <= y -> sqrt x <= sqrt y.

(** One entry of a pass: [c] is what the array holds afterwards. *)
Lemma pass_entry (t v : Q) :
  0 <= t ->
  let c := if Qltb (Qabs v - t) 0 then 0 else Qabs v - t in
  c * c <= v * v /\ (sign v * c) * (sign v * c) == c * c.
Proof.
  intros Ht c. subst c.
  destruct (Qltb (Qabs v - t) 0) eqn:E.
  - split; [nra | ring].
  - apply Qltb_ge in E. split.
    + revert E. apply Qabs_case; intros; nra.
    + destruct (Qlt_le_dec 0 v) as [H1 | H1].
      * rewrite (sign_pos v H1). ring.
      * destruct (Qlt_le_dec v 0) as [H2 | H2].
        -- rewrite (sign_neg v H2). ring.
        -- assert (H0 : v == 0) by lra.
           assert (Ha : Qabs v == 0) by (rewrite H0; reflexivity).
           assert (Hc : Qabs v - t == 0) by lra.
           rewrite Hc. ring.
Qed.

Lemma pass_sumsq (t : Q) (a : vec) :
  0 <= t ->
  sumsq (fst (pass a t)) <= sumsq a
  /\ sumsq (snd (pass a t)) == sumsq (fst (pass a t)).
Proof.
  intro Ht. unfold pass. cbn [fst snd]. unfold vmul, vsign, vabs.
  induction a as [| v a [IH1 IH2]]; [cbn; split; [lra | reflexivity]|].
  cbn [map map2]. rewrite !sumsq_cons.
  destruct (pass_entry t v Ht) as [H1 H2]. cbv zeta in H1, H2.
  split; [lra|]. rewrite H2, IH2. reflexivity.
Qed.

Lemma L1_loop_rejected (fuel : nat) :
  forall (a : vec) (t : Q) (w : bool),
    0 <= t -> sqrt (sumsq a) <= TOLERANCE ->
    L1_loop TOLERANCE sqrt fuel false a (ThrFloat t) w = Raise OutOfFuel.
Proof.
  induction fuel as [| fuel IH]; intros a t w Ht Ha; [reflexivity|].
  cbn [L1_loop thr_value].
  destruct (pass_sumsq t a Ht) as [H1 H2].
  destruct (pass a t) as [a' x] eqn:E. cbn [fst snd] in H1, H2.
  assert (Hx : norm sqrt x <= TOLERANCE).
  { unfold norm. apply Qle_trans with (sqrt (sumsq a)); [|exact Ha].
    apply sqrt_monotone; [apply sumsq_nonneg | lra]. }
  apply Qltb_ge in Hx. rewrite Hx. cbn [orb shrink_threshold bind].
  apply IH; [lra|].
  apply Qle_trans with (sqrt (sumsq a)); [|exact Ha].
  apply sqrt_monotone; [apply sumsq_nonneg | exact H1].
Qed.

(** The first pass decides: it is returned, without warning, or the loop
    never ends. *)
Lemma L1_prox_first_pass (self : t Q) (x : vec) (i : nat) (l : Q)
  (allow_empty : bool) :
  nth_error (parameter self) i = Some l -> 0 <= l ->
  (allow_empty = true \/ TOLERANCE < norm sqrt (snd (pass x l)) ->
   forall fuel,
     L1_prox TOLERANCE sqrt (S fuel) self x (Some i) allow_empty
     = Ok (snd (pass x l), None))
  /\ (allow_empty = false -> norm sqrt (snd (pass x l)) <= TOLERANCE ->
      forall fuel,
        L1_prox TOLERANCE sqrt fuel self x (Some i) allow_empty
        = Raise OutOfFuel).
Proof.
  intros Hi Hl. split.
  - intros H fuel. unfold L1_prox. rewrite Hi. cbn [bind L1_loop thr_value].
    destruct (pass x l) as [a' x'] eqn:E. cbn [snd] in *.
    assert (Ec : Qltb TOLERANCE (norm sqrt x') || allow_empty = true).
    { destruct H as [-> | H]; [apply orb_true_r|].
      apply Qltb_lt in H. now rewrite H. }
    rewrite Ec. reflexivity.
  - intros -> Hn fuel. unfold L1_prox. rewrite Hi. cbn [bind].
    destruct fuel as [| fuel]; [reflexivity|].
    cbn [L1_loop thr_value].
    destruct (pass_sumsq l x Hl) as [H1 H2].
    destruct (pass x l) as [a' x'] eqn:E. cbn [fst snd] in *.
    pose proof Hn as Hn'. apply Qltb_ge in Hn'. rewrite Hn'.
    cbn [orb shrink_threshold bind].
    rewrite L1_loop_rejected; [reflexivity | lra |].
    apply Qle_trans with (norm sqrt x'); [|exact Hn].
    unfold norm. apply sqrt_monotone; [apply sumsq_nonneg | lra].
Qed.

(** X18.  For a threshold [l = self.parameter[index] >= 0] the first
    pass of [L1.prox] decides (the square root being monotone): whenever the
    call returns, it returns the soft threshold of [x] by [l] and raises no
    warning; when the first pass is rejected, the retries work on the array
    that pass rewrote, every later pass is rejected too, and the call never
    returns. *)
Theorem L1_prox_retry_never_returns (self : t Q) (x : vec) (i : nat)
  (l : Q) :
  nth_error (parameter self) i = Some l -> 0 <= l ->
  (forall fuel allow_empty r w,
     L1_prox TOLERANCE sqrt fuel self x (Some i) allow_empty = Ok (r, w) ->
     r = snd (pass x l) /\ w = None)
  /\ (norm sqrt (snd (pass x l)) <= TOLERANCE ->
      forall fuel,
        L1_prox TOLERANCE sqrt fuel self x (Some i) false
        = Raise OutOfFuel).
Proof.
  intros Hi Hl. split.
  - intros fuel ae r w H.
    destruct (L1_prox_first_pass self x i l ae Hi Hl) as [Hacc Hrej].
    destruct (Qlt_le_dec TOLERANCE (norm sqrt (snd (pass x l))))
      as [Hn | Hn].
    + destruct fuel as [| fuel].
      * unfold L1_prox in H. rewrite Hi in H. discriminate.
      * rewrite Hacc in H by (now right). injection H as <- <-. now split.
    + destruct ae.
      * destruct fuel as [| fuel].
        -- unfold L1_prox in H. rewrite Hi in H. discriminate.
        -- rewrite Hacc in H by (now left). injection H as <- <-.
           now split.
      * rewrite (Hrej eq_refl Hn) in H. discriminate.
  - intros Hn fuel.
    now apply (L1_prox_first_pass self x i l false Hi Hl).
Qed.

End ProxOps_L1_retry.

Lemma sqrt_floor_monotone (x y : Q) :
  0 <= x -> x <= y -> Examples.sqrt_floor x <= Examples.sqrt_floor y.
Proof.
  intros _ H. unfold Examples.sqrt_floor. rewrite <- Zle_Qle.
  apply Z.sqrt_le_mono. now apply Qfloor_resp_le.
Qed.

Section L1_binsearch_facts.

Import ProxOps.
Import L1_binsearch.

Variable TOLERANCE : Q.
Variable MAX_ITER : nat.
Variable sqrt : Q -> Q.

Hypothesis sqrt_monotone :
  forall x y : Q, 0 <= x -> x <= y -> sqrt x <= sqrt y.

(** The search keeps [0 <= minl <= maxl <= m] and always ends. *)
Lemma search_bracket (s m : Q) (x : vec) (rem : nat) :
  forall b : bracket,
    0 <= minl b -> minl b <= maxl b -> maxl b <= m ->
    exists b' : bracket,
      (forall fuel,
         search TOLERANCE sqrt (S fuel) s x rem b = Ok b')
      /\ 0 <= minl b' /\ minl b' <= maxl b' /\ maxl b' <= m.
Proof.
  induction rem as [| rem IH]; intros b H0 H1 H2.
  - exists b. repeat split; assumption.
  - cbn [search].
    destruct (Qleb TOLERANCE (Qabs (s - midv b))).
    + set (midl := (maxl b + minl b) / 2).
      assert (Hm : minl b <= midl /\ midl <= maxl b).
      { unfold midl. split.
        - apply Qle_shift_div_l; lra.
        - apply Qle_shift_div_r; lra. }
      destruct Hm as [Hm1 Hm2].
      assert (Hp : forall fuel,
                 ProxOps.L1_prox TOLERANCE sqrt (S fuel) (ProxOps.mk [midl])
                   x (Some 0%nat) true
                 = Ok (snd (pass x midl), None)).
      { apply (L1_prox_first_pass TOLERANCE sqrt sqrt_monotone
                 (ProxOps.mk [midl]) x 0 midl true);
          [reflexivity | lra | now left]. }
      set (mv := norm1 (snd (pass x midl))).
      destruct (IH (if Qltb mv s
                    then {| minl := minl b; maxl := midl; midv := mv |}
                    else if Qltb s mv
                         then {| minl := midl; maxl := maxl b; midv := mv |}
                         else {| minl := minl b; maxl := maxl b;
                                 midv := mv |}))
        as [b' [Hs Hb']].
      * destruct (Qltb mv s); [cbn; lra|]. destruct (Qltb s mv); cbn; lra.
      * destruct (Qltb mv s); [cbn; lra|]. destruct (Qltb s mv); cbn; lra.
      * destruct (Qltb mv s); [cbn; lra|]. destruct (Qltb s mv); cbn; lra.
      * exists b'. split; [|exact Hb'].
        intro fuel. rewrite Hp. cbn [bind fst]. apply Hs.
    + exists b. repeat split; assumption.
Qed.

(** X19.  [L1_binsearch.prox], given a normaliser: a vector with
    [norm1(x) <= s] is returned as it is, not normalised.  Otherwise the
    search loop ends with a threshold [l] between 0 and the largest
    magnitude [m] of [x / normalise(x)]; the call returns the soft threshold
    of [x / normalise(x)] by [l], without warning, when the norm of that is
    above TOLERANCE, and never returns when it is not. *)
Theorem L1_binsearch_prox_threshold (self : t Q) (x : vec) (index : nat)
  (ns : list (vec -> Q)) (s m : Q) (normalise : vec -> Q) :
  nth_error (parameter self) index = Some s ->
  nth_error ns index = Some normalise ->
  (norm1 x <= s ->
   forall fuel,
     prox TOLERANCE MAX_ITER sqrt fuel self x index (Some ns)
     = Ok (x, None))
  /\ (s < norm1 x -> ~ normalise x == 0 ->
      py_max (vabs (scaled x (normalise x))) = Ok m ->
      exists l : Q,
        0 <= l /\ l <= m
        /\ (TOLERANCE < norm sqrt (snd (pass (scaled x (normalise x)) l)) ->
            forall fuel,
              prox TOLERANCE MAX_ITER sqrt (S fuel) self x index (Some ns)
              = Ok (snd (pass (scaled x (normalise x)) l), None))
        /\ (norm sqrt (snd (pass (scaled x (normalise x)) l))
            <= TOLERANCE ->
            forall fuel,
              prox TOLERANCE MAX_ITER sqrt fuel self x index (Some ns)
              = Raise OutOfFuel)).
Proof.
  intros Hs Hn. split.
  - intros Hle fuel. unfold prox. rewrite Hs, Hn. cbn [bind].
    apply Qltb_ge in Hle. now rewrite Hle.
  - intros Hlt Hnz Hmax.
    set (x' := scaled x (normalise x)) in *.
    assert (Hm0 : 0 <= m).
    { destruct x' as [| v r]; [discriminate|].
      cbn [vabs map py_max] in Hmax. injection Hmax as <-.
      destruct (fold_left_Qmax_ge (map Qabs r) (Qabs v)) as [H1 _].
      pose proof (Qabs_nonneg v). lra. }
    destruct (search_bracket s m x' (S MAX_ITER)
                {| minl := 0; maxl := m; midv := norm1 x' |})
      as [b [Hsearch [Hb0 [Hb1 Hb2]]]]; [cbn; lra | cbn; lra | cbn; lra|].
    set (l := (maxl b + minl b) / 2).
    assert (Hl : 0 <= l /\ l <= m).
    { unfold l. split.
      - apply Qle_shift_div_l; lra.
      - apply Qle_shift_div_r; lra. }
    destruct Hl as [Hl0 Hl1].
    destruct (L1_prox_first_pass TOLERANCE sqrt sqrt_monotone
                (ProxOps.mk [l]) x' 0 l false eq_refl Hl0)
      as [Hacc Hrej].
    assert (Hpre : forall fuel,
               prox TOLERANCE MAX_ITER sqrt fuel self x index (Some ns)
               = (b0 <- search TOLERANCE sqrt fuel s x' (S MAX_ITER)
                          {| minl := 0; maxl := m; midv := norm1 x' |} ;;
                  ProxOps.L1_prox TOLERANCE sqrt fuel
                    (ProxOps.mk [(maxl b0 + minl b0) / 2]) x'
                    (Some 0%nat) false)).
    { intro fuel. unfold prox. rewrite Hs, Hn. cbn [bind].
      apply Qltb_lt in Hlt. rewrite Hlt. unfold np_div.
      destruct (Qeq_bool (normalise x) 0) eqn:E;
        [apply Qeq_bool_iff in E; contradiction|].
      cbn [bind]. fold x'. rewrite Hmax. reflexivity. }
    exists l. split; [exact Hl0|]. split; [exact Hl1|]. split.
    + intros Hbig fuel. rewrite Hpre, Hsearch. cbn [bind]. fold l.
      apply Hacc. now right.
    + intros Hsmall fuel. rewrite Hpre.
      destruct fuel as [| fuel].
      * destruct (search TOLERANCE sqrt 0 s x' (S MAX_ITER)
                    {| minl := 0; maxl := m; midv := norm1 x' |})
          as [b0 | e] eqn:E; cbn [bind]; [reflexivity|].
        cbn [search midv] in E.
        destruct (Qleb TOLERANCE (Qabs (s - norm1 x')));
          [|discriminate].
        unfold L1_prox in E. cbn in E. now injection E as <-.
      * rewrite Hsearch. cbn [bind]. fold l. now apply Hrej.
Qed.

End L1_binsearch_facts.

Section ProxOps_errors.

Import ProxOps.

Variable TOLERANCE : Q.
Variable MAX_ITER : nat.
Variable sqrt : Q -> Q.

(** X20.  [ProxOp] sets no [self.normaliser]: with an index in range,
    [L1_binsearch.prox] and [L0_by_count.prox] called without [normaliser]
    raise [AttributeError] for every [x].  With a normaliser, an empty [x]
    is a [ValueError] in [L0_by_count.prox] ([np.argmax] of an empty
    array), and in [L1_binsearch.prox] when [s] is negative ([max] of an
    empty array). *)
Theorem prox_without_normaliser (fuel : nat) (self1 : t Q) (self0 : t Z)
  (x : vec) (index : nat) (s : Q) (num : Z) (ns : list (vec -> Q))
  (nrm : vec -> Q) :
  nth_error (parameter self1) index = Some s ->
  nth_error (parameter self0) index = Some num ->
  nth_error ns index = Some nrm ->
  L1_binsearch.prox TOLERANCE MAX_ITER sqrt fuel self1 x index None
  = Raise AttributeError
  /\ L0_by_count_prox self0 x index None = Raise AttributeError
  /\ L0_by_count_prox self0 [] index (Some ns) = Raise ValueError
  /\ (s < 0 ->
      L1_binsearch.prox TOLERANCE MAX_ITER sqrt fuel self1 [] index (Some ns)
      = Raise ValueError).
Proof.
  intros H1 H0 Hn.
  split; [unfold L1_binsearch.prox; rewrite H1; reflexivity|].
  split; [unfold L0_by_count_prox; rewrite H0; reflexivity|].
  split.
  - unfold L0_by_count_prox. rewrite H0, Hn. cbn [bind].
    assert (Hd : np_div [] (nrm []) = Ok []).
    { unfold np_div. destruct (Qeq_bool (nrm []) 0); reflexivity. }
    rewrite Hd. cbn [bind map length].
    destruct (target_bounds num 0) as [Ht _].
    destruct (target num 0) as [| n]; [lia|]. reflexivity.
  - intro Hs. unfold L1_binsearch.prox. rewrite H1, Hn. cbn [bind].
    assert (E : Qltb s (norm1 []) = true) by (apply Qltb_lt; exact Hs).
    rewrite E.
    assert (Hd : np_div [] (nrm []) = Ok []).
    { unfold np_div. destruct (Qeq_bool (nrm []) 0); reflexivity. }
    rewrite Hd. reflexivity.
Qed.

End ProxOps_errors.

(** ** [SufficientDescentCondition] on the penalty [L2] *)

Section Armijo.

Import PenaltiesL2.

Lemma sumsq_zeros_app (n : nat) (v : vec) :
  sumsq (zeros n ++ v) == sumsq v.
Proof.
  unfold zeros. induction n as [| n IH]; [reflexivity|].
  cbn [repeat app]. rewrite sumsq_cons, IH. ring.
Qed.

Lemma dot_self (v : vec) : Inv.dot v v = sumsq v.
Proof.
  unfold Inv.dot, vmul, sumsq.
  induction v as [| a v IH]; [reflexivity|].
  cbn [map2 map vsum fold_right]. unfold vsum in IH. now rewrite IH.
Qed.

Lemma dot_vscale_r (k : Q) (u : vec) :
  forall v : vec, Inv.dot u (vscale k v) == k * Inv.dot u v.
Proof.
  unfold Inv.dot, vmul, vscale.
  induction u as [| a u IH]; intros [| b v]; try (cbn; ring).
  cbn [map map2 vsum fold_right].
  fold (vsum (map2 Qmult u (map (Qmult k) v))).
  fold (vsum (map2 Qmult u v)). rewrite IH. ring.
Qed.

Lemma dot_opp_r (u : vec) :
  forall v : vec, Inv.dot u (map Qopp v) == - Inv.dot u v.
Proof.
  unfold Inv.dot, vmul.
  induction u as [| a u IH]; intros [| b v]; try (cbn; ring).
  cbn [map map2 vsum fold_right].
  fold (vsum (map2 Qmult u (map Qopp v))).
  fold (vsum (map2 Qmult u v)). rewrite IH. ring.
Qed.

Lemma sumsq_opp (v : vec) : sumsq (map Qopp v) == sumsq v.
Proof.
  induction v as [| a v IH]; [reflexivity|].
  cbn [map]. rewrite !sumsq_cons, IH. ring.
Qed.

Lemma skipn_zeros_app (n : nat) (v : vec) : skipn n (zeros n ++ v) = v.
Proof.
  unfold zeros. induction n as [| n IH]; [reflexivity | exact IH].
Qed.

Lemma skipn_vscale (n : nat) (k : Q) (v : vec) :
  skipn n (vscale k v) = vscale k (skipn n v).
Proof. unfold vscale. apply skipn_map. Qed.

(** X21.  The Armijo condition on the penalty [L2] along the steepest
    descent direction: for [p = -grad(x)], [l >= 0] and a step [a >= 0]
    with [l * a <= 1 - c], [SufficientDescentCondition.feasible((x, a))]
    holds. *)
Theorem L2_descent_step_feasible (pen : L2) (x : vec) (c0 a : Q) :
  0 <= l2_l pen ->
  (l2_penalty_start pen <= length x)%nat ->
  0 <= a -> l2_l pen * a <= 1 - c0 ->
  SufficientDescentCondition.feasible
    (SufficientDescentCondition.mk (L2_f pen) (L2_grad pen)
       (map Qopp (L2_grad pen x)) c0)
    (x, a) = true.
Proof.
  intros Hl Hps Ha Hstep.
  unfold SufficientDescentCondition.feasible.
  cbn [fst snd SufficientDescentCondition.function_f
       SufficientDescentCondition.function_grad
       SufficientDescentCondition.p SufficientDescentCondition.c].
  apply Qleb_le.
  set (g := L2_grad pen x).
  set (h := vscale a (map Qopp g)).
  assert (Hg : length g = length x).
  { unfold g, L2_grad, zeros, vscale.
    rewrite length_app, repeat_length, length_map, l2_penalised_skipn.
    rewrite length_skipn. lia. }
  assert (Hh : length h = length x).
  { unfold h, vscale. now rewrite !length_map. }
  set (N := sumsq (vscale (2 * l2_l pen) (l2_penalised pen x))).
  assert (HN : 0 <= N) by apply sumsq_nonneg.
  assert (Hgg : sumsq g == N).
  { unfold g, L2_grad. apply sumsq_zeros_app. }
  assert (Hpen : sumsq (l2_penalised pen h) == a * a * N).
  { unfold h. rewrite l2_penalised_skipn.
    rewrite skipn_vscale, skipn_map.
    rewrite sumsq_vscale, sumsq_opp. unfold g, L2_grad.
    rewrite l2_penalised_skipn, skipn_zeros_app.
    rewrite <- l2_penalised_skipn. reflexivity. }
  assert (Hdot : Inv.dot g h == - (a * N)).
  { unfold h. rewrite dot_vscale_r, dot_opp_r, dot_self, Hgg. ring. }
  assert (Hexp : L2_f pen (vadd x h)
                 == L2_f pen x + Inv.dot g h
                    + l2_l pen * sumsq (l2_penalised pen h)).
  { unfold L2_f, g, L2_grad. rewrite !l2_penalised_skipn.
    rewrite dot_zeros_app by assumption.
    unfold vadd. rewrite skipn_map2.
    fold (vadd (skipn (l2_penalty_start pen) x)
               (skipn (l2_penalty_start pen) h)).
    rewrite sumsq_vadd by (rewrite !length_skipn; lia).
    ring. }
  fold (Inv.dot g (map Qopp g)).
  rewrite Hexp, Hpen, Hdot, dot_opp_r, dot_self, Hgg.
  assert (Hs : 0 <= a * N) by (apply Qmult_le_0_compat; assumption).
  assert (Hk : 0 <= (1 - c0 - l2_l pen * a) * (a * N))
    by (apply Qmult_le_0_compat; [lra | exact Hs]).
  lra.
Qed.

End Armijo.

(** ** The continuation functions of [RR_L1_TV] *)

Section Continuation.

Import RR_L1_TV.

Variable sqrt : Q -> Q.

(** X22.  The continuation functions of [RR_L1_TV] are consistent:
    [eps_opt(mu_opt(eps)) = eps], when [gM * Lg] and [gA2] are not zero and
    the square root is exact at the discriminant; both calls leave the
    smoothing constant of [self.tv] as they found it. *)
Theorem RR_L1_TV_eps_opt_mu_opt (self : t) (eps : Q) :
  let gM := l (tv self) * M (tv self) in
  let gA2 := L (tv self) 1 in
  let Lg := rr_L self in
  let d := (gM * gA2) * (gM * gA2) + gM * Lg * gA2 * eps in
  ~ gM * Lg == 0 -> ~ gA2 == 0 -> 0 <= d -> sqrt d * sqrt d == d ->
  exists m e : Q,
    mu_opt sqrt self eps = Ok (m, self)
    /\ eps_opt self m = Ok (e, self)
    /\ e == eps.
Proof.
  intros gM gA2 Lg d HgL HA Hd Hs.
  destruct self as [[l0 mu0 M0 L0] Lg0].
  cbn [tv rr_L l M L] in *.
  unfold mu_opt, eps_opt, set_mu, get_mu, np_sqrt, quotient.
  cbn [tv rr_L l M L mu].
  fold gM. fold gA2. fold Lg. fold d.
  assert (E1 : Qltb d 0 = false) by (apply Qltb_ge; exact Hd).
  rewrite E1. cbn [bind].
  destruct (Qeq_bool (gM * Lg) 0) eqn:E2;
    [apply Qeq_bool_iff in E2; contradiction|].
  destruct (Qeq_bool gA2 0) eqn:E3;
    [apply Qeq_bool_iff in E3; contradiction|].
  cbn [bind].
  eexists. eexists. split; [reflexivity|]. split; [reflexivity|].
  assert (HgM : ~ gM == 0) by (intro H0; apply HgL; rewrite H0; ring).
  assert (HLg : ~ Lg == 0) by (intro H0; apply HgL; rewrite H0; ring).
  set (S := sqrt d) in *.
  assert (Hfield :
            (2 * gM * gA2 * ((- gM * gA2 + S) / (gM * Lg))
             + gM * Lg * ((- gM * gA2 + S) / (gM * Lg)
                          * ((- gM * gA2 + S) / (gM * Lg)))) / gA2
            == (S * S - (gM * gA2) * (gM * gA2)) / (gM * Lg * gA2))
    by (field; repeat split; assumption).
  rewrite Hfield, Hs. unfold d. field. repeat split; assumption.
Qed.

(** X23.  For non-negative [gM], [Lg] and [mu] and a positive [gA2],
    [eps_opt(mu)] is at least twice [eps_max(mu)], which is not negative:
    the [min(eps_max(mu), eps_opt(mu))] that [CONESTA] computes at its
    start is [eps_max(mu)]. *)
Theorem RR_L1_TV_eps_max_le_eps_opt (self : t) (mu0 : Q) :
  0 <= l (tv self) * M (tv self) -> 0 <= rr_L self ->
  0 < L (tv self) 1 -> 0 <= mu0 ->
  exists e : Q,
    eps_opt self mu0 = Ok (e, self)
    /\ 2 * eps_max self mu0 <= e
    /\ 0 <= eps_max self mu0.
Proof.
  intros HgM HLg HA Hmu.
  destruct self as [[l0 m0 M0 L0] Lg0].
  cbn [tv rr_L l M L] in *.
  unfold eps_opt, eps_max, set_mu, get_mu, quotient.
  cbn [tv rr_L l M L mu].
  set (gM := l0 * M0) in *. set (gA2 := L0 1) in *.
  destruct (Qeq_bool gA2 0) eqn:E3;
    [apply Qeq_bool_iff in E3; lra|].
  cbn [bind]. eexists. split; [reflexivity|].
  assert (H1 : 0 <= mu0 * gM) by (apply Qmult_le_0_compat; assumption).
  split; [|exact H1].
  assert (Hq : (2 * gM * gA2 * mu0 + gM * Lg0 * (mu0 * mu0)) / gA2
               == 2 * (mu0 * gM) + (mu0 * gM) * (Lg0 * mu0) / gA2)
    by (field; lra).
  rewrite Hq.
  assert (H2 : 0 <= Lg0 * mu0) by (apply Qmult_le_0_compat; assumption).
  assert (H3 : 0 <= (mu0 * gM) * (Lg0 * mu0))
    by (apply Qmult_le_0_compat; assumption).
  assert (H4 : 0 <= (mu0 * gM) * (Lg0 * mu0) / gA2).
  { apply Qle_shift_div_l; [exact HA | lra]. }
  lra.
Qed.

End Continuation.

(** ** The dual variable of [GroupLassoOverlap] *)

Section GroupLasso_dual.

Import GroupLassoOverlap.

Variable sqrt : Q -> Q.

Hypothesis sqrt_nonneg : forall v : Q, 0 <= sqrt v.







End GroupLasso_dual.

(** ** Runs on concrete inputs *)

Lemma FISTA_call_again_witness :
  exists (ret : vec * option (list Q)) (self' : FISTA.t),
    FISTA.call sqrt_exact Examples.fista0 Examples.quadratic Examples.x2
    = Ok (ret, self')
    /\ (FISTA.step Examples.fista0 <> None -> self' = Examples.fista0)
    /\ FISTA.step self' <> None
    /\ FISTA.call sqrt_exact self' Examples.quadratic Examples.x2
       = Ok (ret, self').
Proof.
  eexists. eexists. split; [vm_compute; reflexivity|].
  apply (FISTA_call_again sqrt_exact). vm_compute. reflexivity.
Defined.

Lemma FISTA_call_iterations_witness :
  ~ Function.L Examples.quadratic == 0
  /\ FISTA.output Examples.fista0 = true
  /\ exists (b : vec) (fs : list Q) (self' : FISTA.t),
       FISTA.call sqrt_exact Examples.fista0 Examples.quadratic Examples.x2
       = Ok ((b, Some fs), self')
       /\ (Nat.min 2 5 <= length fs)%nat
       /\ (length fs <= 5)%nat.
Proof.
  assert (H : ~ Function.L Examples.quadratic == 0)
    by (vm_compute; intro H; discriminate H).
  split; [exact H|]. split; [reflexivity|].
  apply (FISTA_call_iterations sqrt_exact Examples.fista0 Examples.quadratic
           Examples.x2); [exact H | reflexivity].
Defined.

Lemma CONESTA_call_continuations_witness :
  exists st : CONESTA.state,
    CONESTA.call (1 # 100) sqrt_exact Examples.conesta0
      (Examples.smoothed 2) 0 [11 # 10] = Ok st
    /\ (CONESTA.i st <= CONESTA.continuations Examples.conesta0)%nat
    /\ (CONESTA.output Examples.conesta0 = false ->
        length (CONESTA.mu st) = S (CONESTA.i st)).
Proof.
  eexists. split; [vm_compute; reflexivity|].
  apply (CONESTA_call_continuations (1 # 100) sqrt_exact
           (Examples.smoothed 2) Examples.conesta0 0 [11 # 10]).
  vm_compute. reflexivity.
Defined.

Lemma CONESTA_static_decay_witness :
  exists st0 st : CONESTA.state,
    CONESTA.dynamic Examples.conesta_static = false
    /\ CONESTA.start Examples.conesta_static (Examples.smoothed 2) 0 [11 # 10]
       = Ok st0
    /\ CONESTA.call (1 # 100) sqrt_exact Examples.conesta_static
         (Examples.smoothed 2) 0 [11 # 10] = Ok st
    /\ CONESTA.G st
       = Nat.iter (S (CONESTA.i st)) (Qmult (CONESTA.tau Examples.conesta_static))
           (CONESTA.G st0).
Proof.
  eexists. eexists. split; [reflexivity|].
  split; [vm_compute; reflexivity|].
  split; [vm_compute; reflexivity|].
  apply (CONESTA_static_decay (1 # 100) sqrt_exact (Examples.smoothed 2)
           Examples.conesta_static 0 [11 # 10]).
  - reflexivity.
  - vm_compute. reflexivity.
  - vm_compute. reflexivity.
Defined.

Lemma CONESTA_mu_never_increases_witness :
  exists st : CONESTA.state,
    CONESTA.call (1 # 100) sqrt_exact Examples.conesta0
      (Examples.smoothed 2) 0 [11 # 10] = Ok st
    /\ Inv.descending (CONESTA.mu st)
    /\ CONESTA.mu_min (CONESTA.self st) <= CONESTA.mu_min Examples.conesta0
    /\ (forall m, In m (CONESTA.mu st) ->
          CONESTA.mu_min (CONESTA.self st) <= m
          /\ m <= hd 0 (CONESTA.mu st)).
Proof.
  eexists. split; [vm_compute; reflexivity|].
  apply (CONESTA_mu_never_increases (1 # 100) sqrt_exact
           (Examples.smoothed 2) Examples.conesta0 0 [11 # 10]).
  vm_compute. reflexivity.
Defined.

Lemma EGM_mu_closed_form_witness :
  exists st : ExcessiveGapMethod.state,
    ExcessiveGapMethod.call (ExcessiveGapMethod.mk true (1 # 10) 100 1)
      Examples.egm_toy (ExcessiveGapMethod.MuFloat 0) = Ok st
    /\ length (ExcessiveGapMethod.mu st) = (ExcessiveGapMethod.k st + 2)%nat
    /\ (forall (j : nat) (m : Q),
          nth_error (ExcessiveGapMethod.mu st) j = Some m ->
          m == 4 * 3
               / ((inject_Z (Z.of_nat j) + 1) * (inject_Z (Z.of_nat j) + 2))).
Proof.
  apply (EGM_mu_closed_form (ExcessiveGapMethod.mk true (1 # 10) 100 1)
           Examples.egm_toy (ExcessiveGapMethod.MuFloat 0)).
  - intros m b. reflexivity.
  - intros m u b L H. exact H.
Defined.

Lemma EGM_iteration_bound_witness :
  exists st : ExcessiveGapMethod.state,
    ExcessiveGapMethod.call (ExcessiveGapMethod.mk true (1 # 10) 100 1)
      Examples.egm_toy (ExcessiveGapMethod.MuFloat 0) = Ok st
    /\ (ExcessiveGapMethod.k st <= 100)%nat
    /\ length (ExcessiveGapMethod.mu st)
       = (1 + (ExcessiveGapMethod.k st + 1))%nat
    /\ (forall j, (j < ExcessiveGapMethod.k st)%nat ->
          (1 # 10)
          <= 4 * 3 * 1
             / ((inject_Z (Z.of_nat j) + 2) * (inject_Z (Z.of_nat j) + 3))).
Proof.
  apply (EGM_iteration_bound (ExcessiveGapMethod.mk true (1 # 10) 100 1)
           Examples.egm_toy (ExcessiveGapMethod.MuFloat 0)).
  - intros m b. reflexivity.
  - intros m u b L H. exact H.
  - intro m. reflexivity.
Defined.

Lemma L1_prox_nonexpansive_witness :
  0 <= Penalties.l Examples.l1_pen * 3
  /\ length Examples.x4 = length Examples.y4
  /\ norm1 (vsub (Penalties.L1_prox Examples.l1_pen Examples.x4 3)
              (Penalties.L1_prox Examples.l1_pen Examples.y4 3))
     <= norm1 (vsub Examples.x4 Examples.y4).
Proof.
  assert (H : 0 <= Penalties.l Examples.l1_pen * 3)
    by (vm_compute; intro H; discriminate H).
  split; [exact H|]. split; [reflexivity|].
  apply (L1_prox_nonexpansive Examples.l1_pen Examples.x4 Examples.y4 3);
    [exact H | reflexivity].
Defined.

Lemma L1_prox_decreases_penalty_witness :
  0 <= Penalties.l Examples.l1_pen /\ 0 <= 3
  /\ Penalties.L1_f Examples.l1_pen (Penalties.L1_prox Examples.l1_pen Examples.x4 3)
     <= Penalties.L1_f Examples.l1_pen Examples.x4
  /\ length (Penalties.L1_prox Examples.l1_pen Examples.x4 3) = length Examples.x4
  /\ Forall2 (fun b r => Qabs b <= Penalties.l Examples.l1_pen * 3 -> r == 0)
       (Penalties.penalised Examples.l1_pen Examples.x4)
       (Penalties.penalised Examples.l1_pen
          (Penalties.L1_prox Examples.l1_pen Examples.x4 3)).
Proof.
  assert (H1 : 0 <= Penalties.l Examples.l1_pen)
    by (vm_compute; intro H; discriminate H).
  assert (H2 : 0 <= 3) by (vm_compute; intro H; discriminate H).
  split; [exact H1|]. split; [exact H2|].
  apply (L1_prox_decreases_penalty Examples.l1_pen Examples.x4 3);
    [exact H1 | exact H2].
Defined.

Lemma L1_proj_function_decreases_witness :
  0 <= 1 /\ 1 <= 2 /\ py_max (vabs Examples.x4) = Ok 4
  /\ Penalties.F_f Examples.x4 5 0 == norm1 Examples.x4 - 5
  /\ Penalties.F_f Examples.x4 5 2 <= Penalties.F_f Examples.x4 5 1
  /\ Penalties.F_f Examples.x4 5 4 == - (5).
Proof.
  assert (H1 : 0 <= 1) by (vm_compute; intro H; discriminate H).
  assert (H2 : 1 <= 2) by (vm_compute; intro H; discriminate H).
  assert (H3 : py_max (vabs Examples.x4) = Ok 4) by reflexivity.
  split; [exact H1|]. split; [exact H2|]. split; [exact H3|].
  apply (L1_proj_function_decreases Examples.x4 5 1 2 4);
    [exact H1 | exact H2 | exact H3].
Defined.


Lemma L2_prox_resolvent_witness :
  0 <= PenaltiesL2.l2_l Examples.l2_pen /\ 0 <= 3
  /\ exists r : vec,
       PenaltiesL2.L2_prox Examples.l2_pen Examples.b3 3 = Ok r
       /\ firstn 1 r = firstn 1 Examples.b3
       /\ Forall2 Qeq
            (vadd r (vscale 3 (PenaltiesL2.L2_grad Examples.l2_pen r)))
            Examples.b3
       /\ PenaltiesL2.L2_f Examples.l2_pen r <= PenaltiesL2.L2_f Examples.l2_pen Examples.b3.
Proof.
  assert (H1 : 0 <= PenaltiesL2.l2_l Examples.l2_pen)
    by (vm_compute; intro H; discriminate H).
  assert (H2 : 0 <= 3) by (vm_compute; intro H; discriminate H).
  split; [exact H1|]. split; [exact H2|].
  apply (L2_prox_resolvent Examples.l2_pen Examples.b3 3); [exact H1 | exact H2].
Defined.

Lemma L2_grad_expansion_witness :
  length Examples.h3 = length Examples.b3
  /\ (PenaltiesL2.l2_penalty_start Examples.l2_pen <= length Examples.b3)%nat
  /\ PenaltiesL2.L2_f Examples.l2_pen (vadd Examples.b3 Examples.h3)
     == PenaltiesL2.L2_f Examples.l2_pen Examples.b3
        + Inv.dot (PenaltiesL2.L2_grad Examples.l2_pen Examples.b3) Examples.h3
        + PenaltiesL2.l2_l Examples.l2_pen
          * sumsq (PenaltiesL2.l2_penalised Examples.l2_pen Examples.h3).
Proof.
  split; [reflexivity|]. split; [vm_compute; lia|].
  apply (L2_grad_expansion Examples.l2_pen Examples.b3 Examples.h3);
    [reflexivity | vm_compute; lia].
Defined.


Lemma L1_prox_retry_never_returns_witness :
  nth_error (ProxOps.parameter (ProxOps.mk [2])) 0 = Some 2
  /\ 0 <= 2
  /\ (forall fuel allow_empty r w,
        ProxOps.L1_prox 1 Examples.sqrt_floor fuel (ProxOps.mk [2]) [1]
          (Some 0%nat) allow_empty = Ok (r, w) ->
        r = snd (ProxOps.pass [1] 2) /\ w = None)
  /\ (norm Examples.sqrt_floor (snd (ProxOps.pass [1] 2)) <= 1 ->
      forall fuel,
        ProxOps.L1_prox 1 Examples.sqrt_floor fuel (ProxOps.mk [2]) [1]
          (Some 0%nat) false
        = Raise OutOfFuel).
Proof.
  assert (H : 0 <= 2) by (vm_compute; intro H; discriminate H).
  split; [reflexivity|]. split; [exact H|].
  apply (L1_prox_retry_never_returns 1 Examples.sqrt_floor
           sqrt_floor_monotone (ProxOps.mk [2]) [1] 0 2);
    [reflexivity | exact H].
Defined.

Lemma L1_binsearch_prox_threshold_witness :
  nth_error (ProxOps.parameter (ProxOps.mk [2])) 0 = Some 2
  /\ nth_error [Examples.one] 0 = Some Examples.one
  /\ (norm1 Examples.x4 <= 2 ->
      forall fuel,
        L1_binsearch.prox (1 # 100) 3 Examples.sqrt_floor fuel
          (ProxOps.mk [2]) Examples.x4 0 (Some [Examples.one])
        = Ok (Examples.x4, None))
  /\ (2 < norm1 Examples.x4 -> ~ Examples.one Examples.x4 == 0 ->
      py_max (vabs (ProxOps.scaled Examples.x4 (Examples.one Examples.x4))) = Ok 4 ->
      exists l : Q,
        0 <= l /\ l <= 4
        /\ ((1 # 100)
            < norm Examples.sqrt_floor
                (snd (ProxOps.pass
                        (ProxOps.scaled Examples.x4 (Examples.one Examples.x4)) l)) ->
            forall fuel,
              L1_binsearch.prox (1 # 100) 3 Examples.sqrt_floor (S fuel)
                (ProxOps.mk [2]) Examples.x4 0 (Some [Examples.one])
              = Ok (snd (ProxOps.pass
                           (ProxOps.scaled Examples.x4 (Examples.one Examples.x4)) l),
                    None))
        /\ (norm Examples.sqrt_floor
              (snd (ProxOps.pass
                      (ProxOps.scaled Examples.x4 (Examples.one Examples.x4)) l))
            <= 1 # 100 ->
            forall fuel,
              L1_binsearch.prox (1 # 100) 3 Examples.sqrt_floor fuel
                (ProxOps.mk [2]) Examples.x4 0 (Some [Examples.one])
              = Raise OutOfFuel)).
Proof.
  split; [reflexivity|]. split; [reflexivity|].
  apply (L1_binsearch_prox_threshold (1 # 100) 3 Examples.sqrt_floor
           sqrt_floor_monotone (ProxOps.mk [2]) Examples.x4 0 [Examples.one] 2 4 Examples.one);
    reflexivity.
Defined.

Lemma prox_without_normaliser_witness :
  nth_error (ProxOps.parameter (ProxOps.mk [-(1)])) 0 = Some (-(1))
  /\ nth_error (ProxOps.parameter (ProxOps.mk [2%Z])) 0 = Some 2%Z
  /\ nth_error [Examples.one] 0 = Some Examples.one
  /\ L1_binsearch.prox (1 # 100) 3 sqrt_exact 5 (ProxOps.mk [-(1)])
       Examples.x4 0 None
     = Raise AttributeError
  /\ ProxOps.L0_by_count_prox (ProxOps.mk [2%Z]) Examples.x4 0 None
     = Raise AttributeError
  /\ ProxOps.L0_by_count_prox (ProxOps.mk [2%Z]) [] 0 (Some [Examples.one])
     = Raise ValueError
  /\ (-(1) < 0 ->
      L1_binsearch.prox (1 # 100) 3 sqrt_exact 5 (ProxOps.mk [-(1)]) [] 0
        (Some [Examples.one])
      = Raise ValueError).
Proof.
  split; [reflexivity|]. split; [reflexivity|]. split; [reflexivity|].
  apply (prox_without_normaliser (1 # 100) 3 sqrt_exact 5
           (ProxOps.mk [-(1)]) (ProxOps.mk [2%Z]) Examples.x4 0 (-(1)) 2%Z
           [Examples.one] Examples.one); reflexivity.
Defined.

Lemma L2_descent_step_feasible_witness :
  0 <= PenaltiesL2.l2_l Examples.l2_pen
  /\ (PenaltiesL2.l2_penalty_start Examples.l2_pen
      <= length Examples.b3)%nat
  /\ 0 <= 1 # 10
  /\ PenaltiesL2.l2_l Examples.l2_pen * (1 # 10) <= 1 - (1 # 10000)
  /\ SufficientDescentCondition.feasible
       (SufficientDescentCondition.mk (PenaltiesL2.L2_f Examples.l2_pen)
          (PenaltiesL2.L2_grad Examples.l2_pen)
          (map Qopp (PenaltiesL2.L2_grad Examples.l2_pen Examples.b3))
          (1 # 10000))
       (Examples.b3, 1 # 10) = true.
Proof.
  assert (H1 : 0 <= PenaltiesL2.l2_l Examples.l2_pen)
    by (vm_compute; intro H; discriminate H).
  assert (H2 : (PenaltiesL2.l2_penalty_start Examples.l2_pen
                <= length Examples.b3)%nat) by (vm_compute; lia).
  assert (H3 : 0 <= 1 # 10) by (vm_compute; intro H; discriminate H).
  assert (H4 : PenaltiesL2.l2_l Examples.l2_pen * (1 # 10)
               <= 1 - (1 # 10000))
    by (vm_compute; intro H; discriminate H).
  split; [exact H1|]. split; [exact H2|]. split; [exact H3|].
  split; [exact H4|].
  apply (L2_descent_step_feasible Examples.l2_pen Examples.b3 (1 # 10000)
           (1 # 10)); assumption.
Defined.

Lemma RR_L1_TV_eps_opt_mu_opt_witness :
  exists m e : Q,
    RR_L1_TV.mu_opt sqrt_exact Examples.tv_toy 6 = Ok (m, Examples.tv_toy)
    /\ RR_L1_TV.eps_opt Examples.tv_toy m = Ok (e, Examples.tv_toy)
    /\ e == 6.
Proof.
  apply (RR_L1_TV_eps_opt_mu_opt sqrt_exact Examples.tv_toy 6).
  - vm_compute. intro H. discriminate H.
  - vm_compute. intro H. discriminate H.
  - vm_compute. intro H. discriminate H.
  - vm_compute. reflexivity.
Defined.

Lemma RR_L1_TV_eps_max_le_eps_opt_witness :
  exists e : Q,
    RR_L1_TV.eps_opt Examples.tv_toy 2 = Ok (e, Examples.tv_toy)
    /\ 2 * RR_L1_TV.eps_max Examples.tv_toy 2 <= e
    /\ 0 <= RR_L1_TV.eps_max Examples.tv_toy 2.
Proof.
  apply (RR_L1_TV_eps_max_le_eps_opt Examples.tv_toy 2).
  - vm_compute. intro H. discriminate H.
  - vm_compute. intro H. discriminate H.
  - vm_compute. reflexivity.
  - vm_compute. intro H. discriminate H.
Defined.

